(** * AWSSecurityLens: the scan orchestrator, its probes and the finding store

    A shallow embedding of
      - [src/db/service.ts]   (class [DatabaseService], over SQLite),
      - [src/db/schema.ts]    (the row interfaces and the second copy of the DDL),
      - [src/scanner/index.ts] (class [SecurityScanner]),
      - [src/scanner/services/*.ts] (the six probes),
    followed by the properties of the orchestration engine.

    Conventions.  A JavaScript promise that rejects, and a [throw], are the
    [Throw] outcome; [await] is sequencing.  The SQLite connection is explicit
    state threaded through every call of the service.  What AWS answers is not
    under the program's control: every probe takes the answers of its own API
    calls as an argument, so every statement below holds for all answers. *)

From Stdlib Require Import List String Ascii ZArith QArith Bool Arith Lia.
From Stdlib Require Import DecimalString.
From Stdlib Require Import Permutation Sorted.
From Stdlib Require OrderedTypeEx.
Import ListNotations.

Local Open Scope Z_scope.
Local Open Scope string_scope.
Local Open Scope list_scope.

(* ================================================================== *)
(** ** JavaScript values the code inspects *)

Module Js.

(** Anything that can be thrown.  The code only ever looks at
    [instanceof Error], [.name], [.$metadata.httpStatusCode] and [.message]. *)
Record Thrown := mkThrown {
  is_Error : bool;
  name : string;
  httpStatusCode : option Z;
  message : string
}.

(** [new Error(msg)] *)
Definition new_Error (msg : string) : Thrown :=
  {| is_Error := true; name := "Error"; httpStatusCode := None; message := msg |}.

Inductive Outcome (A : Type) : Type :=
| Ok (a : A)
| Throw (e : Thrown).
Arguments Ok {A} a.
Arguments Throw {A} e.

(** [p.catch(h)] and [try { p } catch (e) { h(e) }] on a pure outcome *)
Definition catch_ {A} (p : Outcome A) (h : Thrown -> Outcome A) : Outcome A :=
  match p with
  | Ok a => Ok a
  | Throw e => h e
  end.

(** [const a = await p; k(a)] on a pure outcome *)
Definition and_then {A B} (p : Outcome A) (k : A -> Outcome B) : Outcome B :=
  match p with
  | Ok a => k a
  | Throw e => Throw e
  end.

(** [Promise.all]: the array of results, or the rejection of a member.
    (Which rejection wins when several members reject depends on timing; the
    model takes the first in array order.) *)
Fixpoint promise_all {A} (ps : list (Outcome A)) : Outcome (list A) :=
  match ps with
  | [] => Ok []
  | p :: rest =>
      match p with
      | Throw e => Throw e
      | Ok a =>
          match promise_all rest with
          | Ok l => Ok (a :: l)
          | Throw e => Throw e
          end
      end
  end.

(** Template-literal rendering of an integer, digit by digit: what JavaScript
    prints for the safe integers, those of magnitude at most 2^53 - 1 (a
    number of magnitude 1e21 or more is printed in exponent form) *)
Definition string_of_Z (z : Z) : string := NilZero.string_of_int (Z.to_int z).
Definition string_of_nat (n : nat) : string := string_of_Z (Z.of_nat n).

(** Template-literal rendering of a possibly undefined string *)
Definition render (s : option string) : string :=
  match s with
  | Some v => v
  | None => "undefined"
  end.

(** [hay.includes(needle)] *)
Fixpoint includes (needle hay : string) : bool :=
  String.prefix needle hay ||
  match hay with
  | EmptyString => false
  | String _ rest => includes needle rest
  end.

(** Truthiness of the two kinds of value tested by [if (x)] / [!x] / [x || d] *)
Definition truthy_string (s : string) : bool := negb (String.eqb s "").
Definition truthy_number (z : Z) : bool := negb (Z.eqb z 0).

(** [s || d] for a possibly undefined string *)
Definition or_default (s : option string) (d : string) : string :=
  match s with
  | Some v => if truthy_string v then v else d
  | None => d
  end.

End Js.
Import Js.

(* ================================================================== *)
(** ** The row interfaces of [src/db/schema.ts] *)

(** Timestamps are seconds since the epoch; [new Date(t)] is the identity on them. *)
Definition Date := Z.

Record AWSAccount := mkAccount {
  a_id : Z;
  a_accountId : string;
  a_accountName : string;
  a_accessKeyId : string;
  a_secretAccessKey : string;
  a_sessionToken : option string;
  a_createdAt : Date;
  a_updatedAt : Date
}.

(** [enabled] is what SQLite stores: [NULL] when the request body had no
    [enabled] field (an explicit NULL overrides [DEFAULT 1]). *)
Record AWSRegion := mkRegion {
  r_id : Z;
  r_accountId : Z;
  r_region : string;
  r_enabled : option bool;
  r_createdAt : Date;
  r_updatedAt : Date
}.

Inductive Severity := HIGH | MEDIUM | LOW.

Definition severity_text (s : Severity) : string :=
  match s with
  | HIGH => "HIGH"
  | MEDIUM => "MEDIUM"
  | LOW => "LOW"
  end.

(** [type Finding = Omit<AssetFinding, 'id' | 'accountId' | 'region' | 'createdAt' | 'updatedAt'>]:
    what a probe returns. *)
Record Finding := mkFinding {
  resourceId : string;
  resourceType : string;
  resourceName : option string;
  service : string;
  severity : Severity;
  finding : string;
  description : string;
  remediation : string
}.

(** [{ ...finding, region: region.region }]: what the orchestrator accumulates
    and hands to [storeFindingsForAccount]. *)
Record RegionFinding := mkRegionFinding {
  rf_region : string;
  rf_finding : Finding
}.

Record AssetFinding := mkAssetFinding {
  f_id : Z;
  f_accountId : Z;
  f_region : string;
  f_fields : Finding;
  f_createdAt : Date;
  f_updatedAt : Date
}.

(* ================================================================== *)
(** ** SQLite, as far as [DatabaseService] uses it *)

Module Sqlite.

(** The two copies of the DDL differ: [DatabaseService.initialize]
    (service.ts) creates [aws_regions] without a table constraint, while
    [initializeDatabase] (schema.ts) adds [UNIQUE(account_id, region)].
    Both say [CREATE TABLE IF NOT EXISTS], so the schema of a database file is
    that of whichever created it. *)
Record Schema := mkSchema {
  regions_pair_unique : bool
}.

(** The three tables in rowid order, and the [sqlite_sequence] counters that
    [AUTOINCREMENT] keeps. *)
Record Tables := mkTables {
  aws_accounts : list AWSAccount;
  aws_regions : list AWSRegion;
  asset_findings : list AssetFinding;
  seq_accounts : Z;
  seq_regions : Z;
  seq_findings : Z
}.

Inductive Column := Col_account_id | Col_region | Col_service | Col_severity.

Inductive SqlValue :=
| VInt (z : Z)
| VText (s : string).

(** The statements the service sends, as they appear on the connection. *)
Inductive Stmt :=
| BEGIN_TRANSACTION
| COMMIT
| ROLLBACK
| INSERT_account (accountId : string)
| SELECT_accounts
| SELECT_account (id : Z)
| DELETE_findings_of (id : Z)
| DELETE_regions_of (id : Z)
| DELETE_account (id : Z)
| INSERT_region (accountId : Z) (region : string)
| SELECT_regions (accountId : Z)
| SELECT_enabled_regions (accountId : Z)
| PREPARE_insert_finding
| RUN_insert_finding (accountId : Z) (f : RegionFinding)
| FINALIZE
| SELECT_findings (conditions : list Column) (params : list SqlValue)
| UPDATE_region_status (id : Z) (enabled : option bool)
| INSERT_finding (accountId : Z) (f : RegionFinding)
| SELECT_count_by_severity (params : list SqlValue)
| SELECT_count_by_service (params : list SqlValue)
| SELECT_findings_of_asset (resourceId : string).

(** A connection: [opened] is whether [DatabaseService.db] is set, [txn] the
    snapshot that ROLLBACK restores while a transaction is open, [log] every
    statement sent so far. *)
Record Database := mkDatabase {
  opened : bool;
  schema : Schema;
  tables : Tables;
  txn : option Tables;
  log : list Stmt
}.

(** What the program does not decide: whether the n-th statement sent on the
    connection fails for a reason outside the data (disk full, I/O error,
    database locked), and what CURRENT_TIMESTAMP is when it runs. *)
Record Env := mkEnv {
  fault : nat -> bool;
  now : nat -> Date
}.

Definition with_tables (d : Database) (t : Tables) : Database :=
  {| opened := opened d; schema := schema d; tables := t; txn := txn d; log := log d |}.

Definition with_txn (d : Database) (s : option Tables) : Database :=
  {| opened := opened d; schema := schema d; tables := tables d; txn := s; log := log d |}.

Definition with_log (d : Database) (l : list Stmt) : Database :=
  {| opened := opened d; schema := schema d; tables := tables d; txn := txn d; log := l |}.

Definition sqlite_error (code msg : string) : Thrown :=
  new_Error (code ++ ": " ++ msg)%string.

Definition io_error : Thrown := sqlite_error "SQLITE_IOERR" "disk I/O error".

Definition constraint_error (what : string) : Thrown :=
  sqlite_error "SQLITE_CONSTRAINT" ("UNIQUE constraint failed: " ++ what)%string.

(** *** Asynchronous code over the connection *)

Definition M (A : Type) : Type := Database -> Outcome A * Database.

Definition ret {A} (a : A) : M A := fun d => (Ok a, d).

Definition throw {A} (e : Thrown) : M A := fun d => (Throw e, d).

Definition bind {A B} (m : M A) (k : A -> M B) : M B :=
  fun d =>
    match m d with
    | (Ok a, d1) => k a d1
    | (Throw e, d1) => (Throw e, d1)
    end.

Definition try_catch {A} (m : M A) (h : Thrown -> M A) : M A :=
  fun d =>
    match m d with
    | (Ok a, d1) => (Ok a, d1)
    | (Throw e, d1) => h e d1
    end.

(** A computation that does not touch the connection *)
Definition lift {A} (o : Outcome A) : M A := fun d => (o, d).

Declare Scope sql_scope.
Delimit Scope sql_scope with sql.
Notation "x <- m ;; k" := (bind m (fun x => k))
  (at level 61, m at next level, right associativity) : sql_scope.
Notation "m ;; k" := (bind m (fun _ => k))
  (at level 61, right associativity) : sql_scope.

Section Statements.

Variable env : Env.

(** Sending one statement: it is logged, fails if the environment says so,
    and otherwise runs [body] with its ordinal (for CURRENT_TIMESTAMP). *)
Definition issue {A} (s : Stmt) (body : nat -> Database -> Outcome A * Database) : M A :=
  fun d =>
    let n := List.length (log d) in
    let d1 := with_log d (log d ++ [s]) in
    if fault env n then (Throw io_error, d1) else body n d1.

(** A statement that reads or writes the tables; a statement that fails
    leaves them as they were. *)
Definition on_tables {A} (s : Stmt) (body : nat -> Schema -> Tables -> Outcome (A * Tables)) : M A :=
  issue s (fun n d =>
    match body n (schema d) (tables d) with
    | Ok (a, t) => (Ok a, with_tables d t)
    | Throw e => (Throw e, d)
    end).

Definition sql_begin : M unit :=
  issue BEGIN_TRANSACTION (fun _ d =>
    match txn d with
    | Some _ => (Throw (sqlite_error "SQLITE_ERROR" "cannot start a transaction within a transaction"), d)
    | None => (Ok tt, with_txn d (Some (tables d)))
    end).

Definition sql_commit : M unit :=
  issue COMMIT (fun _ d =>
    match txn d with
    | Some _ => (Ok tt, with_txn d None)
    | None => (Throw (sqlite_error "SQLITE_ERROR" "cannot commit - no transaction is active"), d)
    end).

(** ROLLBACK is the one statement the environment cannot make fail: SQLite
    restores the journal whatever went wrong before. *)
Definition sql_rollback : M unit :=
  fun d =>
    let d1 := with_log d (log d ++ [ROLLBACK]) in
    match txn d1 with
    | Some snapshot => (Ok tt, with_txn (with_tables d1 snapshot) None)
    | None => (Throw (sqlite_error "SQLITE_ERROR" "cannot rollback - no transaction is active"), d1)
    end.

End Statements.

End Sqlite.
Import Sqlite.
Local Open Scope sql_scope.

(* ================================================================== *)
(** ** [class DatabaseService]  (src/db/service.ts) *)

Module DatabaseService.

Definition empty_tables : Tables :=
  {| aws_accounts := []; aws_regions := []; asset_findings := [];
     seq_accounts := 0; seq_regions := 0; seq_findings := 0 |}.

(** The tables as [DatabaseService.initialize] creates them (service.ts, lines 17-55) *)
Definition service_schema : Schema := {| regions_pair_unique := false |}.

(** The tables as [initializeDatabase] creates them (schema.ts) *)
Definition schema_ts : Schema := {| regions_pair_unique := true |}.

(** [initialize()]: open 'aws-security.db'.  A file that does not exist yet
    gets the tables of service.ts; an existing one keeps its own. *)
Definition initialize (file : option (Schema * Tables)) : Database :=
  match file with
  | None =>
      {| opened := true; schema := service_schema; tables := empty_tables; txn := None; log := [] |}
  | Some (s, t) =>
      {| opened := true; schema := s; tables := t; txn := None; log := [] |}
  end.

(** [getFindings]'s [filters] argument: a field is [None] when absent.  The
    account id is an integer, as [parseInt] and the store produce them. *)
Record Filters := mkFilters {
  flt_accountId : option Z;
  flt_region : option string;
  flt_service : option string;
  flt_severity : option string
}.

Definition no_filters : Filters :=
  {| flt_accountId := None; flt_region := None; flt_service := None; flt_severity := None |}.

(** [column = ?] evaluated on a row of [asset_findings] *)
Definition condition_holds (row : AssetFinding) (cp : Column * SqlValue) : bool :=
  match cp with
  | (Col_account_id, VInt z) => Z.eqb (f_accountId row) z
  | (Col_region, VText s) => String.eqb (f_region row) s
  | (Col_service, VText s) => String.eqb (service (f_fields row)) s
  | (Col_severity, VText s) => String.eqb (severity_text (severity (f_fields row))) s
  | _ => false
  end.

(** [ORDER BY created_at DESC]; rows written in the same second stay in rowid order *)
Fixpoint insert_desc (x : AssetFinding) (l : list AssetFinding) : list AssetFinding :=
  match l with
  | [] => [x]
  | y :: rest => if Z.leb (f_createdAt y) (f_createdAt x) then x :: l else y :: insert_desc x rest
  end.

Definition order_by_created_at_desc (l : list AssetFinding) : list AssetFinding :=
  fold_right insert_desc [] l.

Definition same_pair (accountId : Z) (region : string) (r : AWSRegion) : bool :=
  Z.eqb (r_accountId r) accountId && String.eqb (r_region r) region.

(** [GROUP BY key] with [COUNT( * )]: one entry per distinct key, in the order
    of the keys (as SQLite's sorter emits the groups), with the number of rows
    of the group.  [bump] counts one more row of key [k]. *)
Fixpoint bump (k : string) (groups : list (string * Z)) : list (string * Z) :=
  match groups with
  | [] => [(k, 1)]
  | (k', c) :: rest =>
      match String.compare k k' with
      | Eq => (k', c + 1) :: rest
      | Lt => (k, 1) :: groups
      | Gt => (k', c) :: bump k rest
      end
  end.

Definition group_count (key : AssetFinding -> string) (rows : list AssetFinding)
  : list (string * Z) :=
  fold_left (fun groups row => bump (key row) groups) rows [].

(** What [getFindingStats] returns *)
Record Stats := mkStats {
  totalFindings : Z;
  bySeverity : list (string * Z);
  byService : list (string * Z)
}.

(** [await Promise.all([p, q])] of two statements: both are sent, whatever
    becomes of the first; the call fails if one of them does. *)
Definition both {A B} (p : M A) (q : M B) : M (A * B) :=
  fun d =>
    match p d with
    | (ra, d1) =>
        match q d1 with
        | (rb, d2) =>
            (match ra, rb with
             | Ok a, Ok b => Ok (a, b)
             | Throw e, _ => Throw e
             | Ok _, Throw e => Throw e
             end, d2)
        end
    end.

Section Service.

Variable env : Env.

Definition ensureInitialized : M unit :=
  fun d =>
    if opened d then (Ok tt, d)
    else (Throw (new_Error "Database not initialized. Call initialize() first."), d).

(** *** AWS Account Operations *)

Definition addAccount (accountId accountName accessKeyId secretAccessKey : string)
                      (sessionToken : option string) : M Z :=
  ensureInitialized ;;
  on_tables env (INSERT_account accountId) (fun n _ t =>
    if existsb (fun a => String.eqb (a_accountId a) accountId) (aws_accounts t)
    then Throw (constraint_error "aws_accounts.account_id")
    else
      let lastID := seq_accounts t + 1 in
      Ok (lastID,
          {| aws_accounts := aws_accounts t ++
               [ {| a_id := lastID; a_accountId := accountId; a_accountName := accountName;
                    a_accessKeyId := accessKeyId; a_secretAccessKey := secretAccessKey;
                    a_sessionToken := sessionToken;
                    a_createdAt := now env n; a_updatedAt := now env n |} ];
             aws_regions := aws_regions t;
             asset_findings := asset_findings t;
             seq_accounts := lastID;
             seq_regions := seq_regions t;
             seq_findings := seq_findings t |})).

Definition getAccounts : M (list AWSAccount) :=
  ensureInitialized ;;
  on_tables env SELECT_accounts (fun _ _ t => Ok (aws_accounts t, t)).

Definition getAccount (id : Z) : M (option AWSAccount) :=
  ensureInitialized ;;
  account <- on_tables env (SELECT_account id) (fun _ _ t =>
               Ok (find (fun a => Z.eqb (a_id a) id) (aws_accounts t), t)) ;;
  match account with
  | None => ret None
  | Some row => ret (Some row)
  end.

Definition delete_findings_of (id : Z) : M unit :=
  on_tables env (DELETE_findings_of id) (fun _ _ t =>
    Ok (tt,
        {| aws_accounts := aws_accounts t;
           aws_regions := aws_regions t;
           asset_findings := filter (fun f => negb (Z.eqb (f_accountId f) id)) (asset_findings t);
           seq_accounts := seq_accounts t;
           seq_regions := seq_regions t;
           seq_findings := seq_findings t |})).

Definition delete_regions_of (id : Z) : M unit :=
  on_tables env (DELETE_regions_of id) (fun _ _ t =>
    Ok (tt,
        {| aws_accounts := aws_accounts t;
           aws_regions := filter (fun r => negb (Z.eqb (r_accountId r) id)) (aws_regions t);
           asset_findings := asset_findings t;
           seq_accounts := seq_accounts t;
           seq_regions := seq_regions t;
           seq_findings := seq_findings t |})).

Definition delete_account_row (id : Z) : M unit :=
  on_tables env (DELETE_account id) (fun _ _ t =>
    Ok (tt,
        {| aws_accounts := filter (fun a => negb (Z.eqb (a_id a) id)) (aws_accounts t);
           aws_regions := aws_regions t;
           asset_findings := asset_findings t;
           seq_accounts := seq_accounts t;
           seq_regions := seq_regions t;
           seq_findings := seq_findings t |})).

Definition deleteAccount (id : Z) : M unit :=
  ensureInitialized ;;
  sql_begin env ;;
  try_catch
    ((* Delete findings first (foreign key constraint) *)
     delete_findings_of id ;;
     (* Delete regions (foreign key constraint) *)
     delete_regions_of id ;;
     (* Finally delete the account *)
     delete_account_row id ;;
     sql_commit env)
    (fun error =>
     sql_rollback ;;
     throw error).

(** *** AWS Region Operations *)

Definition addRegion (accountId : Z) (region : string) (enabled : option bool) : M Z :=
  ensureInitialized ;;
  on_tables env (INSERT_region accountId region) (fun n sch t =>
    if regions_pair_unique sch && existsb (same_pair accountId region) (aws_regions t)
    then Throw (constraint_error "aws_regions.account_id, aws_regions.region")
    else
      let lastID := seq_regions t + 1 in
      Ok (lastID,
          {| aws_accounts := aws_accounts t;
             aws_regions := aws_regions t ++
               [ {| r_id := lastID; r_accountId := accountId; r_region := region;
                    r_enabled := enabled;
                    r_createdAt := now env n; r_updatedAt := now env n |} ];
             asset_findings := asset_findings t;
             seq_accounts := seq_accounts t;
             seq_regions := lastID;
             seq_findings := seq_findings t |})).

(** The rows come in the order of their ids, the order in which SQLite scans
    a table.  That is the order of the query when [aws_regions] has no index,
    as with the DDL of service.ts; with the UNIQUE(account_id, region) of
    schema.ts SQLite answers through that index, in the order of the region
    codes, so what is proved of the order of these rows is stated for the
    tables of service.ts. *)
Definition getRegions (accountId : Z) : M (list AWSRegion) :=
  ensureInitialized ;;
  on_tables env (SELECT_regions accountId) (fun _ _ t =>
    Ok (filter (fun r => Z.eqb (r_accountId r) accountId) (aws_regions t), t)).

Definition is_enabled (r : AWSRegion) : bool :=
  match r_enabled r with
  | Some true => true
  | _ => false
  end.

(** In the order of the ids, as [getRegions] *)
Definition getEnabledRegions (accountId : Z) : M (list AWSRegion) :=
  ensureInitialized ;;
  on_tables env (SELECT_enabled_regions accountId) (fun _ _ t =>
    Ok (filter (fun r => Z.eqb (r_accountId r) accountId && is_enabled r) (aws_regions t), t)).

(** *** Asset Finding Operations *)

Definition prepare_insert_finding : M unit :=
  on_tables env PREPARE_insert_finding (fun _ _ t => Ok (tt, t)).

(** [stmt.run(accountId, finding.region, ...)]: one row appended *)
Definition stmt_run (accountId : Z) (f : RegionFinding) : M unit :=
  on_tables env (RUN_insert_finding accountId f) (fun n _ t =>
    let lastID := seq_findings t + 1 in
    Ok (tt,
        {| aws_accounts := aws_accounts t;
           aws_regions := aws_regions t;
           asset_findings := asset_findings t ++
             [ {| f_id := lastID; f_accountId := accountId; f_region := rf_region f;
                  f_fields := rf_finding f;
                  f_createdAt := now env n; f_updatedAt := now env n |} ];
           seq_accounts := seq_accounts t;
           seq_regions := seq_regions t;
           seq_findings := lastID |})).

Definition stmt_finalize : M unit :=
  on_tables env FINALIZE (fun _ _ t => Ok (tt, t)).

(** [for (const finding of findings) { await stmt.run(...) }] *)
Fixpoint run_each (accountId : Z) (findings : list RegionFinding) : M unit :=
  match findings with
  | [] => ret tt
  | finding :: rest => stmt_run accountId finding ;; run_each accountId rest
  end.

Definition storeFindingsForAccount (accountId : Z) (findings : list RegionFinding) : M unit :=
  ensureInitialized ;;
  prepare_insert_finding ;;
  run_each accountId findings ;;
  stmt_finalize.

(** [if (filters.x) { conditions.push(...); params.push(filters.x) }] *)
Definition push_number (c : Column) (v : option Z) (acc : list Column * list SqlValue)
  : list Column * list SqlValue :=
  match v with
  | Some z => if truthy_number z then (fst acc ++ [c], snd acc ++ [VInt z]) else acc
  | None => acc
  end.

Definition push_string (c : Column) (v : option string) (acc : list Column * list SqlValue)
  : list Column * list SqlValue :=
  match v with
  | Some s => if truthy_string s then (fst acc ++ [c], snd acc ++ [VText s]) else acc
  | None => acc
  end.

Definition where_clause (conditions : list Column) (params : list SqlValue)
                        (row : AssetFinding) : bool :=
  if (0 <? List.length conditions)%nat
  then forallb (condition_holds row) (combine conditions params)
  else true.

Definition getFindings (filters : Filters) : M (list AssetFinding) :=
  ensureInitialized ;;
  let acc0 := ([], []) in
  let acc1 := push_number Col_account_id (flt_accountId filters) acc0 in
  let acc2 := push_string Col_region (flt_region filters) acc1 in
  let acc3 := push_string Col_service (flt_service filters) acc2 in
  let acc4 := push_string Col_severity (flt_severity filters) acc3 in
  let conditions := fst acc4 in
  let params := snd acc4 in
  findings <- on_tables env (SELECT_findings conditions params) (fun _ _ t =>
                Ok (order_by_created_at_desc
                      (filter (where_clause conditions params) (asset_findings t)), t)) ;;
  ret (map (fun finding => finding) findings).

(** *** The operations of the service that no scan uses *)

Definition updateRegionStatus (id : Z) (enabled : option bool) : M unit :=
  ensureInitialized ;;
  on_tables env (UPDATE_region_status id enabled) (fun n _ t =>
    Ok (tt,
        {| aws_accounts := aws_accounts t;
           aws_regions :=
             map (fun r =>
                    if Z.eqb (r_id r) id
                    then {| r_id := r_id r; r_accountId := r_accountId r; r_region := r_region r;
                            r_enabled := enabled;
                            r_createdAt := r_createdAt r; r_updatedAt := now env n |}
                    else r)
                 (aws_regions t);
           asset_findings := asset_findings t;
           seq_accounts := seq_accounts t;
           seq_regions := seq_regions t;
           seq_findings := seq_findings t |})).

(** [addFinding(finding)]: the argument carries its account id and region *)
Definition addFinding (accountId : Z) (finding : RegionFinding) : M Z :=
  ensureInitialized ;;
  on_tables env (INSERT_finding accountId finding) (fun n _ t =>
    let lastID := seq_findings t + 1 in
    Ok (lastID,
        {| aws_accounts := aws_accounts t;
           aws_regions := aws_regions t;
           asset_findings := asset_findings t ++
             [ {| f_id := lastID; f_accountId := accountId; f_region := rf_region finding;
                  f_fields := rf_finding finding;
                  f_createdAt := now env n; f_updatedAt := now env n |} ];
           seq_accounts := seq_accounts t;
           seq_regions := seq_regions t;
           seq_findings := lastID |})).

(** The rows [WHERE account_id = ?] keeps; all of them without a parameter *)
Definition stats_rows (params : list SqlValue) (t : Tables) : list AssetFinding :=
  match params with
  | VInt z :: _ => filter (fun row => Z.eqb (f_accountId row) z) (asset_findings t)
  | _ => asset_findings t
  end.

Definition getFindingStats (accountId : option Z) : M Stats :=
  ensureInitialized ;;
  let params :=
    match accountId with
    | Some z => if truthy_number z then [VInt z] else []
    | None => []
    end in
  rows <- both
            (on_tables env (SELECT_count_by_severity params) (fun _ _ t =>
               Ok (group_count (fun row => severity_text (severity (f_fields row)))
                               (stats_rows params t), t)))
            (on_tables env (SELECT_count_by_service params) (fun _ _ t =>
               Ok (group_count (fun row => service (f_fields row)) (stats_rows params t), t))) ;;
  let bySeverity := fst rows in
  let byService := snd rows in
  let totalFindings := fold_left (fun sum curr => sum + snd curr) bySeverity 0 in
  ret {| totalFindings := totalFindings; bySeverity := bySeverity; byService := byService |}.

Definition getFindingsByAsset (resourceId_ : string) : M (list AssetFinding) :=
  ensureInitialized ;;
  on_tables env (SELECT_findings_of_asset resourceId_) (fun _ _ t =>
    Ok (filter (fun row => String.eqb (resourceId (f_fields row)) resourceId_)
               (asset_findings t), t)).

End Service.

End DatabaseService.

(* ================================================================== *)
(** ** The probes  (src/scanner/services/*.ts) *)

(** Every probe has the same shape: it creates a local [findings] array,
    [await]s some [client.send(...)] calls, pushes findings as it goes, and
    ends by returning the array or by throwing.  [P] threads the array; it
    survives a throw, which is what a surrounding [catch] then sees. *)
Module Probe.

Definition P (A : Type) : Type := list Finding -> list Finding * Outcome A.

Definition ret {A} (a : A) : P A := fun fs => (fs, Ok a).

Definition bind {A B} (m : P A) (k : A -> P B) : P B :=
  fun fs =>
    match m fs with
    | (fs1, Ok a) => k a fs1
    | (fs1, Throw e) => (fs1, Throw e)
    end.

(** [findings.push(f)] *)
Definition push (f : Finding) : P unit := fun fs => (fs ++ [f], Ok tt).

(** [await client.send(command)], given what AWS answers *)
Definition send {A} (response : Outcome A) : P A := fun fs => (fs, response).

Definition throw {A} (e : Thrown) : P A := fun fs => (fs, Throw e).

(** [if (c) { p }] *)
Definition when (c : bool) (p : P unit) : P unit := if c then p else ret tt.

(** [try { body } catch (error) { console.error(...) } return findings] *)
Definition swallow {A} (body : P A) : Outcome (list Finding) :=
  Ok (fst (body [])).

Declare Scope probe_scope.
Delimit Scope probe_scope with probe.
Notation "x <- m ;; k" := (bind m (fun x => k))
  (at level 61, m at next level, right associativity) : probe_scope.
Notation "m ;; k" := (bind m (fun _ => k))
  (at level 61, right associativity) : probe_scope.

(** [xs || []] and [xs?.length] for an optional array *)
Definition or_empty {A} (xs : option (list A)) : list A :=
  match xs with
  | Some l => l
  | None => []
  end.

End Probe.

Module GuardDutyScanner.
Import Probe.
Local Open Scope probe_scope.

Record ListDetectorsOutput := { DetectorIds : option (list string) }.

Record ListFindingsOutput := { FindingIds : option (list string) }.

(** [finding.Resource as any]: only [Id] and [Type] are read *)
Record Resource := { Id : option string; Type_ : option string }.

Record GdFinding := {
  Resource_ : option Resource;
  Title : option string;
  Severity_ : option Q;
  FindingType : option string;
  Description : option string
}.

Record GetFindingsOutput := { Findings : option (list GdFinding) }.

(** What GuardDuty answers to the calls of one [scan] *)
Record Api := {
  listDetectors : Outcome ListDetectorsOutput;
  listFindings : string -> Outcome ListFindingsOutput;
  getFindings : string -> list string -> Outcome GetFindingsOutput
}.

Definition not_enabled : Finding :=
  {| resourceId := "account";
     resourceType := "GUARDDUTY_ACCOUNT";
     resourceName := Some "Account GuardDuty";
     service := "GuardDuty";
     severity := HIGH;
     finding := "GuardDuty Not Enabled";
     description := "GuardDuty is not enabled in this region.";
     remediation := "Enable GuardDuty to detect potential security threats and unauthorized behavior." |}.

(** [s && s >= bound] on a number *)
Definition at_least (bound : Q) (s : option Q) : bool :=
  match s with
  | Some q => negb (Qeq_bool q 0) && Qle_bool bound q
  | None => false
  end.

Definition to_finding (f : GdFinding) : Finding :=
  let resourceId := or_default (match Resource_ f with Some r => Id r | None => None end) "unknown" in
  let resourceType :=
    or_default (match Resource_ f with Some r => Type_ r | None => None end) "GUARDDUTY_FINDING" in
  {| resourceId := resourceId;
     resourceType := resourceType;
     resourceName := Some (or_default (Title f) "Unknown Finding");
     service := "GuardDuty";
     severity := if at_least 7 (Severity_ f) then HIGH
                 else if at_least 4 (Severity_ f) then MEDIUM else LOW;
     finding := or_default (FindingType f) "Unknown Finding Type";
     description := or_default (Description f) "No description available";
     remediation := "Review GuardDuty finding details and take appropriate action." |}.

Fixpoint push_all (fs : list Finding) : P unit :=
  match fs with
  | [] => ret tt
  | f :: rest => push f ;; push_all rest
  end.

(** The body of the [try] block (lines 275-337) *)
Definition try_body (api : Api) : P unit :=
  detectors <- send (listDetectors api) ;;
  match or_empty (DetectorIds detectors) with
  | [] => push not_enabled
  | detectorId :: _ =>
      listFindingsResult <- send (listFindings api detectorId) ;;
      match FindingIds listFindingsResult with
      | Some (id :: ids) =>
          guardDutyFindings <- send (getFindings api detectorId (id :: ids)) ;;
          push_all (map to_finding (or_empty (Findings guardDutyFindings)))
      | _ => ret tt
      end
  end.

Definition is_credential_error (error : Thrown) : bool :=
  String.eqb (name error) "UnrecognizedClientException"
  || match httpStatusCode error with
     | Some code => Z.eqb code 403
     | None => false
     end.

(** What the [catch] block (lines 338-352) throws for the error it caught *)
Definition rethrown (error : Thrown) : Thrown :=
  if is_Error error then
    if is_credential_error error then error
    else if includes "credentials" (message error)
         then new_Error ("AWS credentials error: " ++ message error)%string
    else if includes "AccessDenied" (message error)
         then new_Error "Access denied to GuardDuty. Please check IAM permissions."
    else error
  else error.

Definition scan (api : Api) (account : AWSAccount) (region : string) : Outcome (list Finding) :=
  if negb (truthy_string (a_accessKeyId account)) || negb (truthy_string (a_secretAccessKey account))
  then Throw (new_Error "Missing AWS credentials")
  else
    match try_body api [] with
    | (findings, Ok _) => Ok findings
    | (_, Throw error) => Throw (rethrown error)
    end.

End GuardDutyScanner.

Module IAMScanner.
Import Probe.
Local Open Scope probe_scope.

(** [SummaryMap?.AccountMFAEnabled]: the map, and the entry, may be missing *)
Record GetAccountSummaryOutput := { SummaryMap_AccountMFAEnabled : option Z }.

(** [UserId] is read as [user.UserId!]: the code takes it to be present *)
Record User := {
  UserName : option string;
  UserId : string;
  PasswordLastUsed : option Date
}.

Record ListUsersOutput := { Users : option (list User) }.

Record ListAccessKeysOutput := { AccessKeyMetadata : option (list string) }.

(** What IAM answers; [listAccessKeys] is asked once per loop iteration *)
Record Api := {
  getAccountSummary : Outcome GetAccountSummaryOutput;
  listUsers : Outcome ListUsersOutput;
  listAccessKeys : nat -> option string -> Outcome ListAccessKeysOutput
}.

Definition root_mfa : Finding :=
  {| resourceId := "account";
     resourceType := "IAM_ACCOUNT";
     resourceName := Some "Root Account";
     service := "IAM";
     severity := HIGH;
     finding := "Root Account MFA Not Enabled";
     description := "The root account does not have Multi-Factor Authentication (MFA) enabled.";
     remediation := "Enable MFA for the root account to enhance security." |}.

Definition multiple_keys (user : User) : Finding :=
  {| resourceId := UserId user;
     resourceType := "IAM_USER";
     resourceName := UserName user;
     service := "IAM";
     severity := MEDIUM;
     finding := "Multiple Access Keys";
     description := ("User " ++ render (UserName user) ++ " has multiple active access keys.")%string;
     remediation := "Review and remove unnecessary access keys. Each user should typically have at most one active access key." |}.

Definition inactive_user (user : User) : Finding :=
  {| resourceId := UserId user;
     resourceType := "IAM_USER";
     resourceName := UserName user;
     service := "IAM";
     severity := LOW;
     finding := "Inactive User";
     description := ("User " ++ render (UserName user)
                     ++ " has never signed in or has not signed in recently.")%string;
     remediation := "Review and remove inactive users to maintain good security hygiene." |}.

Definition mfa_enabled (s : GetAccountSummaryOutput) : bool :=
  match SummaryMap_AccountMFAEnabled s with
  | Some n => truthy_number n
  | None => false
  end.

(** [for (const user of users.Users || [])], [i] counting the iterations *)
Fixpoint each_user (api : Api) (i : nat) (users : list User) : P unit :=
  match users with
  | [] => ret tt
  | user :: rest =>
      accessKeys <- send (listAccessKeys api i (UserName user)) ;;
      when (1 <? List.length (or_empty (AccessKeyMetadata accessKeys)))%nat
           (push (multiple_keys user)) ;;
      when (match PasswordLastUsed user with None => true | Some _ => false end)
           (push (inactive_user user)) ;;
      each_user api (S i) rest
  end.

Definition try_body (api : Api) : P unit :=
  accountSummary <- send (getAccountSummary api) ;;
  when (negb (mfa_enabled accountSummary)) (push root_mfa) ;;
  users <- send (listUsers api) ;;
  each_user api 0 (or_empty (Users users)).

Definition scan (api : Api) (account : AWSAccount) (region : string) : Outcome (list Finding) :=
  swallow (try_body api).

End IAMScanner.

Module CloudWatchScanner.
Import Probe.
Local Open Scope probe_scope.

Record MetricAlarm := {
  ActionsEnabled : option bool;
  AlarmActions : option (list string);
  OKActions : option (list string);
  InsufficientDataActions : option (list string)
}.

Record DescribeAlarmsOutput := { MetricAlarms : option (list MetricAlarm) }.

Record Api := { describeAlarms : Outcome DescribeAlarmsOutput }.

Definition account_finding (sev : Severity) (title descr remed : string) : Finding :=
  {| resourceId := "account";
     resourceType := "CLOUDWATCH_ACCOUNT";
     resourceName := Some "Account CloudWatch";
     service := "CloudWatch";
     severity := sev;
     finding := title;
     description := descr;
     remediation := remed |}.

(** [!xs || xs.length === 0] *)
Definition none_or_empty {A} (xs : option (list A)) : bool :=
  match xs with
  | Some (_ :: _) => false
  | _ => true
  end.

Definition is_disabled (alarm : MetricAlarm) : bool :=
  match ActionsEnabled alarm with
  | Some false => true
  | _ => false
  end.

Definition without_actions (alarm : MetricAlarm) : bool :=
  none_or_empty (AlarmActions alarm)
  && none_or_empty (OKActions alarm)
  && none_or_empty (InsufficientDataActions alarm).

Definition try_body (api : Api) : P unit :=
  alarms <- send (describeAlarms api) ;;
  match or_empty (MetricAlarms alarms) with
  | [] =>
      push (account_finding MEDIUM "No CloudWatch Alarms"
              "No CloudWatch alarms are configured in this region."
              "Configure CloudWatch alarms to monitor critical metrics and receive notifications.")
  | metricAlarms =>
      let disabledAlarms := filter is_disabled metricAlarms in
      when (0 <? List.length disabledAlarms)%nat
        (push (account_finding LOW "Disabled CloudWatch Alarms"
                 (string_of_nat (List.length disabledAlarms) ++ " CloudWatch alarms are disabled.")%string
                 "Review and enable important CloudWatch alarms or remove unnecessary ones.")) ;;
      let alarmsWithoutActions := filter without_actions metricAlarms in
      when (0 <? List.length alarmsWithoutActions)%nat
        (push (account_finding MEDIUM "Alarms Without Actions"
                 (string_of_nat (List.length alarmsWithoutActions)
                  ++ " CloudWatch alarms have no actions configured.")%string
                 "Configure actions (such as SNS notifications) for alarms to ensure proper notification of events."))
  end.

Definition scan (api : Api) (account : AWSAccount) (region : string) : Outcome (list Finding) :=
  swallow (try_body api).

End CloudWatchScanner.

Module CloudTrailScanner.
Import Probe.
Local Open Scope probe_scope.

Record Trail := {
  Name : option string;
  TrailARN : option string;
  IsMultiRegionTrail : option bool;
  LogFileValidationEnabled : option bool
}.

Record DescribeTrailsOutput := { trailList : option (list Trail) }.

Record GetTrailStatusOutput := { IsLogging : option bool }.

(** [getTrailStatus] is asked once per loop iteration, for the trail's name *)
Record Api := {
  describeTrails : Outcome DescribeTrailsOutput;
  getTrailStatus : nat -> string -> Outcome GetTrailStatusOutput
}.

Definition no_trail : Finding :=
  {| resourceId := "account";
     resourceType := "CLOUDTRAIL_ACCOUNT";
     resourceName := Some "Account CloudTrail";
     service := "CloudTrail";
     severity := HIGH;
     finding := "No CloudTrail Configured";
     description := "No CloudTrail trails are configured in this region.";
     remediation := "Configure CloudTrail to track API activity in your AWS account." |}.

Definition trail_finding (trail : Trail) (trailName : string) (sev : Severity)
                         (title descr remed : string) : Finding :=
  {| resourceId := or_default (TrailARN trail) trailName;
     resourceType := "CLOUDTRAIL_TRAIL";
     resourceName := Some trailName;
     service := "CloudTrail";
     severity := sev;
     finding := title;
     description := descr;
     remediation := remed |}.

(** [!flag] for an optional boolean *)
Definition falsy (flag : option bool) : bool :=
  match flag with
  | Some true => false
  | _ => true
  end.

Definition check_trail (api : Api) (i : nat) (trail : Trail) (trailName : string) : P unit :=
  status <- send (getTrailStatus api i trailName) ;;
  when (falsy (IsLogging status))
    (push (trail_finding trail trailName HIGH "CloudTrail Logging Disabled"
             ("CloudTrail " ++ trailName ++ " is not actively logging.")%string
             "Enable logging for the CloudTrail trail to maintain audit records.")) ;;
  when (falsy (IsMultiRegionTrail trail))
    (push (trail_finding trail trailName MEDIUM "Single-Region Trail"
             ("CloudTrail " ++ trailName ++ " is only logging events for a single region.")%string
             "Consider enabling multi-region logging to capture events across all regions.")) ;;
  when (falsy (LogFileValidationEnabled trail))
    (push (trail_finding trail trailName MEDIUM "Log File Validation Disabled"
             ("CloudTrail " ++ trailName ++ " does not have log file validation enabled.")%string
             "Enable log file validation to ensure log file integrity.")).

(** [for (const trail of trails.trailList)], [i] counting the iterations *)
Fixpoint each_trail (api : Api) (i : nat) (trails : list Trail) : P unit :=
  match trails with
  | [] => ret tt
  | trail :: rest =>
      match Name trail with
      | Some trailName =>
          if truthy_string trailName
          then check_trail api i trail trailName ;; each_trail api (S i) rest
          else each_trail api (S i) rest
      | None => each_trail api (S i) rest
      end
  end.

Definition try_body (api : Api) : P unit :=
  trails <- send (describeTrails api) ;;
  match or_empty (trailList trails) with
  | [] => push no_trail
  | list => each_trail api 0 list
  end.

Definition scan (api : Api) (account : AWSAccount) (region : string) : Outcome (list Finding) :=
  swallow (try_body api).

End CloudTrailScanner.

Module KMSScanner.
Import Probe.
Local Open Scope probe_scope.

Record KeyListEntry := { KeyId : option string }.

Record ListKeysOutput := { Keys : option (list KeyListEntry) }.

Record KeyMetadata := {
  Arn : option string;
  md_KeyId : option string;
  KeyState : option string;
  Origin : option string
}.

Record DescribeKeyOutput := { KeyMetadata_ : option KeyMetadata }.

(** [describeKey] is asked once per loop iteration, for the key's id *)
Record Api := {
  listKeys : Outcome ListKeysOutput;
  describeKey : nat -> string -> Outcome DescribeKeyOutput
}.

Definition no_keys : Finding :=
  {| resourceId := "account";
     resourceType := "KMS_ACCOUNT";
     resourceName := Some "Account KMS";
     service := "KMS";
     severity := LOW;
     finding := "No KMS Keys";
     description := "No KMS keys are configured in this region.";
     remediation := "Consider using KMS keys for encrypting sensitive data." |}.

Definition key_finding (metadata : KeyMetadata) (sev : Severity)
                       (title descr remed : string) : Finding :=
  {| resourceId := or_default (Arn metadata) (or_default (md_KeyId metadata) "unknown");
     resourceType := "KMS_KEY";
     resourceName := Some (or_default (md_KeyId metadata) "unknown");
     service := "KMS";
     severity := sev;
     finding := title;
     description := descr;
     remediation := remed |}.

(** [x === 'literal'] for an optional string *)
Definition is_ (x : option string) (literal : string) : bool :=
  match x with
  | Some s => String.eqb s literal
  | None => false
  end.

Definition check_key (metadata : KeyMetadata) : P unit :=
  when (is_ (KeyState metadata) "Disabled")
    (push (key_finding metadata MEDIUM "Disabled KMS Key"
             ("KMS key " ++ render (md_KeyId metadata) ++ " is disabled.")%string
             "Review and enable important KMS keys or schedule them for deletion if no longer needed.")) ;;
  when (is_ (KeyState metadata) "PendingDeletion")
    (push (key_finding metadata HIGH "KMS Key Pending Deletion"
             ("KMS key " ++ render (md_KeyId metadata) ++ " is scheduled for deletion.")%string
             "Review if the key should be deleted. Cancel deletion if the key is still needed.")) ;;
  when (is_ (Origin metadata) "AWS_KMS")
    (push (key_finding metadata LOW "AWS Managed Key Material"
             ("KMS key " ++ render (md_KeyId metadata) ++ " uses AWS-managed key material.")%string
             "Consider using customer-managed key material for better control over the key lifecycle.")).

(** [for (const key of keys.Keys)], [i] counting the iterations *)
Fixpoint each_key (api : Api) (i : nat) (keys : list KeyListEntry) : P unit :=
  match keys with
  | [] => ret tt
  | key :: rest =>
      match KeyId key with
      | Some keyId =>
          if truthy_string keyId
          then
            keyDetails <- send (describeKey api i keyId) ;;
            match KeyMetadata_ keyDetails with
            | Some metadata => check_key metadata ;; each_key api (S i) rest
            | None => each_key api (S i) rest
            end
          else each_key api (S i) rest
      | None => each_key api (S i) rest
      end
  end.

Definition try_body (api : Api) : P unit :=
  keys <- send (listKeys api) ;;
  match or_empty (Keys keys) with
  | [] => push no_keys
  | list => each_key api 0 list
  end.

Definition scan (api : Api) (account : AWSAccount) (region : string) : Outcome (list Finding) :=
  swallow (try_body api).

End KMSScanner.

Module SecurityHubScanner.
Import Probe.
Local Open Scope probe_scope.

Record Resource := { Id : option string; Type_ : option string }.

Record ShFinding := {
  Resources : option (list Resource);
  Severity_Label : option string;
  Title : option string;
  Description : option string;
  Remediation_Recommendation_Text : option string
}.

Record GetFindingsOutput := { Findings : option (list ShFinding) }.

Record Api := {
  getEnabledStandards : Outcome unit;
  getFindings : Outcome GetFindingsOutput
}.

Definition not_enabled : Finding :=
  {| resourceId := "account";
     resourceType := "SECURITYHUB_ACCOUNT";
     resourceName := Some "Account SecurityHub";
     service := "SecurityHub";
     severity := HIGH;
     finding := "SecurityHub Not Enabled";
     description := "AWS SecurityHub is not enabled in this region.";
     remediation := "Enable SecurityHub to aggregate, organize, and prioritize security findings." |}.

(** [c.toUpperCase()] on the ASCII letters *)
Definition upper_ascii (c : ascii) : ascii :=
  let n := nat_of_ascii c in
  if ((97 <=? n) && (n <=? 122))%nat then ascii_of_nat (n - 32) else c.

Fixpoint toUpperCase (s : string) : string :=
  match s with
  | EmptyString => EmptyString
  | String c rest => String (upper_ascii c) (toUpperCase rest)
  end.

Definition mapSeverity (severityLabel : option string) : Severity :=
  match severityLabel with
  | None => LOW
  | Some label =>
      let l := toUpperCase label in
      if String.eqb l "CRITICAL" || String.eqb l "HIGH" then HIGH
      else if String.eqb l "MEDIUM" then MEDIUM
      else LOW
  end.

(** [s.split('/').pop()]: what follows the last slash *)
Fixpoint last_segment (acc s : string) : string :=
  match s with
  | EmptyString => acc
  | String c rest =>
      if Ascii.eqb c "/" then last_segment "" rest
      else last_segment (acc ++ String c "")%string rest
  end.

Definition to_finding (f : ShFinding) (resource : Resource) : Finding :=
  {| resourceId := or_default (Id resource) "unknown";
     resourceType := or_default (Type_ resource) "SECURITYHUB_FINDING";
     resourceName :=
       Some (or_default (option_map (last_segment "") (Id resource)) "Unknown Resource");
     service := "SecurityHub";
     severity := mapSeverity (Severity_Label f);
     finding := or_default (Title f) "Unknown Finding";
     description := or_default (Description f) "No description available";
     remediation := or_default (Remediation_Recommendation_Text f)
                      "Review SecurityHub finding details and take appropriate action." |}.

(** [for (const finding of securityHubFindings.Findings || [])] *)
Fixpoint each_finding (fs : list ShFinding) : P unit :=
  match fs with
  | [] => ret tt
  | f :: rest =>
      match or_empty (Resources f) with
      | [] => each_finding rest
      | resource :: _ => push (to_finding f resource) ;; each_finding rest
      end
  end.

Definition reports_not_enabled (error : Thrown) : bool :=
  String.eqb (name error) "InvalidAccessException"
  || String.eqb (name error) "ResourceNotFoundException".

Definition try_body (api : Api) : P unit :=
  match getEnabledStandards api with
  | Throw error =>
      if reports_not_enabled error then push not_enabled
      else throw error (* Re-throw if it's a different type of error *)
  | Ok _ =>
      securityHubFindings <- send (getFindings api) ;;
      each_finding (or_empty (Findings securityHubFindings))
  end.

Definition scan (api : Api) (account : AWSAccount) (region : string) : Outcome (list Finding) :=
  swallow (try_body api).

End SecurityHubScanner.

(* ================================================================== *)
(** ** [class SecurityScanner]  (src/scanner/index.ts) *)

Module SecurityScanner.

(** The six scanners held by the orchestrator, as functions of their
    arguments.  What each returns also depends on what AWS answers when it is
    called, so the orchestrator is given one such record per call. *)
Record Scanners := mkScanners {
  iamScanner : AWSAccount -> string -> Outcome (list Finding);
  cloudTrailScanner : AWSAccount -> string -> Outcome (list Finding);
  cloudWatchScanner : AWSAccount -> string -> Outcome (list Finding);
  kmsScanner : AWSAccount -> string -> Outcome (list Finding);
  guardDutyScanner : AWSAccount -> string -> Outcome (list Finding);
  securityHubScanner : AWSAccount -> string -> Outcome (list Finding)
}.

(** The two places of [scanAccount] that call scanners: the GuardDuty call
    that validates the credentials (line 50) and the [Promise.all] (lines 58-83). *)
Inductive CallSite := Canary | FanOut.

(** The behaviour of the scanners at the [i]-th iteration of the region loop,
    at each call site.  Nothing relates the two GuardDuty calls of one
    iteration: AWS may answer them differently. *)
Definition World : Type := nat -> CallSite -> Scanners.

(** What the six services answer to one probe each *)
Record Aws := mkAws {
  iam : IAMScanner.Api;
  cloudTrail : CloudTrailScanner.Api;
  cloudWatch : CloudWatchScanner.Api;
  kms : KMSScanner.Api;
  guardDuty : GuardDutyScanner.Api;
  securityHub : SecurityHubScanner.Api
}.

(** The scanners of the repository, over what AWS answers *)
Definition scanners_of (aws : AWSAccount -> string -> Aws) : Scanners :=
  {| iamScanner := fun account region => IAMScanner.scan (iam (aws account region)) account region;
     cloudTrailScanner := fun account region =>
       CloudTrailScanner.scan (cloudTrail (aws account region)) account region;
     cloudWatchScanner := fun account region =>
       CloudWatchScanner.scan (cloudWatch (aws account region)) account region;
     kmsScanner := fun account region => KMSScanner.scan (kms (aws account region)) account region;
     guardDutyScanner := fun account region =>
       GuardDutyScanner.scan (guardDuty (aws account region)) account region;
     securityHubScanner := fun account region =>
       SecurityHubScanner.scan (securityHub (aws account region)) account region |}.

Definition world_of (cloud : nat -> CallSite -> AWSAccount -> string -> Aws) : World :=
  fun i site => scanners_of (cloud i site).

(** The test of line 52 *)
Definition is_credential_error (error : Thrown) : bool :=
  String.eqb (name error) "UnrecognizedClientException"
  || match httpStatusCode error with
     | Some code => Z.eqb code 403
     | None => false
     end.

Definition invalid_credentials (account : AWSAccount) : Thrown :=
  new_Error ("Invalid AWS credentials for account " ++ a_accountName account)%string.

(** [finding => ({ ...finding, region: region.region })] *)
Definition stamp (region : string) (f : Finding) : RegionFinding :=
  {| rf_region := region; rf_finding := f |}.

(** [scanner.scan(account, region).catch(e => { logger.error(...); return []; })] *)
Definition or_nothing (p : Outcome (list Finding)) : Outcome (list Finding) :=
  catch_ p (fun _ => Ok []).

(** Lines 49-56: the GuardDuty call that validates the credentials *)
Definition canary (world : World) (account : AWSAccount) (i : nat) (region : AWSRegion)
  : Outcome unit :=
  catch_
    (and_then (guardDutyScanner (world i Canary) account (r_region region)) (fun _ => Ok tt))
    (fun error =>
       if is_credential_error error then Throw (invalid_credentials account) else Ok tt).

(** Lines 58-83: the six scanners under [Promise.all] *)
Definition fan_out (world : World) (account : AWSAccount) (i : nat) (region : AWSRegion)
  : Outcome (list (list Finding)) :=
  let s := world i FanOut in
  promise_all
    [ or_nothing (iamScanner s account (r_region region));
      or_nothing (cloudTrailScanner s account (r_region region));
      or_nothing (cloudWatchScanner s account (r_region region));
      or_nothing (kmsScanner s account (r_region region));
      or_nothing (guardDutyScanner s account (r_region region));
      or_nothing (securityHubScanner s account (r_region region)) ].

(** The body of the region loop (lines 46-94): the findings of one region *)
Definition scanRegion (world : World) (account : AWSAccount) (i : nat) (region : AWSRegion)
  : Outcome (list RegionFinding) :=
  catch_
    (and_then (canary world account i region) (fun _ =>
     and_then (fan_out world account i region) (fun findings =>
     Ok (map (stamp (r_region region)) (List.concat findings)))))
    (fun error => Throw error (* Propagate the error to stop the scan *)).

(** [for (const region of enabledRegions)], [i] counting the iterations *)
Fixpoint scanRegions (world : World) (account : AWSAccount) (i : nat)
                     (regions : list AWSRegion) (allFindings : list RegionFinding)
  : Outcome (list RegionFinding) :=
  match regions with
  | [] => Ok allFindings
  | region :: rest =>
      and_then (scanRegion world account i region) (fun regionFindings =>
      scanRegions world account (S i) rest (allFindings ++ regionFindings))
  end.

Definition not_found (accountId : Z) : Thrown :=
  new_Error ("Account " ++ string_of_Z accountId ++ " not found")%string.

(** One element of the array [scanAllAccounts] returns:
    [{ accountId, findings }] or [{ accountId, error }] *)
Record AccountScan := mkAccountScan {
  accountId : Z;
  result : list RegionFinding + string
}.

(** [error instanceof Error ? error.message : 'Unknown error occurred'] *)
Definition error_text (error : Thrown) : string :=
  if is_Error error then message error else "Unknown error occurred".

Section Orchestrator.

Variable env : Env.

Definition scanAccount (world : World) (accountId : Z) : M (list RegionFinding) :=
  account <- DatabaseService.getAccount env accountId ;;
  match account with
  | None => throw (not_found accountId)
  | Some account =>
      enabledRegions <- DatabaseService.getEnabledRegions env accountId ;;
      allFindings <- lift (scanRegions world account 0 enabledRegions []) ;;
      try_catch
        (DatabaseService.storeFindingsForAccount env accountId allFindings)
        (fun error => throw error) ;;
      ret allFindings
  end.

(** [for (const account of accounts)], [k] counting the iterations; the
    scanners may behave differently at each *)
Fixpoint scanEach (worlds : nat -> World) (k : nat) (accounts : list AWSAccount)
                  (allFindings : list AccountScan) : M (list AccountScan) :=
  match accounts with
  | [] => ret allFindings
  | account :: rest =>
      entry <- try_catch
                 (findings <- scanAccount (worlds k) (a_id account) ;;
                  ret {| accountId := a_id account; result := inl findings |})
                 (fun error =>
                  ret {| accountId := a_id account; result := inr (error_text error) |}) ;;
      scanEach worlds (S k) rest (allFindings ++ [entry])
  end.

Definition scanAllAccounts (worlds : nat -> World) : M (list AccountScan) :=
  accounts <- DatabaseService.getAccounts env ;;
  scanEach worlds 0 accounts [].

End Orchestrator.

End SecurityScanner.

(* ================================================================== *)
(** ** The HTTP handlers  (src/api/routes/*.ts) *)

(** A handler is what it does to the store and the response it sends.  Path
    and query parameters that the source passes through [parseInt] are taken
    as the integer parsed; a query parameter is [None] when absent. *)
Module Api.
Import DatabaseService SecurityScanner.

(** The value given to [res.json] *)
Inductive Json :=
| J_error (error : string)
| J_accounts (accounts : list AWSAccount)
| J_id (id : Z)
| J_regions (regions : list AWSRegion)
| J_success
| J_findings (findings : list AssetFinding)
| J_stats (stats : Stats)
| J_scan (results : list RegionFinding)
| J_scan_all (results : list AccountScan)
| J_success_findings (findings : list RegionFinding)
| J_success_all (findings : list AccountScan).

Record Response := mkResponse {
  status : Z;
  json : Json
}.

(** [res.json(v)] *)
Definition respond (v : Json) : M Response := ret {| status := 200; json := v |}.

(** [res.status(code).json(v)] *)
Definition respond_with (code : Z) (v : Json) : M Response :=
  ret {| status := code; json := v |}.

(** The [catch] block every handler ends with *)
Definition internal_error (error : Thrown) : M Response :=
  respond_with 500 (J_error (error_text error)).

Section Handlers.

Variable env : Env.

(** *** accountsRouter *)

(** GET /api/accounts *)
Definition get_accounts : M Response :=
  try_catch
    (accounts <- getAccounts env ;;
     respond (J_accounts accounts))
    internal_error.

(** POST /api/accounts *)
Definition post_account (accountId accountName accessKeyId secretAccessKey : string)
                        (sessionToken : option string) : M Response :=
  try_catch
    (id <- addAccount env accountId accountName accessKeyId secretAccessKey sessionToken ;;
     respond_with 201 (J_id id))
    internal_error.

(** GET /api/accounts/:accountId/regions *)
Definition get_regions (accountId : Z) : M Response :=
  try_catch
    (regions <- getRegions env accountId ;;
     respond (J_regions regions))
    internal_error.

(** POST /api/accounts/:accountId/regions *)
Definition post_region (accountId : Z) (region : string) (enabled : option bool) : M Response :=
  try_catch
    (id <- addRegion env accountId region enabled ;;
     respond_with 201 (J_id id))
    internal_error.

(** PATCH /api/accounts/:accountId/regions/:regionId *)
Definition patch_region (accountId regionId : Z) (enabled : option bool) : M Response :=
  try_catch
    (updateRegionStatus env regionId enabled ;;
     respond_with 200 J_success)
    internal_error.

(** DELETE /api/accounts/:accountId *)
Definition delete_account (accountId : Z) : M Response :=
  try_catch
    (deleteAccount env accountId ;;
     respond_with 200 J_success)
    internal_error.

(** *** findingsRouter *)

(** [if (x) filters.x = x]: a query string is kept when it is not empty *)
Definition kept (x : option string) : option string :=
  match x with
  | Some s => if truthy_string s then Some s else None
  | None => None
  end.

(** GET /api/findings?accountId&region&service&severity *)
Definition get_findings (accountId : option Z) (region service_ severity_ : option string)
  : M Response :=
  try_catch
    (let filters := {| flt_accountId := accountId; flt_region := kept region;
                       flt_service := kept service_; flt_severity := kept severity_ |} in
     findings <- getFindings env filters ;;
     respond (J_findings findings))
    internal_error.

(** GET /api/findings/stats?accountId *)
Definition get_stats (accountId : option Z) : M Response :=
  try_catch
    (stats <- getFindingStats env accountId ;;
     respond (J_stats stats))
    internal_error.

(** GET /api/findings/asset/:resourceId *)
Definition get_asset_findings (resourceId_ : string) : M Response :=
  try_catch
    (findings <- getFindingsByAsset env resourceId_ ;;
     respond (J_findings findings))
    internal_error.

(** POST /api/findings/scan/:accountId *)
Definition post_findings_scan (world : World) (accountId : Z) : M Response :=
  try_catch
    ((* Get account details first *)
     account <- getAccount env accountId ;;
     match account with
     | None => respond_with 404 (J_error "Account not found")
     | Some _ =>
         results <- scanAccount env world accountId ;;
         respond (J_scan results)
     end)
    internal_error.

(** POST /api/findings/scan *)
Definition post_findings_scan_all (worlds : nat -> World) : M Response :=
  try_catch
    (results <- scanAllAccounts env worlds ;;
     respond (J_scan_all results))
    internal_error.

(** *** scannerRouter *)

(** POST /api/scanner/scan/:accountId *)
Definition post_scanner_scan (world : World) (accountId : Z) : M Response :=
  try_catch
    (findings <- scanAccount env world accountId ;;
     respond (J_success_findings findings))
    internal_error.

(** POST /api/scanner/scan-all *)
Definition post_scanner_scan_all (worlds : nat -> World) : M Response :=
  try_catch
    (findings <- scanAllAccounts env worlds ;;
     respond (J_success_all findings))
    internal_error.

End Handlers.

End Api.

(* ================================================================== *)
(** ** Notions used to state the properties *)

Module Notions.
Import DatabaseService SecurityScanner.

(** What a scanner of the fan-out adds to its region: its findings, or
    nothing when it failed *)
Definition contribution (p : Outcome (list Finding)) : list Finding :=
  match p with
  | Ok fs => fs
  | Throw _ => []
  end.

(** The findings of a region whose fan-out ran: the contributions of the six
    scanners, in the order of the [Promise.all] array, each stamped with the
    region code *)
Definition region_findings (s : Scanners) (account : AWSAccount) (region : AWSRegion)
  : list RegionFinding :=
  map (fun f => {| rf_region := r_region region; rf_finding := f |})
      (contribution (iamScanner s account (r_region region))
       ++ contribution (cloudTrailScanner s account (r_region region))
       ++ contribution (cloudWatchScanner s account (r_region region))
       ++ contribution (kmsScanner s account (r_region region))
       ++ contribution (guardDutyScanner s account (r_region region))
       ++ contribution (securityHubScanner s account (r_region region))).

(** Both halves of the key are non-empty: the test of guardduty.ts, line 258 *)
Definition has_credentials (account : AWSAccount) : bool :=
  truthy_string (a_accessKeyId account) && truthy_string (a_secretAccessKey account).

(** The entry of [scanAllAccounts] for an account whose scan ended with [r] *)
Definition entry_of (account : AWSAccount) (r : Outcome (list RegionFinding)) : AccountScan :=
  match r with
  | Ok findings => {| accountId := a_id account; result := inl findings |}
  | Throw error =>
      {| accountId := a_id account;
         result := inr (if is_Error error then message error else "Unknown error occurred") |}
  end.

(** [Scanned env worlds k accounts d entries d']: scanning the accounts one
    after the other from store [d], the [k]-th iteration first, gives
    [entries] and leaves store [d'].  Each account is scanned from the store
    its predecessor left, whether that predecessor succeeded or failed. *)
Inductive Scanned (env : Env) (worlds : nat -> World)
  : nat -> list AWSAccount -> Database -> list AccountScan -> Database -> Prop :=
| Scanned_nil (k : nat) (d : Database) :
    Scanned env worlds k [] d [] d
| Scanned_cons (k : nat) (account : AWSAccount) (rest : list AWSAccount)
               (d d1 d2 : Database) (r : Outcome (list RegionFinding))
               (entries : list AccountScan) :
    scanAccount env (worlds k) (a_id account) d = (r, d1) ->
    Scanned env worlds (S k) rest d1 entries d2 ->
    Scanned env worlds k (account :: rest) d (entry_of account r :: entries) d2.

(** The tables once account [id], its regions and its findings are gone *)
Definition without_account (id : Z) (t : Tables) : Tables :=
  {| aws_accounts := filter (fun a => negb (Z.eqb (a_id a) id)) (aws_accounts t);
     aws_regions := filter (fun r => negb (Z.eqb (r_accountId r) id)) (aws_regions t);
     asset_findings := filter (fun f => negb (Z.eqb (f_accountId f) id)) (asset_findings t);
     seq_accounts := seq_accounts t;
     seq_regions := seq_regions t;
     seq_findings := seq_findings t |}.

(** The rows [storeFindingsForAccount] writes for [findings], the first at
    statement [n] with id [seq + 1] *)
Fixpoint rows_for (env : Env) (accountId : Z) (n : nat) (seq : Z) (findings : list RegionFinding)
  : list AssetFinding :=
  match findings with
  | [] => []
  | f :: rest =>
      {| f_id := seq + 1; f_accountId := accountId; f_region := rf_region f;
         f_fields := rf_finding f; f_createdAt := now env n; f_updatedAt := now env n |}
      :: rows_for env accountId (S n) (seq + 1) rest
  end.

End Notions.

(* ================================================================== *)
(** ** Notions used to state the properties of the store and of the probes *)

Module Invariants.
Import DatabaseService SecurityScanner Notions.

(** The ids of a table are those AUTOINCREMENT handed out: positive, at most
    the sequence counter, and all different *)
Definition ids_in_sequence {A} (key : A -> Z) (seq : Z) (rows : list A) : Prop :=
  NoDup (map key rows) /\ Forall (fun row => 0 < key row <= seq) rows.

(** Tables as the primary keys and [account_id TEXT NOT NULL UNIQUE] of the
    DDL keep them *)
Definition well_formed (t : Tables) : Prop :=
  0 <= seq_accounts t /\ 0 <= seq_regions t /\ 0 <= seq_findings t
  /\ ids_in_sequence a_id (seq_accounts t) (aws_accounts t)
  /\ ids_in_sequence r_id (seq_regions t) (aws_regions t)
  /\ ids_in_sequence f_id (seq_findings t) (asset_findings t)
  /\ NoDup (map a_accountId (aws_accounts t)).

(** A connection whose tables, and whose snapshot if a transaction is open,
    are well formed *)
Definition consistent (d : Database) : Prop :=
  well_formed (tables d)
  /\ forall snapshot, txn d = Some snapshot -> well_formed snapshot.

(** An asynchronous computation that keeps the connection consistent,
    however it ends *)
Definition keeps {A} (m : M A) : Prop :=
  forall d, consistent d -> consistent (snd (m d)).

(** An asynchronous computation that leaves no transaction open, however it
    ends, when none was open *)
Definition closes {A} (m : M A) : Prop :=
  forall d, txn d = None -> txn (snd (m d)) = None.

(** An asynchronous computation that leaves the connection as open as it
    was and only adds statements to the log *)
Definition extends {A} (m : M A) : Prop :=
  forall d, opened (snd (m d)) = opened d /\ exists l, log (snd (m d)) = log d ++ l.

(** No statement sent from the [n]-th on fails *)
Definition quiet_from (env : Env) (n : nat) : Prop :=
  forall m, (n <= m)%nat -> fault env m = false.

(** The rows a filter object selects: a field that is absent, 0 or empty
    selects every row *)
Definition selected_by (f : Filters) (row : AssetFinding) : bool :=
  match flt_accountId f with
  | Some z => if truthy_number z then Z.eqb (f_accountId row) z else true
  | None => true
  end
  && match flt_region f with
     | Some s => if truthy_string s then String.eqb (f_region row) s else true
     | None => true
     end
  && match flt_service f with
     | Some s => if truthy_string s then String.eqb (service (f_fields row)) s else true
     | None => true
     end
  && match flt_severity f with
     | Some s =>
         if truthy_string s then String.eqb (severity_text (severity (f_fields row))) s else true
     | None => true
     end.

(** [a] may come before [b] in a list that is newest first *)
Definition not_older (a b : AssetFinding) : Prop := f_createdAt b <= f_createdAt a.

(** The findings of a list of regions whose credential checks all pass, the
    first region at iteration [i] *)
Fixpoint findings_of_regions (world : World) (account : AWSAccount) (i : nat)
                             (regions : list AWSRegion) : list RegionFinding :=
  match regions with
  | [] => []
  | region :: rest =>
      region_findings (world i FanOut) account region
      ++ findings_of_regions world account (S i) rest
  end.

(** What a stored row says of the finding it was written for *)
Definition as_written (row : AssetFinding) : Z * RegionFinding :=
  (f_accountId row, {| rf_region := f_region row; rf_finding := f_fields row |}).

(** The count a grouped result gives for a key: 0 when the key is absent *)
Fixpoint count_for (k : string) (groups : list (string * Z)) : Z :=
  match groups with
  | [] => 0
  | (k', c) :: rest => if String.eqb k k' then c else count_for k rest
  end.

(** A grouped result lists its keys in strictly increasing order *)
Definition keys_increase (groups : list (string * Z)) : Prop :=
  StronglySorted (fun a b => OrderedTypeEx.String_as_OT.lt (fst a) (fst b)) groups.

(** [bySeverity.reduce((sum, curr) => sum + curr.count, 0)] *)
Definition sum_of_counts (groups : list (string * Z)) : Z :=
  fold_left (fun sum curr => sum + snd curr) groups 0.

(** The rows the statistics of [accountId] are about: those of the account,
    or all of them when no account id, or 0, is given *)
Definition rows_counted (accountId : option Z) (t : Tables) : list AssetFinding :=
  match accountId with
  | Some z =>
      if truthy_number z
      then filter (fun row => Z.eqb (f_accountId row) z) (asset_findings t)
      else asset_findings t
  | None => asset_findings t
  end.

(** The number of rows whose [key] is [k] *)
Definition rows_with (key : AssetFinding -> string) (k : string) (rows : list AssetFinding) : Z :=
  Z.of_nat (List.length (filter (fun row => String.eqb (key row) k) rows)).

(** The six service names *)
Definition service_names : list string :=
  ["IAM"; "CloudTrail"; "CloudWatch"; "KMS"; "GuardDuty"; "SecurityHub"].

(** A trail the CloudTrail probe has nothing to say about, at iteration [i]:
    it has no name, or its status says it is logging and the trail is
    multi-region with log file validation *)
Definition trail_in_order (api : CloudTrailScanner.Api) (i : nat)
                          (trail : CloudTrailScanner.Trail) : Prop :=
  match CloudTrailScanner.Name trail with
  | Some trailName =>
      truthy_string trailName = true ->
      exists status,
        CloudTrailScanner.getTrailStatus api i trailName = Ok status
        /\ CloudTrailScanner.IsLogging status = Some true
        /\ CloudTrailScanner.IsMultiRegionTrail trail = Some true
        /\ CloudTrailScanner.LogFileValidationEnabled trail = Some true
  | None => True
  end.

(** A SecurityHub finding that names at least one resource *)
Definition names_a_resource (f : SecurityHubScanner.ShFinding) : bool :=
  match Probe.or_empty (SecurityHubScanner.Resources f) with
  | [] => false
  | _ :: _ => true
  end.

(** A handler that, whenever it answers, answers with one of [codes], and
    with an error message when the status is 500 *)
Definition replies (codes : list Z) (h : M Api.Response) : Prop :=
  forall d r d',
    h d = (Ok r, d') ->
    In (Api.status r) codes
    /\ (Api.status r = 500 -> exists msg, Api.json r = Api.J_error msg).

(** A handler that always answers, with one of [codes]: its promise is never
    rejected *)
Definition answers (codes : list Z) (h : M Api.Response) : Prop :=
  forall d, exists r d',
    h d = (Ok r, d')
    /\ In (Api.status r) codes
    /\ (Api.status r = 500 -> exists msg, Api.json r = Api.J_error msg).

(** What [ensureInitialized] throws *)
Definition not_initialized : Thrown :=
  new_Error "Database not initialized. Call initialize() first.".

(** A computation that is rejected on a connection that was never opened,
    without a statement being sent *)
Definition refused_before_initialize {A} (m : M A) : Prop :=
  forall d, opened d = false -> m d = (Throw not_initialized, d).

(** A handler that answers 500 with the message of [ensureInitialized] on a
    connection that was never opened *)
Definition answers_not_initialized (h : M Api.Response) : Prop :=
  forall d,
    opened d = false ->
    h d = (Ok {| Api.status := 500;
                 Api.json := Api.J_error "Database not initialized. Call initialize() first." |},
           d).

(** A computation of a probe that only pushes findings satisfying [Q] *)
Definition pushes_only {A} (Q : Finding -> Prop) (m : Probe.P A) : Prop :=
  forall fs, Forall Q fs -> Forall Q (fst (m fs)).

(** A computation of a probe that pushes at most [n] findings *)
Definition pushes_at_most {A} (n : nat) (m : Probe.P A) : Prop :=
  forall fs, (List.length (fst (m fs)) <= List.length fs + n)%nat.

End Invariants.

(* ================================================================== *)
(** ** Concrete stores, accounts and AWS behaviours used in the examples *)

Module Fixtures.
Import DatabaseService SecurityScanner.

(** An environment in which no statement fails *)
Definition quiet : Env :=
  {| fault := fun _ => false; now := fun n => 1700000000 + Z.of_nat n |}.

(** An environment in which exactly the [k]-th statement fails *)
Definition failing_at (k : nat) : Env :=
  {| fault := fun n => Nat.eqb n k; now := fun n => 1700000000 + Z.of_nat n |}.

Definition prod_account : AWSAccount :=
  {| a_id := 1; a_accountId := "111122223333"; a_accountName := "prod";
     a_accessKeyId := "AKIAEXAMPLE"; a_secretAccessKey := "secret";
     a_sessionToken := None; a_createdAt := 1690000000; a_updatedAt := 1690000000 |}.

Definition dev_account : AWSAccount :=
  {| a_id := 2; a_accountId := "444455556666"; a_accountName := "dev";
     a_accessKeyId := "AKIAEXAMPLE2"; a_secretAccessKey := "secret2";
     a_sessionToken := None; a_createdAt := 1690000001; a_updatedAt := 1690000001 |}.

Definition region_row (id accountId : Z) (code : string) : AWSRegion :=
  {| r_id := id; r_accountId := accountId; r_region := code; r_enabled := Some true;
     r_createdAt := 1690000002; r_updatedAt := 1690000002 |}.

Definition sample (svc title : string) : Finding :=
  {| resourceId := "account"; resourceType := "ACCOUNT"; resourceName := None;
     service := svc; severity := HIGH; finding := title;
     description := "d"; remediation := "r" |}.

Definition stored (id accountId : Z) (code : string) (f : Finding) : AssetFinding :=
  {| f_id := id; f_accountId := accountId; f_region := code; f_fields := f;
     f_createdAt := 1690000003; f_updatedAt := 1690000003 |}.

Definition connection (t : Tables) : Database :=
  {| opened := true; schema := service_schema; tables := t; txn := None; log := [] |}.

(** One account, no region *)
Definition db_no_region : Database :=
  connection {| aws_accounts := [prod_account]; aws_regions := []; asset_findings := [];
                seq_accounts := 1; seq_regions := 0; seq_findings := 0 |}.

(** Two accounts; prod has two enabled regions and one stored finding, dev has
    one region and one stored finding *)
Definition db_two_accounts : Database :=
  connection {| aws_accounts := [prod_account; dev_account];
                aws_regions := [region_row 1 1 "us-east-1"; region_row 2 1 "eu-west-1";
                                region_row 3 2 "us-east-1"];
                asset_findings := [stored 1 1 "us-east-1" (sample "IAM" "old");
                                   stored 2 2 "us-east-1" (sample "KMS" "old")];
                seq_accounts := 2; seq_regions := 3; seq_findings := 2 |}.

Definition forbidden : Thrown :=
  {| is_Error := true; name := "AccessDeniedException"; httpStatusCode := Some 403;
     message := "User is not authorized to perform: guardduty:ListDetectors" |}.

Definition throttled : Thrown :=
  {| is_Error := true; name := "ThrottlingException"; httpStatusCode := Some 400;
     message := "Rate exceeded" |}.

(** Scanners that each return one finding of their own *)
Definition healthy : Scanners :=
  {| iamScanner := fun _ _ => Ok [sample "IAM" "i"];
     cloudTrailScanner := fun _ _ => Ok [sample "CloudTrail" "t"];
     cloudWatchScanner := fun _ _ => Ok [sample "CloudWatch" "w"];
     kmsScanner := fun _ _ => Ok [sample "KMS" "k"];
     guardDutyScanner := fun _ _ => Ok [sample "GuardDuty" "g"];
     securityHubScanner := fun _ _ => Ok [sample "SecurityHub" "h"] |}.

Definition with_guardDuty (s : Scanners) (g : Outcome (list Finding)) : Scanners :=
  {| iamScanner := iamScanner s;
     cloudTrailScanner := cloudTrailScanner s;
     cloudWatchScanner := cloudWatchScanner s;
     kmsScanner := kmsScanner s;
     guardDutyScanner := fun _ _ => g;
     securityHubScanner := securityHubScanner s |}.

Definition with_iam (s : Scanners) (g : Outcome (list Finding)) : Scanners :=
  {| iamScanner := fun _ _ => g;
     cloudTrailScanner := cloudTrailScanner s;
     cloudWatchScanner := cloudWatchScanner s;
     kmsScanner := kmsScanner s;
     guardDutyScanner := guardDutyScanner s;
     securityHubScanner := securityHubScanner s |}.

Definition healthy_world : World := fun _ _ => healthy.

(** GuardDuty answers 403 to the credential check of the second region only *)
Definition forbidden_in_second_region : World :=
  fun i site =>
    match i, site with
    | 1%nat, Canary => with_guardDuty healthy (Throw forbidden)
    | _, _ => healthy
    end.


(** IAM fails in the first region *)
Definition iam_down_in_first_region : World :=
  fun i site =>
    match i, site with
    | 0%nat, FanOut => with_iam healthy (Throw throttled)
    | _, _ => healthy
    end.

(** GuardDuty refuses the first call of the probe with status 403 *)
Definition guardDuty_forbidden : GuardDutyScanner.Api :=
  {| GuardDutyScanner.listDetectors := Throw forbidden;
     GuardDutyScanner.listFindings := fun _ => Throw forbidden;
     GuardDutyScanner.getFindings := fun _ _ => Throw forbidden |}.

(** GuardDuty has a detector, but listing its findings is throttled *)
Definition guardDuty_throttled : GuardDutyScanner.Api :=
  {| GuardDutyScanner.listDetectors :=
       Ok {| GuardDutyScanner.DetectorIds := Some ["12abc34d567e8fa901bc2d34e56789f0"] |};
     GuardDutyScanner.listFindings := fun _ => Throw throttled;
     GuardDutyScanner.getFindings := fun _ _ => Throw throttled |}.

(** IAM reports a root account without MFA, then fails to list the users *)
Definition iam_users_unavailable : IAMScanner.Api :=
  {| IAMScanner.getAccountSummary :=
       Ok {| IAMScanner.SummaryMap_AccountMFAEnabled := Some 0 |};
     IAMScanner.listUsers := Throw throttled;
     IAMScanner.listAccessKeys := fun _ _ => Throw throttled |}.

(** Two trails, both multi-region with validated log files *)
Definition trail (trailName : string) : CloudTrailScanner.Trail :=
  {| CloudTrailScanner.Name := Some trailName;
     CloudTrailScanner.TrailARN :=
       Some ("arn:aws:cloudtrail:us-east-1:111122223333:trail/" ++ trailName)%string;
     CloudTrailScanner.IsMultiRegionTrail := Some true;
     CloudTrailScanner.LogFileValidationEnabled := Some true |}.

Definition two_trails : list CloudTrailScanner.Trail := [trail "main"; trail "audit"].

(** CloudTrail says the first trail is not logging and is throttled when
    asked for the status of the second *)
Definition cloudTrail_second_status_unavailable : CloudTrailScanner.Api :=
  {| CloudTrailScanner.describeTrails := Ok {| CloudTrailScanner.trailList := Some two_trails |};
     CloudTrailScanner.getTrailStatus := fun i _ =>
       match i with
       | 0%nat => Ok {| CloudTrailScanner.IsLogging := Some false |}
       | _ => Throw throttled
       end |}.

Definition two_keys : list KMSScanner.KeyListEntry :=
  [ {| KMSScanner.KeyId := Some "k-1" |}; {| KMSScanner.KeyId := Some "k-2" |} ].

(** KMS describes the first key, which is disabled and has imported key
    material, and is throttled when asked for the second *)
Definition kms_second_key_unavailable : KMSScanner.Api :=
  {| KMSScanner.listKeys := Ok {| KMSScanner.Keys := Some two_keys |};
     KMSScanner.describeKey := fun i _ =>
       match i with
       | 0%nat =>
           Ok {| KMSScanner.KeyMetadata_ :=
                   Some {| KMSScanner.Arn := Some "arn:aws:kms:us-east-1:111122223333:key/k-1";
                           KMSScanner.md_KeyId := Some "k-1";
                           KMSScanner.KeyState := Some "Disabled";
                           KMSScanner.Origin := Some "EXTERNAL" |} |}
       | _ => Throw throttled
       end |}.

End Fixtures.

(* ================================================================== *)
(** ** Properties *)

Import DatabaseService SecurityScanner Notions.

(** *** The store *)

Section StoreFacts.

Variable env : Env.

Lemma ensureInitialized_opened (d : Database) :
  opened d = true -> ensureInitialized d = (Ok tt, d).
Proof.
  intros H. unfold ensureInitialized. now rewrite H.
Qed.

Lemma ensureInitialized_closed (d : Database) :
  opened d = false ->
  ensureInitialized d
  = (Throw (new_Error "Database not initialized. Call initialize() first."), d).
Proof.
  intros H. unfold ensureInitialized. now rewrite H.
Qed.

(** A statement the environment lets through runs its body. *)
Lemma on_tables_runs {A} (s : Stmt) (body : nat -> Schema -> Tables -> Outcome (A * Tables))
      (d : Database) :
  fault env (List.length (log d)) = false ->
  on_tables env s body d
  = match body (List.length (log d)) (schema d) (tables d) with
    | Ok (a, t) => (Ok a, with_tables (with_log d (log d ++ [s])) t)
    | Throw e => (Throw e, with_log d (log d ++ [s]))
    end.
Proof.
  intros H. unfold on_tables, issue. rewrite H. cbn.
  destruct (body _ _ _) as [[a t]|e]; reflexivity.
Qed.

(** A statement the environment makes fail is logged and changes nothing else. *)
Lemma on_tables_faults {A} (s : Stmt) (body : nat -> Schema -> Tables -> Outcome (A * Tables))
      (d : Database) :
  fault env (List.length (log d)) = true ->
  on_tables env s body d = (Throw io_error, with_log d (log d ++ [s])).
Proof.
  intros H. unfold on_tables, issue. now rewrite H.
Qed.

(** Whatever happens, a statement leaves [opened], [schema] and [txn] alone
    and appends exactly itself to the log. *)
Lemma on_tables_frame {A} (s : Stmt) (body : nat -> Schema -> Tables -> Outcome (A * Tables))
      (d : Database) :
  let d' := snd (on_tables env s body d) in
  opened d' = opened d /\ schema d' = schema d /\ txn d' = txn d /\ log d' = log d ++ [s].
Proof.
  unfold on_tables, issue. destruct (fault env _); cbn.
  - auto.
  - destruct (body _ _ _) as [[a t]|e]; cbn; auto.
Qed.

End StoreFacts.

(** **** getFindings *)

(** What [getFindings] sends for a filter on a non-zero account id alone *)
Lemma getFindings_by_account (env : Env) (id : Z) (d : Database) :
  id <> 0 ->
  opened d = true ->
  fault env (List.length (log d)) = false ->
  getFindings env {| flt_accountId := Some id; flt_region := None;
                     flt_service := None; flt_severity := None |} d
  = (Ok (order_by_created_at_desc
           (filter (fun row => Z.eqb (f_accountId row) id) (asset_findings (tables d)))),
     with_log d (log d ++ [SELECT_findings [Col_account_id] [VInt id]])).
Proof.
  intros Hid Hopen Hfault.
  unfold getFindings, Sqlite.bind, push_number, push_string, truthy_number.
  rewrite ensureInitialized_opened by assumption.
  cbn [flt_accountId flt_region flt_service flt_severity fst snd].
  destruct (Z.eqb_spec id 0) as [E|_]; [contradiction|].
  cbn [negb fst snd app].
  rewrite on_tables_runs by assumption.
  unfold ret, with_tables, with_log. cbn. rewrite map_id.
  do 3 f_equal. apply filter_ext. intros row.
  unfold where_clause. cbn. apply andb_true_r.
Qed.

(** C10.  In [getFindings] a falsy filter value is the same as no value:
    account id 0 and an empty region, service or severity add no condition,
    so the call returns what it returns with that field omitted (and, with
    all four falsy, what it returns without any filter). *)
Theorem getFindings_falsy_filter_is_absent (env : Env) (f : Filters) (d : Database) :
  getFindings env {| flt_accountId := Some 0; flt_region := flt_region f;
                     flt_service := flt_service f; flt_severity := flt_severity f |} d
  = getFindings env {| flt_accountId := None; flt_region := flt_region f;
                       flt_service := flt_service f; flt_severity := flt_severity f |} d
  /\ getFindings env {| flt_accountId := flt_accountId f; flt_region := Some "";
                        flt_service := flt_service f; flt_severity := flt_severity f |} d
     = getFindings env {| flt_accountId := flt_accountId f; flt_region := None;
                          flt_service := flt_service f; flt_severity := flt_severity f |} d
  /\ getFindings env {| flt_accountId := flt_accountId f; flt_region := flt_region f;
                        flt_service := Some ""; flt_severity := flt_severity f |} d
     = getFindings env {| flt_accountId := flt_accountId f; flt_region := flt_region f;
                          flt_service := None; flt_severity := flt_severity f |} d
  /\ getFindings env {| flt_accountId := flt_accountId f; flt_region := flt_region f;
                        flt_service := flt_service f; flt_severity := Some "" |} d
     = getFindings env {| flt_accountId := flt_accountId f; flt_region := flt_region f;
                          flt_service := flt_service f; flt_severity := None |} d
  /\ getFindings env {| flt_accountId := Some 0; flt_region := Some "";
                        flt_service := Some ""; flt_severity := Some "" |} d
     = getFindings env no_filters d.
Proof.
  repeat split; reflexivity.
Qed.

(** *** The region loop *)

Section RegionLoop.

Variable world : World.
Variable account : AWSAccount.

(** No member of the [Promise.all] array rejects, so the array is always
    produced: one list per scanner, empty for a scanner that failed. *)
Lemma fan_out_total (i : nat) (region : AWSRegion) :
  fan_out world account i region
  = Ok [ contribution (iamScanner (world i FanOut) account (r_region region));
         contribution (cloudTrailScanner (world i FanOut) account (r_region region));
         contribution (cloudWatchScanner (world i FanOut) account (r_region region));
         contribution (kmsScanner (world i FanOut) account (r_region region));
         contribution (guardDutyScanner (world i FanOut) account (r_region region));
         contribution (securityHubScanner (world i FanOut) account (r_region region)) ].
Proof.
  unfold fan_out, or_nothing, catch_, contribution.
  destruct (iamScanner _ _ _), (cloudTrailScanner _ _ _), (cloudWatchScanner _ _ _),
           (kmsScanner _ _ _), (guardDutyScanner _ _ _), (securityHubScanner _ _ _);
    reflexivity.
Qed.

(** The credential check has two outcomes only. *)
Lemma canary_cases (i : nat) (region : AWSRegion) :
  canary world account i region = Ok tt
  \/ canary world account i region = Throw (invalid_credentials account).
Proof.
  unfold canary, catch_, and_then.
  destruct (guardDutyScanner _ _ _) as [fs|error]; [now left|].
  destruct (is_credential_error error); [now right | now left].
Qed.


Lemma canary_aborts_on_credential_error (i : nat) (region : AWSRegion) (error : Thrown) :
  guardDutyScanner (world i Canary) account (r_region region) = Throw error ->
  is_credential_error error = true ->
  canary world account i region = Throw (invalid_credentials account).
Proof.
  intros Hgd Hcls. unfold canary, catch_, and_then. now rewrite Hgd, Hcls.
Qed.

(** Once the credential check is passed the region cannot fail. *)
Lemma scanRegion_after_canary (i : nat) (region : AWSRegion) :
  canary world account i region = Ok tt ->
  scanRegion world account i region
  = Ok (region_findings (world i FanOut) account region).
Proof.
  intros Hc. unfold scanRegion. rewrite Hc, fan_out_total.
  unfold region_findings. cbn. now rewrite app_nil_r.
Qed.

Lemma scanRegion_aborted (i : nat) (region : AWSRegion) :
  canary world account i region = Throw (invalid_credentials account) ->
  scanRegion world account i region = Throw (invalid_credentials account).
Proof.
  intros Hc. unfold scanRegion. now rewrite Hc.
Qed.

(** The only error a region can end with is the credential error. *)
Lemma scanRegion_cases (i : nat) (region : AWSRegion) :
  scanRegion world account i region = Ok (region_findings (world i FanOut) account region)
  \/ scanRegion world account i region = Throw (invalid_credentials account).
Proof.
  destruct (canary_cases i region) as [H|H].
  - left. now apply scanRegion_after_canary.
  - right. now apply scanRegion_aborted.
Qed.

Lemma scanRegions_step (i : nat) (region : AWSRegion) (rest : list AWSRegion)
      (allFindings : list RegionFinding) :
  canary world account i region = Ok tt ->
  scanRegions world account i (region :: rest) allFindings
  = scanRegions world account (S i) rest
      (allFindings ++ region_findings (world i FanOut) account region).
Proof.
  intros Hc. cbn [scanRegions]. now rewrite scanRegion_after_canary.
Qed.

(** The loop ends with all the findings or with the credential error. *)
Lemma scanRegions_cases (regions : list AWSRegion) :
  forall (i : nat) (allFindings : list RegionFinding),
    (exists fs, scanRegions world account i regions allFindings = Ok fs)
    \/ scanRegions world account i regions allFindings = Throw (invalid_credentials account).
Proof.
  induction regions as [|region rest IH]; intros i allFindings.
  - left. now exists allFindings.
  - cbn [scanRegions].
    destruct (scanRegion_cases i region) as [H|H]; rewrite H; cbn [and_then].
    + apply IH.
    + now right.
Qed.

(** A credential error at the check of any region of the list ends the loop
    with the credential error, whatever the regions before it returned. *)
Lemma scanRegions_credential_abort (regions : list AWSRegion) :
  forall (i j : nat) (region : AWSRegion) (error : Thrown) (allFindings : list RegionFinding),
    nth_error regions j = Some region ->
    guardDutyScanner (world (i + j)%nat Canary) account (r_region region) = Throw error ->
    is_credential_error error = true ->
    scanRegions world account i regions allFindings = Throw (invalid_credentials account).
Proof.
  induction regions as [|head rest IH]; intros i j region error allFindings Hnth Hgd Hcls.
  - destruct j; discriminate.
  - cbn [scanRegions]. destruct j as [|j].
    + cbn in Hnth. injection Hnth as ->. rewrite Nat.add_0_r in Hgd.
      rewrite scanRegion_aborted; [reflexivity|].
      eapply canary_aborts_on_credential_error; eassumption.
    + cbn in Hnth.
      destruct (scanRegion_cases i head) as [H|H]; rewrite H; cbn [and_then]; [|reflexivity].
      apply (IH (S i) j region error); try assumption.
      now rewrite <- Nat.add_succ_comm in Hgd.
Qed.

End RegionLoop.

(** *** Reads and writes of one account scan *)

Section AccountScanFacts.

Variable env : Env.

Lemma getAccount_runs (id : Z) (d : Database) :
  opened d = true ->
  fault env (List.length (log d)) = false ->
  getAccount env id d
  = (Ok (find (fun a => Z.eqb (a_id a) id) (aws_accounts (tables d))),
     with_log d (log d ++ [SELECT_account id])).
Proof.
  intros Hopen Hfault. unfold getAccount, Sqlite.bind.
  rewrite ensureInitialized_opened, on_tables_runs by assumption.
  destruct (find _ _); reflexivity.
Qed.

Lemma getEnabledRegions_runs (id : Z) (d : Database) :
  opened d = true ->
  fault env (List.length (log d)) = false ->
  getEnabledRegions env id d
  = (Ok (filter (fun r => Z.eqb (r_accountId r) id && is_enabled r) (aws_regions (tables d))),
     with_log d (log d ++ [SELECT_enabled_regions id])).
Proof.
  intros Hopen Hfault. unfold getEnabledRegions, Sqlite.bind.
  now rewrite ensureInitialized_opened, on_tables_runs by assumption.
Qed.

Lemma getAccounts_runs (d : Database) :
  opened d = true ->
  fault env (List.length (log d)) = false ->
  getAccounts env d = (Ok (aws_accounts (tables d)), with_log d (log d ++ [SELECT_accounts])).
Proof.
  intros Hopen Hfault. unfold getAccounts, Sqlite.bind.
  now rewrite ensureInitialized_opened, on_tables_runs by assumption.
Qed.

(** [scanAccount] once its two reads went through: the region loop decides,
    and only a completed loop reaches [storeFindingsForAccount]. *)
Lemma scanAccount_after_reads (world : World) (id : Z) (d : Database) (account : AWSAccount) :
  opened d = true ->
  fault env (List.length (log d)) = false ->
  fault env (S (List.length (log d))) = false ->
  find (fun a => Z.eqb (a_id a) id) (aws_accounts (tables d)) = Some account ->
  let d2 := with_log d (log d ++ [SELECT_account id; SELECT_enabled_regions id]) in
  let enabledRegions :=
    filter (fun r => Z.eqb (r_accountId r) id && is_enabled r) (aws_regions (tables d)) in
  scanAccount env world id d
  = match scanRegions world account 0 enabledRegions [] with
    | Throw e => (Throw e, d2)
    | Ok allFindings =>
        match storeFindingsForAccount env id allFindings d2 with
        | (Ok _, d3) => (Ok allFindings, d3)
        | (Throw e, d3) => (Throw e, d3)
        end
    end.
Proof.
  intros Hopen Hf0 Hf1 Hfind d2 enabledRegions.
  unfold scanAccount, Sqlite.bind at 1.
  rewrite getAccount_runs, Hfind by assumption.
  unfold Sqlite.bind at 1.
  rewrite getEnabledRegions_runs; cbn [opened with_log log tables]; try assumption.
  2:{ rewrite length_app. cbn. now rewrite Nat.add_1_r. }
  assert (Hd2 : with_log (with_log d (log d ++ [SELECT_account id]))
                  ((log d ++ [SELECT_account id]) ++ [SELECT_enabled_regions id]) = d2).
  { unfold d2, with_log. cbn. now rewrite <- app_assoc. }
  rewrite Hd2. fold enabledRegions.
  unfold Sqlite.bind, lift, try_catch, throw, ret.
  destruct (scanRegions world account 0 enabledRegions []) as [allFindings|e]; [|reflexivity].
  destruct (storeFindingsForAccount env id allFindings d2) as [[u|e] d3]; reflexivity.
Qed.

(** The bulk insert of an empty list sends PREPARE and FINALIZE and no INSERT. *)
Lemma storeFindingsForAccount_empty (id : Z) (d : Database) :
  opened d = true ->
  fault env (List.length (log d)) = false ->
  fault env (S (List.length (log d))) = false ->
  storeFindingsForAccount env id [] d
  = (Ok tt, with_log d (log d ++ [PREPARE_insert_finding; FINALIZE])).
Proof.
  intros Hopen Hf0 Hf1.
  unfold storeFindingsForAccount, Sqlite.bind, prepare_insert_finding, stmt_finalize.
  rewrite ensureInitialized_opened, on_tables_runs by assumption.
  cbn [run_each ret].
  rewrite on_tables_runs.
  2:{ cbn. rewrite length_app. cbn. now rewrite Nat.add_1_r. }
  unfold with_tables, with_log. cbn. now rewrite <- app_assoc.
Qed.

End AccountScanFacts.

(** *** The orchestrator: one account *)

(** C9.  For an existing account without enabled region, on an open
    connection whose next four statements go through, [scanAccount] returns
    the empty list; it sends the two reads, then PREPARE and FINALIZE of the
    bulk insert with no INSERT in between, and the tables are unchanged. *)
Theorem scanAccount_without_enabled_region
        (env : Env) (world : World) (id : Z) (d : Database) (account : AWSAccount) :
  opened d = true ->
  find (fun a => Z.eqb (a_id a) id) (aws_accounts (tables d)) = Some account ->
  filter (fun r => Z.eqb (r_accountId r) id && is_enabled r) (aws_regions (tables d)) = [] ->
  (forall n, (List.length (log d) <= n < List.length (log d) + 4)%nat -> fault env n = false) ->
  scanAccount env world id d
  = (Ok [],
     with_log d (log d ++ [SELECT_account id; SELECT_enabled_regions id;
                           PREPARE_insert_finding; FINALIZE]))
  /\ tables (snd (scanAccount env world id d)) = tables d.
Proof.
  intros Hopen Hfind Hnone Hquiet.
  assert (E : scanAccount env world id d
              = (Ok [],
                 with_log d (log d ++ [SELECT_account id; SELECT_enabled_regions id;
                                       PREPARE_insert_finding; FINALIZE]))).
  { rewrite (scanAccount_after_reads env world id d account); try assumption;
      try (apply Hquiet; lia).
    rewrite Hnone. cbn [scanRegions].
    rewrite storeFindingsForAccount_empty; cbn [opened with_log log]; try assumption.
    all: try (apply Hquiet; rewrite length_app; cbn; lia).
    unfold with_log. cbn. now rewrite <- app_assoc. }
  split; [exact E | now rewrite E].
Qed.

Lemma scanAccount_without_enabled_region_witness :
  scanAccount Fixtures.quiet Fixtures.healthy_world 1 Fixtures.db_no_region
  = (Ok [],
     with_log Fixtures.db_no_region
       [SELECT_account 1; SELECT_enabled_regions 1; PREPARE_insert_finding; FINALIZE])
  /\ tables (snd (scanAccount Fixtures.quiet Fixtures.healthy_world 1 Fixtures.db_no_region))
     = tables Fixtures.db_no_region.
Proof.
  apply (scanAccount_without_enabled_region
           Fixtures.quiet Fixtures.healthy_world 1 Fixtures.db_no_region Fixtures.prod_account);
    reflexivity.
Defined.

(** C1.  If the GuardDuty call that validates the credentials throws an error
    named 'UnrecognizedClientException' or carrying HTTP status 403 for any
    enabled region of the account, [scanAccount] ends with the error
    "Invalid AWS credentials for account <name>", whatever the other regions
    and scanners return.  The connection has then seen the two reads only:
    [storeFindingsForAccount] was not called and the tables are unchanged. *)
Theorem scanAccount_credential_error_aborts
        (env : Env) (world : World) (id : Z) (d : Database) (account : AWSAccount)
        (j : nat) (region : AWSRegion) (error : Thrown) :
  opened d = true ->
  fault env (List.length (log d)) = false ->
  fault env (S (List.length (log d))) = false ->
  find (fun a => Z.eqb (a_id a) id) (aws_accounts (tables d)) = Some account ->
  nth_error (filter (fun r => Z.eqb (r_accountId r) id && is_enabled r) (aws_regions (tables d))) j
  = Some region ->
  guardDutyScanner (world j Canary) account (r_region region) = Throw error ->
  is_credential_error error = true ->
  scanAccount env world id d
  = (Throw (invalid_credentials account),
     with_log d (log d ++ [SELECT_account id; SELECT_enabled_regions id])).
Proof.
  intros Hopen Hf0 Hf1 Hfind Hnth Hgd Hcls.
  rewrite (scanAccount_after_reads env world id d account) by assumption.
  now rewrite (scanRegions_credential_abort world account _ 0 j region error []).
Qed.

Lemma scanAccount_credential_error_aborts_witness :
  scanAccount Fixtures.quiet Fixtures.forbidden_in_second_region 1 Fixtures.db_two_accounts
  = (Throw (new_Error "Invalid AWS credentials for account prod"),
     with_log Fixtures.db_two_accounts [SELECT_account 1; SELECT_enabled_regions 1]).
Proof.
  apply (scanAccount_credential_error_aborts
           Fixtures.quiet Fixtures.forbidden_in_second_region 1 Fixtures.db_two_accounts
           Fixtures.prod_account 1 (Fixtures.region_row 2 1 "eu-west-1") Fixtures.forbidden);
    reflexivity.
Defined.





(** *** The orchestrator: all accounts *)

Section AllAccounts.

Variable env : Env.
Variable worlds : nat -> World.

(** One iteration of the account loop: the scan of the account, then the
    rest of the loop from the store that scan left, with one more entry. *)
Lemma scanEach_step (k : nat) (account : AWSAccount) (rest : list AWSAccount)
      (allFindings : list AccountScan) (d : Database) :
  scanEach env worlds k (account :: rest) allFindings d
  = scanEach env worlds (S k) rest
      (allFindings ++ [entry_of account (fst (scanAccount env (worlds k) (a_id account) d))])
      (snd (scanAccount env (worlds k) (a_id account) d)).
Proof.
  cbn [scanEach]. unfold Sqlite.bind at 1. unfold try_catch, Sqlite.bind at 1.
  destruct (scanAccount env (worlds k) (a_id account) d) as [[findings|error] d1];
    reflexivity.
Qed.

(** The account loop never fails and adds one entry per account, in order. *)
Lemma scanEach_total (accounts : list AWSAccount) :
  forall (k : nat) (allFindings : list AccountScan) (d : Database),
  exists entries d',
    scanEach env worlds k accounts allFindings d = (Ok (allFindings ++ entries), d')
    /\ Scanned env worlds k accounts d entries d'
    /\ map accountId entries = map a_id accounts.
Proof.
  induction accounts as [|account rest IH]; intros k allFindings d.
  - exists [], d. rewrite app_nil_r. repeat split. constructor.
  - rewrite scanEach_step.
    destruct (scanAccount env (worlds k) (a_id account) d) as [r d1] eqn:Hscan.
    cbn [fst snd].
    destruct (IH (S k) (allFindings ++ [entry_of account r]) d1) as (entries & d' & Hrun & Hsc & Hids).
    exists (entry_of account r :: entries), d'. repeat split.
    + rewrite Hrun. now rewrite <- app_assoc.
    + econstructor; eassumption.
    + cbn [map]. rewrite Hids. destruct r; reflexivity.
Qed.

(** The account list is read outside every [try]: if that read fails, so
    does the call. *)
Lemma scanAllAccounts_without_account_list (d d1 : Database) (e : Thrown) :
  getAccounts env d = (Throw e, d1) ->
  scanAllAccounts env worlds d = (Throw e, d1).
Proof.
  intros H. unfold scanAllAccounts, Sqlite.bind. now rewrite H.
Qed.

(** The entry of the [j]-th account of the loop is the outcome of its scan *)
Lemma Scanned_nth (k : nat) (accounts : list AWSAccount) (d d' : Database)
      (entries : list AccountScan) :
  Scanned env worlds k accounts d entries d' ->
  forall j account,
    nth_error accounts j = Some account ->
    exists d0 r d1,
      scanAccount env (worlds (k + j)) (a_id account) d0 = (r, d1)
      /\ nth_error entries j = Some (entry_of account r).
Proof.
  induction 1 as [k d | k account0 rest d d1 d2 r entries Hscan Hrest IH];
    intros j account Hnth.
  - now destruct j.
  - destruct j as [|j]; cbn in Hnth.
    + injection Hnth as <-. exists d, r, d1. rewrite Nat.add_0_r. now split.
    + destruct (IH j account Hnth) as (d0 & r0 & d0' & Hrun & Hentry).
      exists d0, r0, d0'. rewrite <- Nat.add_succ_comm. now split.
Qed.

End AllAccounts.

(** C4, amended.  [scanAllAccounts] fails exactly when the read of the stored
    accounts fails: it then throws the error of that read, and no account is
    scanned.  Once the accounts are read it returns and never throws: its
    array has one entry per account, in the order of the accounts; the entry
    of an account holds the findings its scan returned, or the message of the
    error that ended it ('Unknown error occurred' for a thrown value that is
    not an Error); and every account is scanned, from the store the scan
    before it left, whether that scan failed or not. *)
Theorem scanAllAccounts_one_entry_per_account
        (env : Env) (worlds : nat -> World) (d : Database) :
  (forall e d1,
      getAccounts env d = (Throw e, d1) ->
      scanAllAccounts env worlds d = (Throw e, d1))
  /\ (forall accounts d1,
        getAccounts env d = (Ok accounts, d1) ->
        exists entries d',
          scanAllAccounts env worlds d = (Ok entries, d')
          /\ map accountId entries = map a_id accounts
          /\ List.length entries = List.length accounts
          /\ Scanned env worlds 0 accounts d1 entries d'
          /\ (forall k account,
                nth_error accounts k = Some account ->
                exists d0 r d0',
                  scanAccount env (worlds k) (a_id account) d0 = (r, d0')
                  /\ nth_error entries k
                     = Some {| accountId := a_id account;
                               result :=
                                 match r with
                                 | Ok findings => inl findings
                                 | Throw error =>
                                     inr (if is_Error error then message error
                                          else "Unknown error occurred")
                                 end |})).
Proof.
  split.
  - intros e d1 Hread. unfold scanAllAccounts, Sqlite.bind. now rewrite Hread.
  - intros accounts d1 Hread.
    destruct (scanEach_total env worlds accounts 0 [] d1) as (entries & d' & Hrun & Hsc & Hids).
    exists entries, d'. split; [|split; [|split; [|split]]].
    + unfold scanAllAccounts, Sqlite.bind. now rewrite Hread.
    + exact Hids.
    + rewrite <- (length_map accountId), Hids. apply length_map.
    + exact Hsc.
    + intros k account Hnth.
      destruct (Scanned_nth env worlds 0 accounts d1 d' entries Hsc k account Hnth)
        as (d0 & r & d0' & Hscan & Hentry).
      exists d0, r, d0'. split; [exact Hscan|].
      rewrite Hentry. now destruct r.
Qed.

Lemma scanAllAccounts_one_entry_per_account_witness :
  exists entries d',
    scanAllAccounts Fixtures.quiet
      (fun k => if Nat.eqb k 0 then Fixtures.forbidden_in_second_region
                else Fixtures.healthy_world)
      Fixtures.db_two_accounts = (Ok entries, d')
    /\ map accountId entries = [1; 2]
    /\ nth_error entries 0
       = Some {| accountId := 1; result := inr "Invalid AWS credentials for account prod" |}.
Proof.
  destruct (proj2 (scanAllAccounts_one_entry_per_account Fixtures.quiet
                     (fun k => if Nat.eqb k 0 then Fixtures.forbidden_in_second_region
                               else Fixtures.healthy_world)
                     Fixtures.db_two_accounts)
              [Fixtures.prod_account; Fixtures.dev_account]
              (with_log Fixtures.db_two_accounts [SELECT_accounts]) eq_refl)
    as (entries & d' & Hrun & Hids & _ & _ & _).
  exists entries, d'. split; [exact Hrun|]. split; [exact Hids|].
  vm_compute in Hrun. injection Hrun as <- _. reflexivity.
Defined.

(** The call does fail: when the SELECT of the accounts fails, here with two
    accounts stored, and when the service was never initialized. *)
Lemma scanAllAccounts_fails_with_the_account_list :
  scanAllAccounts (Fixtures.failing_at 0) (fun _ => Fixtures.healthy_world)
    Fixtures.db_two_accounts
  = (Throw io_error, with_log Fixtures.db_two_accounts [SELECT_accounts])
  /\ fst (scanAllAccounts Fixtures.quiet (fun _ => Fixtures.healthy_world)
            {| opened := false; schema := service_schema; tables := empty_tables;
               txn := None; log := [] |})
     = Throw (new_Error "Database not initialized. Call initialize() first.").
Proof.
  split; reflexivity.
Qed.

(** *** Account deletion *)

Section Deletion.

Variable env : Env.

Lemma filter_out_then_in {A} (p : A -> bool) (l : list A) :
  filter p (filter (fun x => negb (p x)) l) = [].
Proof.
  induction l as [|x l IH]; [reflexivity|].
  cbn. destruct (p x) eqn:E; cbn; [exact IH|]. now rewrite E.
Qed.

Lemma filter_other_In {A} (key : A -> Z) (id : Z) (l : list A) (x : A) :
  In x (filter (fun y => negb (Z.eqb (key y) id)) l) <-> In x l /\ key x <> id.
Proof.
  now rewrite filter_In, negb_true_iff, Z.eqb_neq.
Qed.

(** What "gone" means: no row of the account is left, and the rows of the
    other accounts are all still there. *)
Lemma without_account_spec (id : Z) (t : Tables) :
  (forall a, In a (aws_accounts (without_account id t))
             <-> In a (aws_accounts t) /\ a_id a <> id)
  /\ (forall r, In r (aws_regions (without_account id t))
                <-> In r (aws_regions t) /\ r_accountId r <> id)
  /\ (forall f, In f (asset_findings (without_account id t))
                <-> In f (asset_findings t) /\ f_accountId f <> id).
Proof.
  unfold without_account; cbn [aws_accounts aws_regions asset_findings].
  split; [|split]; intros x.
  - apply (filter_other_In a_id).
  - apply (filter_other_In r_accountId).
  - apply (filter_other_In f_accountId).
Qed.

(** The two ways [deleteAccount] can end. *)
Lemma deleteAccount_cases (id : Z) (d : Database) :
  match deleteAccount env id d with
  | (Ok _, d') =>
      tables d' = without_account id (tables d) /\ txn d' = None /\ opened d' = true
  | (Throw _, d') => tables d' = tables d
  end.
Proof.
  unfold deleteAccount, Sqlite.bind, try_catch, ensureInitialized, sql_begin, sql_commit,
    sql_rollback, delete_findings_of, delete_regions_of, delete_account_row,
    on_tables, issue, throw.
  destruct (opened d) eqn:Hopen; [|cbn; reflexivity].
  destruct (fault env (List.length (log d))); [cbn; reflexivity|].
  cbn. destruct (txn d) eqn:Htxn; cbn; [reflexivity|].
  repeat match goal with
         | |- context [fault env ?n] => destruct (fault env n); cbn; try reflexivity
         end.
  rewrite Hopen. repeat split.
Qed.

(** With an open connection, no transaction in progress and no failure of
    its five statements, [deleteAccount] succeeds. *)
Lemma deleteAccount_succeeds (id : Z) (d : Database) :
  opened d = true ->
  txn d = None ->
  (forall n, (List.length (log d) <= n < List.length (log d) + 5)%nat -> fault env n = false) ->
  fst (deleteAccount env id d) = Ok tt.
Proof.
  intros Hopen Htxn Hquiet.
  unfold deleteAccount, Sqlite.bind, try_catch, ensureInitialized, sql_begin, sql_commit,
    sql_rollback, delete_findings_of, delete_regions_of, delete_account_row,
    on_tables, issue, throw.
  rewrite Hopen, Hquiet by lia. cbn. rewrite Htxn. cbn.
  repeat (rewrite Hquiet by (rewrite ?length_app; cbn; lia); cbn).
  reflexivity.
Qed.

End Deletion.

(** C5.  [deleteAccount] is an atomic cascade.  It succeeds when nothing
    fails; when it succeeds, the account row, its regions and its findings
    are gone and all other rows are as before, so that a query of the
    findings of that (non-zero) account id returns the empty list; when it
    fails, at whatever step, the three tables are exactly as before the call. *)
Theorem deleteAccount_is_atomic_cascade (env : Env) (id : Z) (d : Database) :
  (opened d = true ->
   txn d = None ->
   (forall n, (List.length (log d) <= n < List.length (log d) + 5)%nat -> fault env n = false) ->
   fst (deleteAccount env id d) = Ok tt)
  /\ (forall d', deleteAccount env id d = (Ok tt, d') ->
        tables d' = without_account id (tables d)
        /\ (id <> 0 ->
            fault env (List.length (log d')) = false ->
            fst (getFindings env {| flt_accountId := Some id; flt_region := None;
                                    flt_service := None; flt_severity := None |} d')
            = Ok []))
  /\ (forall e d', deleteAccount env id d = (Throw e, d') -> tables d' = tables d).
Proof.
  pose proof (deleteAccount_cases env id d) as Hcases.
  split; [apply deleteAccount_succeeds|].
  split.
  - intros d' Hrun. rewrite Hrun in Hcases. destruct Hcases as (Ht & _ & Hopen).
    split; [exact Ht|].
    intros Hid Hfault. rewrite getFindings_by_account by assumption.
    cbn [fst]. rewrite Ht. cbn [asset_findings without_account].
    now rewrite (filter_out_then_in (fun row => Z.eqb (f_accountId row) id)).
  - intros e d' Hrun. now rewrite Hrun in Hcases.
Qed.

Lemma deleteAccount_is_atomic_cascade_witness :
  (fst (deleteAccount Fixtures.quiet 1 Fixtures.db_two_accounts) = Ok tt
   /\ tables (snd (deleteAccount Fixtures.quiet 1 Fixtures.db_two_accounts))
      = without_account 1 (tables Fixtures.db_two_accounts)
   /\ fst (getFindings Fixtures.quiet
             {| flt_accountId := Some 1; flt_region := None;
                flt_service := None; flt_severity := None |}
             (snd (deleteAccount Fixtures.quiet 1 Fixtures.db_two_accounts)))
      = Ok [])
  /\ tables (snd (deleteAccount (Fixtures.failing_at 3) 1 Fixtures.db_two_accounts))
     = tables Fixtures.db_two_accounts.
Proof.
  destruct (deleteAccount_is_atomic_cascade Fixtures.quiet 1 Fixtures.db_two_accounts)
    as (Hsucc & Hgone & _).
  destruct (deleteAccount_is_atomic_cascade (Fixtures.failing_at 3) 1 Fixtures.db_two_accounts)
    as (_ & _ & Hback).
  split.
  - split; [apply Hsucc; reflexivity|].
    destruct (Hgone (snd (deleteAccount Fixtures.quiet 1 Fixtures.db_two_accounts)) eq_refl)
      as (Ht & Hq).
    split; [exact Ht|]. apply Hq; [discriminate | reflexivity].
  - apply (Hback io_error). reflexivity.
Defined.

(** *** The bulk insert *)

Section BulkInsert.

Variable env : Env.

(** The insert loop stops at the first statement that fails; the rows of the
    statements before it are in the table. *)
Lemma run_each_until_fault (accountId : Z) (findings : list RegionFinding) :
  forall (k : nat) (d : Database),
    (k < List.length findings)%nat ->
    (forall n, (List.length (log d) <= n < List.length (log d) + k)%nat -> fault env n = false) ->
    fault env (List.length (log d) + k) = true ->
    fst (run_each env accountId findings d) = Throw io_error
    /\ asset_findings (tables (snd (run_each env accountId findings d)))
       = asset_findings (tables d)
         ++ rows_for env accountId (List.length (log d)) (seq_findings (tables d))
              (firstn k findings).
Proof.
  induction findings as [|f rest IH]; intros k d Hk Hquiet Hfault.
  - cbn in Hk. lia.
  - cbn [run_each]. unfold Sqlite.bind, stmt_run. destruct k as [|k].
    + rewrite Nat.add_0_r in Hfault. rewrite on_tables_faults by assumption.
      cbn. now rewrite app_nil_r.
    + rewrite on_tables_runs by (apply Hquiet; lia).
      cbn in Hk.
      match goal with
      | |- context [run_each env accountId rest ?d1] =>
          destruct (IH k d1) as (Hthrow & Hrows)
      end.
      * lia.
      * cbn. rewrite length_app. cbn. intros n Hn. apply Hquiet. lia.
      * cbn. rewrite length_app. cbn.
        now replace (List.length (log d) + 1 + k)%nat with (List.length (log d) + S k)%nat by lia.
      * split; [exact Hthrow|].
        rewrite Hrows. cbn. rewrite length_app. cbn.
        rewrite <- app_assoc. cbn. now rewrite Nat.add_1_r.
Qed.

(** When no statement fails the loop writes one row per finding. *)
Lemma run_each_all (accountId : Z) (findings : list RegionFinding) :
  forall (d : Database),
    (forall n, (List.length (log d) <= n < List.length (log d) + List.length findings)%nat ->
               fault env n = false) ->
    fst (run_each env accountId findings d) = Ok tt
    /\ asset_findings (tables (snd (run_each env accountId findings d)))
       = asset_findings (tables d)
         ++ rows_for env accountId (List.length (log d)) (seq_findings (tables d)) findings.
Proof.
  induction findings as [|f rest IH]; intros d Hquiet.
  - cbn. now rewrite app_nil_r.
  - cbn [run_each]. unfold Sqlite.bind, stmt_run.
    rewrite on_tables_runs by (apply Hquiet; cbn; lia).
    match goal with
    | |- context [run_each env accountId rest ?d1] => destruct (IH d1) as (Hok & Hrows)
    end.
    + cbn. rewrite length_app. cbn. intros n Hn. apply Hquiet. cbn. lia.
    + split; [exact Hok|].
      rewrite Hrows. cbn. rewrite length_app. cbn.
      rewrite <- app_assoc. cbn. now rewrite Nat.add_1_r.
Qed.

(** [storeFindingsForAccount] once its PREPARE went through *)
Lemma storeFindingsForAccount_after_prepare (accountId : Z) (findings : list RegionFinding)
      (d : Database) :
  opened d = true ->
  fault env (List.length (log d)) = false ->
  storeFindingsForAccount env accountId findings d
  = match run_each env accountId findings (with_log d (log d ++ [PREPARE_insert_finding])) with
    | (Ok _, d2) => stmt_finalize env d2
    | (Throw e, d2) => (Throw e, d2)
    end.
Proof.
  intros Hopen Hfault.
  unfold storeFindingsForAccount, Sqlite.bind, prepare_insert_finding.
  now rewrite ensureInitialized_opened, on_tables_runs by assumption.
Qed.

(** [storeFindingsForAccount] sends its INSERTs outside any transaction: when
    the [k]-th of them fails, the call fails and the [k] rows before it stay. *)
Lemma storeFindingsForAccount_keeps_prefix (accountId : Z) (findings : list RegionFinding)
      (k : nat) (d : Database) :
  opened d = true ->
  (k < List.length findings)%nat ->
  (forall n, (List.length (log d) <= n < List.length (log d) + S k)%nat -> fault env n = false) ->
  fault env (List.length (log d) + S k) = true ->
  fst (storeFindingsForAccount env accountId findings d) = Throw io_error
  /\ asset_findings (tables (snd (storeFindingsForAccount env accountId findings d)))
     = asset_findings (tables d)
       ++ rows_for env accountId (S (List.length (log d))) (seq_findings (tables d))
            (firstn k findings).
Proof.
  intros Hopen Hk Hquiet Hfault.
  rewrite storeFindingsForAccount_after_prepare by (try assumption; apply Hquiet; lia).
  destruct (run_each_until_fault accountId findings k
              (with_log d (log d ++ [PREPARE_insert_finding]))) as (Hthrow & Hrows).
  - exact Hk.
  - cbn. rewrite length_app. cbn. intros n Hn. apply Hquiet. lia.
  - cbn. rewrite length_app. cbn.
    now replace (List.length (log d) + 1 + k)%nat with (List.length (log d) + S k)%nat by lia.
  - destruct (run_each env accountId findings _) as [[u|e] d2]; cbn in Hthrow; [discriminate|].
    injection Hthrow as ->. cbn [fst snd] in *. split; [reflexivity|].
    rewrite Hrows. cbn. rewrite length_app. cbn. now rewrite Nat.add_1_r.
Qed.

End BulkInsert.

(** C2 (the code departs from it).  [storeFindingsForAccount] is not
    all-or-nothing.  With two findings and a failure of the second INSERT,
    the call fails and the row of the first finding is in the table; and a
    [scanAccount] whose third INSERT fails ends with that error while the rows
    of its first two findings have been added to the two the table had. *)
Theorem storeFindingsForAccount_partial_write :
  let findings := [ stamp "us-east-1" (Fixtures.sample "IAM" "i");
                    stamp "us-east-1" (Fixtures.sample "KMS" "k") ] in
  let run := storeFindingsForAccount (Fixtures.failing_at 2) 1 findings Fixtures.db_no_region in
  let scan := scanAccount (Fixtures.failing_at 5) Fixtures.healthy_world 1
                Fixtures.db_two_accounts in
  fst run = Throw io_error
  /\ map f_fields (asset_findings (tables (snd run))) = [Fixtures.sample "IAM" "i"]
  /\ log (snd run)
     = [ PREPARE_insert_finding;
         RUN_insert_finding 1 (stamp "us-east-1" (Fixtures.sample "IAM" "i"));
         RUN_insert_finding 1 (stamp "us-east-1" (Fixtures.sample "KMS" "k")) ]
  /\ fst scan = Throw io_error
  /\ map (fun row => (f_accountId row, f_region row, service (f_fields row), finding (f_fields row)))
         (asset_findings (tables (snd scan)))
     = [ (1, "us-east-1", "IAM", "old"); (2, "us-east-1", "KMS", "old");
         (1, "us-east-1", "IAM", "i"); (1, "us-east-1", "CloudTrail", "t") ].
Proof.
  vm_compute. repeat split.
Qed.

(** *** Regions *)

Section Regions.

Variable env : Env.

(** On the tables of service.ts nothing stops a second row for a pair. *)
Lemma addRegion_without_constraint (accountId : Z) (region : string) (enabled : option bool)
      (d : Database) :
  opened d = true ->
  regions_pair_unique (schema d) = false ->
  fault env (List.length (log d)) = false ->
  fst (addRegion env accountId region enabled d) = Ok (seq_regions (tables d) + 1)
  /\ aws_regions (tables (snd (addRegion env accountId region enabled d)))
     = aws_regions (tables d)
       ++ [ {| r_id := seq_regions (tables d) + 1; r_accountId := accountId;
               r_region := region; r_enabled := enabled;
               r_createdAt := now env (List.length (log d));
               r_updatedAt := now env (List.length (log d)) |} ].
Proof.
  intros Hopen Hschema Hfault. unfold addRegion, Sqlite.bind.
  rewrite ensureInitialized_opened, on_tables_runs by assumption.
  rewrite Hschema. cbn. split; reflexivity.
Qed.

(** On the tables of schema.ts a second row for a pair is refused. *)
Lemma addRegion_with_constraint (accountId : Z) (region : string) (enabled : option bool)
      (d : Database) :
  opened d = true ->
  regions_pair_unique (schema d) = true ->
  existsb (same_pair accountId region) (aws_regions (tables d)) = true ->
  exists e,
    fst (addRegion env accountId region enabled d) = Throw e
    /\ tables (snd (addRegion env accountId region enabled d)) = tables d.
Proof.
  intros Hopen Hschema Hdup. unfold addRegion, Sqlite.bind.
  rewrite ensureInitialized_opened by assumption.
  unfold on_tables, issue. destruct (fault env _); cbn.
  - now exists io_error.
  - rewrite Hschema, Hdup. cbn. now eexists.
Qed.

End Regions.

(** C6 (the code departs from it).  On a database created by
    [DatabaseService.initialize], adding the region ("us-east-1" of account 1)
    twice succeeds twice: [aws_regions] then holds two rows for the pair.  The
    same two calls on the tables of schema.ts, which declare
    UNIQUE(account_id, region), fail the second time and leave one row. *)
Theorem addRegion_duplicate_pair_accepted :
  let fresh := initialize None in
  let d0 := snd (addAccount Fixtures.quiet "111122223333" "prod" "AKIAEXAMPLE" "secret" None fresh) in
  let first := addRegion Fixtures.quiet 1 "us-east-1" (Some true) d0 in
  let second := addRegion Fixtures.quiet 1 "us-east-1" (Some true) (snd first) in
  let strict := {| opened := true; schema := schema_ts; tables := tables d0;
                   txn := None; log := log d0 |} in
  let first' := addRegion Fixtures.quiet 1 "us-east-1" (Some true) strict in
  let second' := addRegion Fixtures.quiet 1 "us-east-1" (Some true) (snd first') in
  schema fresh = service_schema
  /\ fst first = Ok 1
  /\ fst second = Ok 2
  /\ map (fun r => (r_id r, r_accountId r, r_region r)) (aws_regions (tables (snd second)))
     = [ (1, 1, "us-east-1"); (2, 1, "us-east-1") ]
  /\ fst first' = Ok 1
  /\ fst second'
     = Throw (constraint_error "aws_regions.account_id, aws_regions.region")
  /\ map (fun r => (r_id r, r_accountId r, r_region r)) (aws_regions (tables (snd second')))
     = [ (1, 1, "us-east-1") ].
Proof.
  vm_compute. repeat split.
Qed.

(** *** The probes *)

Section GuardDutyFacts.

Variable api : GuardDutyScanner.Api.
Variable account : AWSAccount.
Variable region : string.

Lemma guardDuty_scan_with_credentials :
  has_credentials account = true ->
  GuardDutyScanner.scan api account region
  = match GuardDutyScanner.try_body api [] with
    | (findings, Ok _) => Ok findings
    | (_, Throw error) => Throw (GuardDutyScanner.rethrown error)
    end.
Proof.
  unfold has_credentials, GuardDutyScanner.scan. intros H.
  apply andb_true_iff in H as [-> ->]. reflexivity.
Qed.

Lemma guardDuty_scan_without_credentials :
  has_credentials account = false ->
  GuardDutyScanner.scan api account region = Throw (new_Error "Missing AWS credentials").
Proof.
  unfold has_credentials, GuardDutyScanner.scan. intros H.
  apply andb_false_iff in H as [-> | ->]; cbn; [reflexivity|].
  now rewrite orb_true_r.
Qed.

(** Pushing findings cannot fail. *)
Lemma guardDuty_push_all (l acc : list Finding) :
  GuardDutyScanner.push_all l acc = (acc ++ l, Ok tt).
Proof.
  revert acc. induction l as [|f l IH]; intros acc; cbn.
  - now rewrite app_nil_r.
  - unfold Probe.bind, Probe.push. rewrite IH. now rewrite <- app_assoc.
Qed.

End GuardDutyFacts.

(** *** What a probe has collected when a call fails *)

Lemma bind_fst_congr {A B} (m : Probe.P A) (k k' : A -> Probe.P B) (fs : list Finding) :
  (forall a fs1, fst (k a fs1) = fst (k' a fs1)) ->
  fst (Probe.bind m k fs) = fst (Probe.bind m k' fs).
Proof.
  intros Hk. unfold Probe.bind. destruct (m fs) as [fs1 [a|e]]; [apply Hk | reflexivity].
Qed.

(** A failing status call at the [k]-th trail leaves in the array what the
    trails before it gave. *)
Lemma cloudTrail_each_trail_stops (api : CloudTrailScanner.Api)
      (trails : list CloudTrailScanner.Trail) :
  forall (i k : nat) (trail : CloudTrailScanner.Trail) (trailName : string) (e : Thrown)
         (fs : list Finding),
    nth_error trails k = Some trail ->
    CloudTrailScanner.Name trail = Some trailName ->
    truthy_string trailName = true ->
    CloudTrailScanner.getTrailStatus api (i + k) trailName = Throw e ->
    fst (CloudTrailScanner.each_trail api i trails fs)
    = fst (CloudTrailScanner.each_trail api i (firstn k trails) fs).
Proof.
  induction trails as [|t rest IH]; intros i k trail trailName e fs Hnth Hname Htruthy Hfail.
  - destruct k; discriminate.
  - destruct k as [|k].
    + cbn in Hnth. injection Hnth as ->. rewrite Nat.add_0_r in Hfail.
      cbn [firstn CloudTrailScanner.each_trail]. rewrite Hname, Htruthy.
      unfold Probe.bind at 1. unfold CloudTrailScanner.check_trail, Probe.bind, Probe.send.
      now rewrite Hfail.
    + cbn in Hnth. rewrite <- Nat.add_succ_comm in Hfail.
      cbn [firstn CloudTrailScanner.each_trail].
      destruct (CloudTrailScanner.Name t) as [name|]; [|now apply (IH (S i) k trail trailName e)].
      destruct (truthy_string name); [|now apply (IH (S i) k trail trailName e)].
      apply bind_fst_congr. intros _ fs1. now apply (IH (S i) k trail trailName e).
Qed.

(** A failing [DescribeKey] at the [k]-th key leaves in the array what the
    keys before it gave. *)
Lemma kms_each_key_stops (api : KMSScanner.Api) (keys : list KMSScanner.KeyListEntry) :
  forall (i k : nat) (key : KMSScanner.KeyListEntry) (keyId : string) (e : Thrown)
         (fs : list Finding),
    nth_error keys k = Some key ->
    KMSScanner.KeyId key = Some keyId ->
    truthy_string keyId = true ->
    KMSScanner.describeKey api (i + k) keyId = Throw e ->
    fst (KMSScanner.each_key api i keys fs)
    = fst (KMSScanner.each_key api i (firstn k keys) fs).
Proof.
  induction keys as [|key0 rest IH]; intros i k key keyId e fs Hnth Hid Htruthy Hfail.
  - destruct k; discriminate.
  - destruct k as [|k].
    + cbn in Hnth. injection Hnth as ->. rewrite Nat.add_0_r in Hfail.
      cbn [firstn KMSScanner.each_key]. rewrite Hid, Htruthy.
      unfold Probe.bind, Probe.send. now rewrite Hfail.
    + cbn in Hnth. rewrite <- Nat.add_succ_comm in Hfail.
      cbn [firstn KMSScanner.each_key].
      destruct (KMSScanner.KeyId key0) as [id0|]; [|now apply (IH (S i) k key keyId e)].
      destruct (truthy_string id0); [|now apply (IH (S i) k key keyId e)].
      apply bind_fst_congr. intros keyDetails fs1.
      destruct (KMSScanner.KeyMetadata_ keyDetails) as [metadata|];
        [|now apply (IH (S i) k key keyId e)].
      apply bind_fst_congr. intros _ fs2. now apply (IH (S i) k key keyId e).
Qed.

(** C8.  The GuardDuty probe lets every failure reach its caller: missing
    keys, and the error of any of its three API calls, come out as a throw
    (the caught error itself, or a new Error for messages containing
    "credentials" or "AccessDenied"), and the probe returns a list only when
    every call it made succeeded.  The other five probes never throw: each
    returns its findings array as it was when its body ended or failed.  For
    IAM that is nothing when the account summary fails and the root-MFA
    finding at most when listing the users fails; for CloudTrail and KMS
    nothing when the listing fails and, when the call for the [k]-th trail or
    key fails, what the loop pushed for those before it; for CloudWatch
    nothing when its one call fails; for SecurityHub the "not enabled"
    finding when the first call fails with InvalidAccessException or
    ResourceNotFoundException and nothing for any other failure. *)
Theorem guardDuty_propagates_other_probes_absorb :
  (forall api account region,
      has_credentials account = false ->
      GuardDutyScanner.scan api account region = Throw (new_Error "Missing AWS credentials"))
  /\ (forall api account region e,
        has_credentials account = true ->
        GuardDutyScanner.listDetectors api = Throw e ->
        GuardDutyScanner.scan api account region = Throw (GuardDutyScanner.rethrown e))
  /\ (forall api account region dets detectorId more e,
        has_credentials account = true ->
        GuardDutyScanner.listDetectors api = Ok dets ->
        Probe.or_empty (GuardDutyScanner.DetectorIds dets) = detectorId :: more ->
        GuardDutyScanner.listFindings api detectorId = Throw e ->
        GuardDutyScanner.scan api account region = Throw (GuardDutyScanner.rethrown e))
  /\ (forall api account region dets detectorId more ids id rest e,
        has_credentials account = true ->
        GuardDutyScanner.listDetectors api = Ok dets ->
        Probe.or_empty (GuardDutyScanner.DetectorIds dets) = detectorId :: more ->
        GuardDutyScanner.listFindings api detectorId = Ok ids ->
        GuardDutyScanner.FindingIds ids = Some (id :: rest) ->
        GuardDutyScanner.getFindings api detectorId (id :: rest) = Throw e ->
        GuardDutyScanner.scan api account region = Throw (GuardDutyScanner.rethrown e))
  /\ (forall e,
        GuardDutyScanner.rethrown e = e
        \/ (includes "credentials" (message e) = true
            /\ GuardDutyScanner.rethrown e
               = new_Error ("AWS credentials error: " ++ message e)%string)
        \/ (includes "AccessDenied" (message e) = true
            /\ GuardDutyScanner.rethrown e
               = new_Error "Access denied to GuardDuty. Please check IAM permissions."))
  /\ (forall api account region fs,
        GuardDutyScanner.scan api account region = Ok fs ->
        has_credentials account = true
        /\ exists dets,
             GuardDutyScanner.listDetectors api = Ok dets
             /\ forall detectorId more,
                  Probe.or_empty (GuardDutyScanner.DetectorIds dets) = detectorId :: more ->
                  exists ids,
                    GuardDutyScanner.listFindings api detectorId = Ok ids
                    /\ forall id rest,
                         GuardDutyScanner.FindingIds ids = Some (id :: rest) ->
                         exists details,
                           GuardDutyScanner.getFindings api detectorId (id :: rest) = Ok details)
  /\ (forall api account region, exists fs, IAMScanner.scan api account region = Ok fs)
  /\ (forall api account region, exists fs, CloudTrailScanner.scan api account region = Ok fs)
  /\ (forall api account region, exists fs, CloudWatchScanner.scan api account region = Ok fs)
  /\ (forall api account region, exists fs, KMSScanner.scan api account region = Ok fs)
  /\ (forall api account region, exists fs, SecurityHubScanner.scan api account region = Ok fs)
  /\ (forall api account region e,
        IAMScanner.getAccountSummary api = Throw e ->
        IAMScanner.scan api account region = Ok [])
  /\ (forall api account region summary e,
        IAMScanner.getAccountSummary api = Ok summary ->
        IAMScanner.listUsers api = Throw e ->
        IAMScanner.scan api account region
        = Ok (if IAMScanner.mfa_enabled summary then [] else [IAMScanner.root_mfa]))
  /\ ((forall api account region,
         IAMScanner.scan api account region = Ok (fst (IAMScanner.try_body api [])))
      /\ (forall api account region,
            CloudTrailScanner.scan api account region
            = Ok (fst (CloudTrailScanner.try_body api [])))
      /\ (forall api account region,
            CloudWatchScanner.scan api account region
            = Ok (fst (CloudWatchScanner.try_body api [])))
      /\ (forall api account region,
            KMSScanner.scan api account region = Ok (fst (KMSScanner.try_body api [])))
      /\ (forall api account region,
            SecurityHubScanner.scan api account region
            = Ok (fst (SecurityHubScanner.try_body api []))))
  /\ (forall api account region e,
        CloudTrailScanner.describeTrails api = Throw e ->
        CloudTrailScanner.scan api account region = Ok [])
  /\ (forall api account region trails k trail trailName e,
        CloudTrailScanner.describeTrails api = Ok trails ->
        nth_error (Probe.or_empty (CloudTrailScanner.trailList trails)) k = Some trail ->
        CloudTrailScanner.Name trail = Some trailName ->
        truthy_string trailName = true ->
        CloudTrailScanner.getTrailStatus api k trailName = Throw e ->
        CloudTrailScanner.scan api account region
        = Ok (fst (CloudTrailScanner.each_trail api 0
                     (firstn k (Probe.or_empty (CloudTrailScanner.trailList trails))) [])))
  /\ (forall api account region e,
        CloudWatchScanner.describeAlarms api = Throw e ->
        CloudWatchScanner.scan api account region = Ok [])
  /\ (forall api account region e,
        KMSScanner.listKeys api = Throw e ->
        KMSScanner.scan api account region = Ok [])
  /\ (forall api account region keys k key keyId e,
        KMSScanner.listKeys api = Ok keys ->
        nth_error (Probe.or_empty (KMSScanner.Keys keys)) k = Some key ->
        KMSScanner.KeyId key = Some keyId ->
        truthy_string keyId = true ->
        KMSScanner.describeKey api k keyId = Throw e ->
        KMSScanner.scan api account region
        = Ok (fst (KMSScanner.each_key api 0
                     (firstn k (Probe.or_empty (KMSScanner.Keys keys))) [])))
  /\ (forall api account region e,
        SecurityHubScanner.getEnabledStandards api = Throw e ->
        SecurityHubScanner.scan api account region
        = Ok (if String.eqb (name e) "InvalidAccessException"
                 || String.eqb (name e) "ResourceNotFoundException"
              then [SecurityHubScanner.not_enabled] else []))
  /\ (forall api account region e,
        SecurityHubScanner.getEnabledStandards api = Ok tt ->
        SecurityHubScanner.getFindings api = Throw e ->
        SecurityHubScanner.scan api account region = Ok []).
Proof.
  split; [intros; now apply guardDuty_scan_without_credentials|].
  split.
  { intros api account region e Hc H1.
    rewrite guardDuty_scan_with_credentials by assumption.
    unfold GuardDutyScanner.try_body, Probe.bind, Probe.send. now rewrite H1. }
  split.
  { intros api account region dets detectorId more e Hc H1 Hd H2.
    rewrite guardDuty_scan_with_credentials by assumption.
    unfold GuardDutyScanner.try_body, Probe.bind, Probe.send. now rewrite H1, Hd, H2. }
  split.
  { intros api account region dets detectorId more ids id rest e Hc H1 Hd H2 Hi H3.
    rewrite guardDuty_scan_with_credentials by assumption.
    unfold GuardDutyScanner.try_body, Probe.bind, Probe.send. now rewrite H1, Hd, H2, Hi, H3. }
  split.
  { intros e. unfold GuardDutyScanner.rethrown.
    destruct (is_Error e); [|now left].
    destruct (GuardDutyScanner.is_credential_error e); [now left|].
    destruct (includes "credentials" (message e)) eqn:E1; [right; left; now split|].
    destruct (includes "AccessDenied" (message e)) eqn:E2; [right; right; now split|].
    now left. }
  split.
  { intros api account region fs Hscan.
    destruct (has_credentials account) eqn:Hc.
    2:{ rewrite guardDuty_scan_without_credentials in Hscan by assumption. discriminate. }
    split; [reflexivity|].
    rewrite guardDuty_scan_with_credentials in Hscan by assumption.
    unfold GuardDutyScanner.try_body, Probe.bind, Probe.send in Hscan.
    destruct (GuardDutyScanner.listDetectors api) as [dets|e]; [|discriminate].
    exists dets. split; [reflexivity|].
    intros detectorId more Hd. rewrite Hd in Hscan.
    destruct (GuardDutyScanner.listFindings api detectorId) as [ids|e]; [|discriminate].
    exists ids. split; [reflexivity|].
    intros id rest Hi. rewrite Hi in Hscan.
    destruct (GuardDutyScanner.getFindings api detectorId (id :: rest)) as [details|e];
      [|discriminate].
    now exists details. }
  split; [intros; eexists; reflexivity|].
  split; [intros; eexists; reflexivity|].
  split; [intros; eexists; reflexivity|].
  split; [intros; eexists; reflexivity|].
  split; [intros; eexists; reflexivity|].
  split.
  { intros api account region e H1.
    unfold IAMScanner.scan, Probe.swallow, IAMScanner.try_body, Probe.bind, Probe.send.
    now rewrite H1. }
  split.
  { intros api account region summary e H1 H2.
    unfold IAMScanner.scan, Probe.swallow, IAMScanner.try_body, Probe.bind, Probe.send,
      Probe.when, Probe.push, Probe.ret.
    rewrite H1, H2. destruct (IAMScanner.mfa_enabled summary); reflexivity. }
  split; [repeat (split; [intros; reflexivity|]); intros; reflexivity|].
  split.
  { intros api account region e H1.
    unfold CloudTrailScanner.scan, Probe.swallow, CloudTrailScanner.try_body,
      Probe.bind, Probe.send.
    now rewrite H1. }
  split.
  { intros api account region trails k trail trailName e H1 Hnth Hname Htruthy Hfail.
    unfold CloudTrailScanner.scan, Probe.swallow. f_equal.
    unfold CloudTrailScanner.try_body, Probe.bind at 1, Probe.send at 1. rewrite H1.
    destruct (Probe.or_empty (CloudTrailScanner.trailList trails)) as [|t rest] eqn:E;
      [destruct k; discriminate|].
    now apply (cloudTrail_each_trail_stops api (t :: rest) 0 k trail trailName e). }
  split.
  { intros api account region e H1.
    unfold CloudWatchScanner.scan, Probe.swallow, CloudWatchScanner.try_body,
      Probe.bind, Probe.send.
    now rewrite H1. }
  split.
  { intros api account region e H1.
    unfold KMSScanner.scan, Probe.swallow, KMSScanner.try_body, Probe.bind, Probe.send.
    now rewrite H1. }
  split.
  { intros api account region keys k key keyId e H1 Hnth Hid Htruthy Hfail.
    unfold KMSScanner.scan, Probe.swallow. f_equal.
    unfold KMSScanner.try_body, Probe.bind at 1, Probe.send at 1. rewrite H1.
    destruct (Probe.or_empty (KMSScanner.Keys keys)) as [|k0 rest] eqn:E;
      [destruct k; discriminate|].
    now apply (kms_each_key_stops api (k0 :: rest) 0 k key keyId e). }
  split.
  { intros api account region e H1.
    unfold SecurityHubScanner.scan, Probe.swallow, SecurityHubScanner.try_body,
      SecurityHubScanner.reports_not_enabled.
    rewrite H1.
    destruct (String.eqb (name e) "InvalidAccessException"
              || String.eqb (name e) "ResourceNotFoundException"); reflexivity. }
  { intros api account region e H1 H2.
    unfold SecurityHubScanner.scan, Probe.swallow, SecurityHubScanner.try_body,
      Probe.bind, Probe.send.
    now rewrite H1, H2. }
Qed.

Lemma guardDuty_propagates_other_probes_absorb_witness :
  GuardDutyScanner.scan Fixtures.guardDuty_forbidden Fixtures.prod_account "us-east-1"
  = Throw Fixtures.forbidden
  /\ GuardDutyScanner.scan Fixtures.guardDuty_throttled Fixtures.prod_account "us-east-1"
     = Throw Fixtures.throttled
  /\ IAMScanner.scan Fixtures.iam_users_unavailable Fixtures.prod_account "us-east-1"
     = Ok [IAMScanner.root_mfa]
  /\ CloudTrailScanner.scan Fixtures.cloudTrail_second_status_unavailable
       Fixtures.prod_account "us-east-1"
     = Ok [ {| resourceId := "arn:aws:cloudtrail:us-east-1:111122223333:trail/main";
               resourceType := "CLOUDTRAIL_TRAIL";
               resourceName := Some "main";
               service := "CloudTrail";
               severity := HIGH;
               finding := "CloudTrail Logging Disabled";
               description := "CloudTrail main is not actively logging.";
               remediation :=
                 "Enable logging for the CloudTrail trail to maintain audit records." |} ]
  /\ KMSScanner.scan Fixtures.kms_second_key_unavailable Fixtures.prod_account "us-east-1"
     = Ok [ {| resourceId := "arn:aws:kms:us-east-1:111122223333:key/k-1";
               resourceType := "KMS_KEY";
               resourceName := Some "k-1";
               service := "KMS";
               severity := MEDIUM;
               finding := "Disabled KMS Key";
               description := "KMS key k-1 is disabled.";
               remediation :=
                 "Review and enable important KMS keys or schedule them for deletion if no longer needed." |} ].
Proof.
  destruct guardDuty_propagates_other_probes_absorb
    as (_ & Hfirst & Hsecond & _ & _ & _ & _ & _ & _ & _ & _ & _ & Hiam
        & _ & _ & Htrail & _ & _ & Hkey & _ & _).
  split; [|split; [|split; [|split]]].
  - apply (Hfirst Fixtures.guardDuty_forbidden Fixtures.prod_account "us-east-1"
             Fixtures.forbidden); reflexivity.
  - apply (Hsecond Fixtures.guardDuty_throttled Fixtures.prod_account "us-east-1"
             {| GuardDutyScanner.DetectorIds := Some ["12abc34d567e8fa901bc2d34e56789f0"] |}
             "12abc34d567e8fa901bc2d34e56789f0" [] Fixtures.throttled); reflexivity.
  - apply (Hiam Fixtures.iam_users_unavailable Fixtures.prod_account "us-east-1"
             {| IAMScanner.SummaryMap_AccountMFAEnabled := Some 0 |} Fixtures.throttled);
      reflexivity.
  - rewrite (Htrail Fixtures.cloudTrail_second_status_unavailable Fixtures.prod_account
               "us-east-1" {| CloudTrailScanner.trailList := Some Fixtures.two_trails |} 1%nat
               (Fixtures.trail "audit") "audit" Fixtures.throttled
               eq_refl eq_refl eq_refl eq_refl eq_refl).
    reflexivity.
  - rewrite (Hkey Fixtures.kms_second_key_unavailable Fixtures.prod_account "us-east-1"
               {| KMSScanner.Keys := Some Fixtures.two_keys |} 1%nat
               {| KMSScanner.KeyId := Some "k-2" |} "k-2" Fixtures.throttled
               eq_refl eq_refl eq_refl eq_refl eq_refl).
    reflexivity.
Defined.

(** *** Facts that tie the pieces together *)

(** The orchestrator classifies what the GuardDuty probe throws exactly as
    it would classify the error the probe caught: re-wrapping never turns an
    error into, or out of, a credential error. *)
Lemma rethrown_keeps_class (e : Thrown) :
  SecurityScanner.is_credential_error (GuardDutyScanner.rethrown e)
  = SecurityScanner.is_credential_error e.
Proof.
  unfold GuardDutyScanner.rethrown.
  destruct (is_Error e); [|reflexivity].
  destruct (GuardDutyScanner.is_credential_error e) eqn:E; [reflexivity|].
  change (GuardDutyScanner.is_credential_error e) with (SecurityScanner.is_credential_error e) in E.
  rewrite E.
  destruct (includes "credentials" (message e)); [reflexivity|].
  destruct (includes "AccessDenied" (message e)); [reflexivity|].
  exact E.
Qed.

(** An account without keys is not a credential error for the orchestrator:
    the probe's "Missing AWS credentials" is swallowed by the check. *)
Lemma missing_credentials_pass_the_check :
  SecurityScanner.is_credential_error (new_Error "Missing AWS credentials") = false.
Proof. reflexivity. Qed.

Section Traces.

Variable env : Env.

Lemma run_each_log (accountId : Z) (findings : list RegionFinding) :
  forall d, exists l, log (snd (run_each env accountId findings d)) = log d ++ l.
Proof.
  induction findings as [|f rest IH]; intros d.
  - exists []. cbn. now rewrite app_nil_r.
  - cbn [run_each]. unfold Sqlite.bind, stmt_run.
    match goal with
    | |- context [on_tables env ?s ?b d] =>
        pose proof (on_tables_frame env s b d) as (_ & _ & _ & Hlog);
        destruct (on_tables env s b d) as [[u|e] d1]
    end; cbn [snd] in *.
    + destruct (IH d1) as (l & Hl). exists (RUN_insert_finding accountId f :: l).
      rewrite Hl, Hlog. now rewrite <- app_assoc.
    + now exists [RUN_insert_finding accountId f].
Qed.

(** Every call of [storeFindingsForAccount] on an open connection shows in
    the log, beginning with its PREPARE. *)
Lemma storeFindingsForAccount_is_logged (accountId : Z) (findings : list RegionFinding)
      (d : Database) :
  opened d = true ->
  exists l,
    log (snd (storeFindingsForAccount env accountId findings d))
    = log d ++ PREPARE_insert_finding :: l.
Proof.
  intros Hopen. unfold storeFindingsForAccount, Sqlite.bind at 1 2, prepare_insert_finding.
  rewrite ensureInitialized_opened by assumption.
  match goal with
  | |- context [on_tables env ?s ?b d] =>
      pose proof (on_tables_frame env s b d) as (_ & _ & _ & Hlog);
      destruct (on_tables env s b d) as [[u|e] d1]
  end; cbn [snd] in *.
  - unfold Sqlite.bind.
    destruct (run_each_log accountId findings d1) as (l & Hl).
    destruct (run_each env accountId findings d1) as [[u'|e] d2]; cbn [snd] in *.
    + unfold stmt_finalize.
      match goal with
      | |- context [on_tables env ?s ?b d2] =>
          pose proof (on_tables_frame env s b d2) as (_ & _ & _ & Hlog2)
      end.
      exists (l ++ [FINALIZE]). rewrite Hlog2, Hl, Hlog. now rewrite <- !app_assoc.
    + exists l. rewrite Hl, Hlog. now rewrite <- app_assoc.
  - exists []. exact Hlog.
Qed.

(** AUTOINCREMENT hands out ids from 1 on. *)
Lemma addAccount_id_positive (accountId accountName accessKeyId secretAccessKey : string)
      (sessionToken : option string) (d : Database) (id : Z) :
  0 <= seq_accounts (tables d) ->
  fst (addAccount env accountId accountName accessKeyId secretAccessKey sessionToken d) = Ok id ->
  0 < id.
Proof.
  intros Hseq. unfold addAccount, Sqlite.bind, ensureInitialized, on_tables, issue.
  destruct (opened d); [|discriminate].
  destruct (fault env _); [discriminate|].
  cbn. destruct (existsb _ _); cbn; [discriminate|].
  intros [= <-]. lia.
Qed.

End Traces.

(** A scan of all accounts in which the first account is refused by AWS and
    the second is scanned all the same. *)
Example scanAllAccounts_isolates_accounts :
  let run := scanAllAccounts Fixtures.quiet
               (fun k => if Nat.eqb k 0 then Fixtures.forbidden_in_second_region
                         else Fixtures.healthy_world)
               Fixtures.db_two_accounts in
  match fst run with
  | Ok [first; second] =>
      first = {| accountId := 1; result := inr "Invalid AWS credentials for account prod" |}
      /\ accountId second = 2
      /\ match result second with
         | inl findings => map (fun f => service (rf_finding f)) findings
                           = ["IAM"; "CloudTrail"; "CloudWatch"; "KMS"; "GuardDuty"; "SecurityHub"]
         | inr _ => False
         end
  | _ => False
  end.
Proof.
  vm_compute. repeat split.
Qed.

(** The scanners of the repository under the orchestrator: GuardDuty answers
    403 to the credential check, and the scan of the account stops there. *)
Example scanAccount_with_the_real_probes :
  let aws := fun (_ : AWSAccount) (_ : string) =>
    {| iam := Fixtures.iam_users_unavailable;
       cloudTrail := {| CloudTrailScanner.describeTrails := Throw Fixtures.throttled;
                        CloudTrailScanner.getTrailStatus := fun _ _ => Throw Fixtures.throttled |};
       cloudWatch := {| CloudWatchScanner.describeAlarms := Throw Fixtures.throttled |};
       kms := {| KMSScanner.listKeys := Throw Fixtures.throttled;
                 KMSScanner.describeKey := fun _ _ => Throw Fixtures.throttled |};
       guardDuty := Fixtures.guardDuty_throttled;
       securityHub := {| SecurityHubScanner.getEnabledStandards := Throw Fixtures.throttled;
                         SecurityHubScanner.getFindings := Throw Fixtures.throttled |} |} in
  let refused := fun (_ : AWSAccount) (_ : string) =>
    {| iam := Fixtures.iam_users_unavailable;
       cloudTrail := cloudTrail (aws Fixtures.prod_account "");
       cloudWatch := cloudWatch (aws Fixtures.prod_account "");
       kms := kms (aws Fixtures.prod_account "");
       guardDuty := Fixtures.guardDuty_forbidden;
       securityHub := securityHub (aws Fixtures.prod_account "") |} in
  fst (scanAccount Fixtures.quiet (world_of (fun _ _ => aws)) 2 Fixtures.db_two_accounts)
  = Ok [stamp "us-east-1" IAMScanner.root_mfa]
  /\ fst (scanAccount Fixtures.quiet (world_of (fun _ _ => refused)) 2 Fixtures.db_two_accounts)
     = Throw (new_Error "Invalid AWS credentials for account dev").
Proof.
  vm_compute. split; reflexivity.
Qed.

(* ================================================================== *)
(** ** Further properties: the store *)

Import Invariants.

Section Keeping.

Variable env : Env.

Lemma keeps_ret {A} (a : A) : keeps (ret a).
Proof. intros d H. exact H. Qed.

Lemma keeps_throw {A} (e : Thrown) : keeps (@throw A e).
Proof. intros d H. exact H. Qed.

Lemma keeps_lift {A} (o : Outcome A) : keeps (lift o).
Proof. intros d H. exact H. Qed.

Lemma keeps_bind {A B} (m : M A) (k : A -> M B) :
  keeps m -> (forall a, keeps (k a)) -> keeps (Sqlite.bind m k).
Proof.
  intros Hm Hk d H. unfold Sqlite.bind.
  specialize (Hm d H). destruct (m d) as [[a|e] d1]; cbn [snd] in *.
  - now apply Hk.
  - exact Hm.
Qed.

Lemma keeps_try_catch {A} (m : M A) (h : Thrown -> M A) :
  keeps m -> (forall e, keeps (h e)) -> keeps (try_catch m h).
Proof.
  intros Hm Hh d H. unfold try_catch.
  specialize (Hm d H). destruct (m d) as [[a|e] d1]; cbn [snd] in *.
  - exact Hm.
  - now apply Hh.
Qed.

Lemma keeps_both {A B} (p : M A) (q : M B) : keeps p -> keeps q -> keeps (both p q).
Proof.
  intros Hp Hq d H. unfold both.
  specialize (Hp d H). destruct (p d) as [ra d1]. cbn [snd] in Hp.
  specialize (Hq d1 Hp). destruct (q d1) as [rb d2]. exact Hq.
Qed.

Lemma keeps_ensureInitialized : keeps ensureInitialized.
Proof.
  intros d H. unfold ensureInitialized. now destruct (opened d).
Qed.

(** A statement keeps the connection consistent when what it does to
    well-formed tables is well formed. *)
Lemma keeps_on_tables {A} (s : Stmt) (body : nat -> Schema -> Tables -> Outcome (A * Tables)) :
  (forall n sch t a t', well_formed t -> body n sch t = Ok (a, t') -> well_formed t') ->
  keeps (on_tables env s body).
Proof.
  intros Hbody d [Hwf Hsnap]. unfold on_tables, issue.
  destruct (fault env _); cbn; [now split|].
  destruct (body _ _ _) as [[a t']|e] eqn:E; cbn; [|now split].
  split; [|exact Hsnap]. eapply Hbody; [|exact E]. exact Hwf.
Qed.

Lemma keeps_begin : keeps (sql_begin env).
Proof.
  intros d [Hwf Hsnap]. unfold sql_begin, issue.
  destruct (fault env _); cbn; [now split|].
  destruct (txn d) eqn:E; cbn.
  - split; cbn; [exact Hwf | now rewrite E].
  - split; cbn; [exact Hwf|]. now intros snapshot [= <-].
Qed.

Lemma keeps_commit : keeps (sql_commit env).
Proof.
  intros d [Hwf Hsnap]. unfold sql_commit, issue.
  destruct (fault env _); cbn; [now split|].
  destruct (txn d) eqn:E; cbn.
  - split; cbn; [exact Hwf|]. discriminate.
  - split; cbn; [exact Hwf | now rewrite E].
Qed.

Lemma keeps_rollback : keeps sql_rollback.
Proof.
  intros d [Hwf Hsnap]. unfold sql_rollback. cbn.
  destruct (txn d) eqn:E; cbn.
  - split; cbn; [now apply Hsnap|]. discriminate.
  - split; cbn; [exact Hwf | now rewrite E].
Qed.

End Keeping.

(** *** Ids handed out in sequence *)

Lemma ids_in_sequence_append {A} (key : A -> Z) (seq : Z) (rows : list A) (row : A) :
  0 <= seq ->
  ids_in_sequence key seq rows ->
  key row = seq + 1 ->
  ids_in_sequence key (seq + 1) (rows ++ [row]).
Proof.
  intros Hseq [Hnd Hall] Hkey. split.
  - rewrite map_app. cbn. apply NoDup_app; [exact Hnd | repeat constructor; intros [] | ].
    intros k Hin [<-|[]]. apply in_map_iff in Hin as (r & Hr & Hin).
    rewrite Forall_forall in Hall. specialize (Hall r Hin). lia.
  - apply Forall_app. split.
    + eapply Forall_impl; [|exact Hall]. cbn. intros r Hr. lia.
    + repeat constructor; lia.
Qed.

Lemma ids_in_sequence_filter {A} (key : A -> Z) (seq : Z) (p : A -> bool) (rows : list A) :
  ids_in_sequence key seq rows -> ids_in_sequence key seq (filter p rows).
Proof.
  intros [Hnd Hall]. split.
  - clear Hall. induction rows as [|r rows IH]; [constructor|].
    cbn in *. inversion Hnd as [|? ? Hnotin Hnd']; subst.
    destruct (p r); cbn; [constructor|]; auto.
    intros Hin. apply Hnotin. apply in_map_iff in Hin as (r' & Hk & Hin).
    apply filter_In in Hin as [Hin _]. apply in_map_iff. now exists r'.
  - rewrite Forall_forall in *. intros r Hin. apply filter_In in Hin as [Hin _]. now apply Hall.
Qed.

Lemma NoDup_map_filter {A B} (key : A -> B) (p : A -> bool) (rows : list A) :
  NoDup (map key rows) -> NoDup (map key (filter p rows)).
Proof.
  induction rows as [|r rows IH]; [constructor|].
  cbn. intros Hnd. inversion Hnd as [|? ? Hnotin Hnd']; subst.
  destruct (p r); cbn; [constructor|]; auto.
  intros Hin. apply Hnotin. apply in_map_iff in Hin as (r' & Hk & Hin).
  apply filter_In in Hin as [Hin _]. apply in_map_iff. now exists r'.
Qed.

Lemma existsb_eqb_false_not_in {A} (key : A -> string) (k : string) (rows : list A) :
  existsb (fun row => String.eqb (key row) k) rows = false -> ~ In k (map key rows).
Proof.
  intros Hex Hin. apply in_map_iff in Hin as (r & Hk & Hin).
  assert (existsb (fun row => String.eqb (key row) k) rows = true) as Hyes.
  { apply existsb_exists. exists r. split; [exact Hin|]. now apply String.eqb_eq. }
  congruence.
Qed.

Lemma well_formed_intro (t : Tables) :
  0 <= seq_accounts t -> 0 <= seq_regions t -> 0 <= seq_findings t ->
  ids_in_sequence a_id (seq_accounts t) (aws_accounts t) ->
  ids_in_sequence r_id (seq_regions t) (aws_regions t) ->
  ids_in_sequence f_id (seq_findings t) (asset_findings t) ->
  NoDup (map a_accountId (aws_accounts t)) ->
  well_formed t.
Proof.
  intros. unfold well_formed. tauto.
Qed.

Section KeptByTheService.

Variable env : Env.

Lemma keeps_addAccount (accountId accountName accessKeyId secretAccessKey : string)
      (sessionToken : option string) :
  keeps (addAccount env accountId accountName accessKeyId secretAccessKey sessionToken).
Proof.
  unfold addAccount. apply keeps_bind; [apply keeps_ensureInitialized|]. intros _.
  apply keeps_on_tables. intros n sch t a t' (Ha & Hr & Hf & Hia & Hir & Hif & Hext).
  destruct (existsb _ _) eqn:Hex; [discriminate|]. intros [= <- <-].
  apply well_formed_intro; cbn; try assumption; try lia.
  - apply (ids_in_sequence_append a_id); [assumption..|reflexivity].
  - rewrite map_app. cbn. apply NoDup_app; [exact Hext | repeat constructor; intros [] |].
    intros k Hin [<-|[]]. revert Hin. now apply existsb_eqb_false_not_in.
Qed.

Lemma keeps_addRegion (accountId : Z) (region : string) (enabled : option bool) :
  keeps (addRegion env accountId region enabled).
Proof.
  unfold addRegion. apply keeps_bind; [apply keeps_ensureInitialized|]. intros _.
  apply keeps_on_tables. intros n sch t a t' (Ha & Hr & Hf & Hia & Hir & Hif & Hext).
  destruct (_ && _); [discriminate|]. intros [= <- <-].
  apply well_formed_intro; cbn; try assumption; try lia.
  apply (ids_in_sequence_append r_id); [assumption..|reflexivity].
Qed.

Lemma keeps_updateRegionStatus (id : Z) (enabled : option bool) :
  keeps (updateRegionStatus env id enabled).
Proof.
  unfold updateRegionStatus. apply keeps_bind; [apply keeps_ensureInitialized|]. intros _.
  apply keeps_on_tables. intros n sch t a t' (Ha & Hr & Hf & Hia & [Hnd Hall] & Hif & Hext).
  intros [= <- <-].
  apply well_formed_intro; cbn; try assumption.
  split.
  - rewrite map_map.
    erewrite map_ext; [exact Hnd|]. intros r. cbn. now destruct (Z.eqb (r_id r) id).
  - apply Forall_map. eapply Forall_impl; [|exact Hall].
    intros r Hr'. cbn. now destruct (Z.eqb (r_id r) id).
Qed.

Lemma keeps_addFinding (accountId : Z) (finding : RegionFinding) :
  keeps (addFinding env accountId finding).
Proof.
  unfold addFinding. apply keeps_bind; [apply keeps_ensureInitialized|]. intros _.
  apply keeps_on_tables. intros n sch t a t' (Ha & Hr & Hf & Hia & Hir & Hif & Hext).
  intros [= <- <-].
  apply well_formed_intro; cbn; try assumption; try lia.
  apply (ids_in_sequence_append f_id); [assumption..|reflexivity].
Qed.

Lemma keeps_stmt_run (accountId : Z) (finding : RegionFinding) :
  keeps (stmt_run env accountId finding).
Proof.
  unfold stmt_run.
  apply keeps_on_tables. intros n sch t a t' (Ha & Hr & Hf & Hia & Hir & Hif & Hext).
  intros [= <- <-].
  apply well_formed_intro; cbn; try assumption; try lia.
  apply (ids_in_sequence_append f_id); [assumption..|reflexivity].
Qed.

Lemma keeps_read {A} (s : Stmt) (result : Tables -> A) :
  keeps (on_tables env s (fun _ _ t => Ok (result t, t))).
Proof.
  apply keeps_on_tables. now intros n sch t a t' Hwf [= <- <-].
Qed.

Lemma keeps_storeFindingsForAccount (accountId : Z) (findings : list RegionFinding) :
  keeps (storeFindingsForAccount env accountId findings).
Proof.
  unfold storeFindingsForAccount.
  apply keeps_bind; [apply keeps_ensureInitialized|]. intros _.
  apply keeps_bind; [apply (keeps_read _ (fun _ => tt))|]. intros _.
  apply keeps_bind; [|intros _; apply (keeps_read _ (fun _ => tt))].
  induction findings as [|f rest IH]; cbn [run_each]; [apply keeps_ret|].
  apply keeps_bind; [apply keeps_stmt_run | intros _; exact IH].
Qed.

Lemma keeps_deleteAccount (id : Z) : keeps (deleteAccount env id).
Proof.
  unfold deleteAccount.
  apply keeps_bind; [apply keeps_ensureInitialized|]. intros _.
  apply keeps_bind; [apply keeps_begin|]. intros _.
  apply keeps_try_catch.
  - repeat (apply keeps_bind; [|intros _]); try apply keeps_commit.
    all: apply keeps_on_tables;
      intros n sch t a t' (Ha & Hr & Hf & Hia & Hir & Hif & Hext) [= <- <-];
      apply well_formed_intro; cbn; try assumption;
      try (now apply ids_in_sequence_filter).
    now apply NoDup_map_filter.
  - intros e. apply keeps_bind; [apply keeps_rollback | intros _; apply keeps_throw].
Qed.

Lemma keeps_getAccount (id : Z) : keeps (getAccount env id).
Proof.
  unfold getAccount. apply keeps_bind; [apply keeps_ensureInitialized|]. intros _.
  apply keeps_bind; [apply (keeps_read _ (fun t => find _ (aws_accounts t)))|].
  intros [row|]; apply keeps_ret.
Qed.

Lemma keeps_getEnabledRegions (id : Z) : keeps (getEnabledRegions env id).
Proof.
  unfold getEnabledRegions. apply keeps_bind; [apply keeps_ensureInitialized|]. intros _.
  apply (keeps_read _ (fun t => filter _ (aws_regions t))).
Qed.

Lemma keeps_getAccounts : keeps (getAccounts env).
Proof.
  unfold getAccounts. apply keeps_bind; [apply keeps_ensureInitialized|]. intros _.
  apply (keeps_read _ aws_accounts).
Qed.

Lemma keeps_scanAccount (world : World) (id : Z) : keeps (scanAccount env world id).
Proof.
  unfold scanAccount. apply keeps_bind; [apply keeps_getAccount|].
  intros [account|]; [|apply keeps_throw].
  apply keeps_bind; [apply keeps_getEnabledRegions|]. intros regions.
  apply keeps_bind; [apply keeps_lift|]. intros allFindings.
  apply keeps_bind; [|intros _; apply keeps_ret].
  apply keeps_try_catch; [apply keeps_storeFindingsForAccount | intros e; apply keeps_throw].
Qed.

Lemma keeps_scanEach (worlds : nat -> World) (accounts : list AWSAccount) :
  forall k allFindings, keeps (scanEach env worlds k accounts allFindings).
Proof.
  induction accounts as [|account rest IH]; intros k allFindings; cbn [scanEach].
  - apply keeps_ret.
  - apply keeps_bind; [|intros entry; apply IH].
    apply keeps_try_catch; [|intros e; apply keeps_ret].
    apply keeps_bind; [apply keeps_scanAccount | intros fs; apply keeps_ret].
Qed.

Lemma keeps_scanAllAccounts (worlds : nat -> World) : keeps (scanAllAccounts env worlds).
Proof.
  unfold scanAllAccounts. apply keeps_bind; [apply keeps_getAccounts|].
  intros accounts. apply keeps_scanEach.
Qed.

End KeptByTheService.

Section Closing.

Variable env : Env.

Lemma closes_ret {A} (a : A) : closes (ret a).
Proof. intros d H. exact H. Qed.

Lemma closes_throw {A} (e : Thrown) : closes (@throw A e).
Proof. intros d H. exact H. Qed.

Lemma closes_lift {A} (o : Outcome A) : closes (lift o).
Proof. intros d H. exact H. Qed.

Lemma closes_bind {A B} (m : M A) (k : A -> M B) :
  closes m -> (forall a, closes (k a)) -> closes (Sqlite.bind m k).
Proof.
  intros Hm Hk d H. unfold Sqlite.bind.
  specialize (Hm d H). destruct (m d) as [[a|e] d1]; cbn [snd] in *.
  - now apply Hk.
  - exact Hm.
Qed.

Lemma closes_try_catch {A} (m : M A) (h : Thrown -> M A) :
  closes m -> (forall e, closes (h e)) -> closes (try_catch m h).
Proof.
  intros Hm Hh d H. unfold try_catch.
  specialize (Hm d H). destruct (m d) as [[a|e] d1]; cbn [snd] in *.
  - exact Hm.
  - now apply Hh.
Qed.

Lemma closes_both {A B} (p : M A) (q : M B) : closes p -> closes q -> closes (both p q).
Proof.
  intros Hp Hq d H. unfold both.
  specialize (Hp d H). destruct (p d) as [ra d1]. cbn [snd] in Hp.
  specialize (Hq d1 Hp). destruct (q d1) as [rb d2]. exact Hq.
Qed.

Lemma closes_ensureInitialized : closes ensureInitialized.
Proof.
  intros d H. unfold ensureInitialized. now destruct (opened d).
Qed.

Lemma closes_on_tables {A} (s : Stmt) (body : nat -> Schema -> Tables -> Outcome (A * Tables)) :
  closes (on_tables env s body).
Proof.
  intros d H. destruct (on_tables_frame env s body d) as (_ & _ & Htxn & _).
  now rewrite Htxn.
Qed.

(** Whether it commits, rolls back or cannot even begin, [deleteAccount]
    ends outside any transaction. *)
Lemma closes_deleteAccount (id : Z) : closes (deleteAccount env id).
Proof.
  intros d Htxn.
  unfold deleteAccount, Sqlite.bind, try_catch, ensureInitialized, sql_begin, sql_commit,
    sql_rollback, delete_findings_of, delete_regions_of, delete_account_row,
    on_tables, issue, throw.
  destruct (opened d); [|exact Htxn].
  destruct (fault env (List.length (log d))); [exact Htxn|].
  cbn. rewrite Htxn. cbn.
  repeat match goal with
         | |- context [fault env ?n] => destruct (fault env n); cbn; try reflexivity
         end.
Qed.

Lemma closes_storeFindingsForAccount (accountId : Z) (findings : list RegionFinding) :
  closes (storeFindingsForAccount env accountId findings).
Proof.
  unfold storeFindingsForAccount, prepare_insert_finding, stmt_finalize.
  apply closes_bind; [apply closes_ensureInitialized|]. intros _.
  apply closes_bind; [apply closes_on_tables|]. intros _.
  apply closes_bind; [|intros _; apply closes_on_tables].
  induction findings as [|f rest IH]; cbn [run_each]; [apply closes_ret|].
  apply closes_bind; [apply closes_on_tables | intros _; exact IH].
Qed.

Lemma closes_scanAccount (world : World) (id : Z) : closes (scanAccount env world id).
Proof.
  unfold scanAccount, getAccount, getEnabledRegions.
  apply closes_bind.
  { apply closes_bind; [apply closes_ensureInitialized|]. intros _.
    apply closes_bind; [apply closes_on_tables|]. intros [row|]; apply closes_ret. }
  intros [account|]; [|apply closes_throw].
  apply closes_bind.
  { apply closes_bind; [apply closes_ensureInitialized | intros _; apply closes_on_tables]. }
  intros regions.
  apply closes_bind; [apply closes_lift|]. intros allFindings.
  apply closes_bind; [|intros _; apply closes_ret].
  apply closes_try_catch; [apply closes_storeFindingsForAccount | intros e; apply closes_throw].
Qed.

Lemma closes_scanAllAccounts (worlds : nat -> World) : closes (scanAllAccounts env worlds).
Proof.
  unfold scanAllAccounts, getAccounts.
  apply closes_bind.
  { apply closes_bind; [apply closes_ensureInitialized | intros _; apply closes_on_tables]. }
  intros accounts. generalize 0%nat as k. generalize (@nil AccountScan) as allFindings.
  induction accounts as [|account rest IH]; intros allFindings k; cbn [scanEach].
  - apply closes_ret.
  - apply closes_bind; [|intros entry; apply IH].
    apply closes_try_catch; [|intros e; apply closes_ret].
    apply closes_bind; [apply closes_scanAccount | intros fs; apply closes_ret].
Qed.

End Closing.

(** X1.  The tables a fresh database starts with are well formed, and every
    operation of the service that writes, and every scan, keeps them so,
    whether it succeeds or fails: row ids stay positive, distinct and within
    the sequence counter of their table, and no two accounts share an
    external account id. *)
Theorem store_stays_consistent (env : Env) :
  consistent (initialize None)
  /\ (forall accountId accountName accessKeyId secretAccessKey sessionToken,
        keeps (addAccount env accountId accountName accessKeyId secretAccessKey sessionToken))
  /\ (forall id, keeps (deleteAccount env id))
  /\ (forall accountId region enabled, keeps (addRegion env accountId region enabled))
  /\ (forall id enabled, keeps (updateRegionStatus env id enabled))
  /\ (forall accountId finding, keeps (addFinding env accountId finding))
  /\ (forall accountId findings, keeps (storeFindingsForAccount env accountId findings))
  /\ (forall world id, keeps (scanAccount env world id))
  /\ (forall worlds, keeps (scanAllAccounts env worlds)).
Proof.
  split.
  { split; [|discriminate]. apply well_formed_intro; cbn; try lia;
      try (split; constructor); constructor. }
  split; [intros; apply keeps_addAccount|].
  split; [intros; apply keeps_deleteAccount|].
  split; [intros; apply keeps_addRegion|].
  split; [intros; apply keeps_updateRegionStatus|].
  split; [intros; apply keeps_addFinding|].
  split; [intros; apply keeps_storeFindingsForAccount|].
  split; [intros; apply keeps_scanAccount|].
  intros; apply keeps_scanAllAccounts.
Qed.

(** X2.  No operation leaves a transaction open: started outside a
    transaction, [deleteAccount] ends outside one whether it commits, rolls
    back or fails to begin, and the other writes and the scans never open
    one. *)
Theorem no_transaction_left_open (env : Env) :
  (forall id, closes (deleteAccount env id))
  /\ (forall accountId findings, closes (storeFindingsForAccount env accountId findings))
  /\ (forall world id, closes (scanAccount env world id))
  /\ (forall worlds, closes (scanAllAccounts env worlds)).
Proof.
  split; [intros; apply closes_deleteAccount|].
  split; [intros; apply closes_storeFindingsForAccount|].
  split; [intros; apply closes_scanAccount|].
  intros; apply closes_scanAllAccounts.
Qed.

Lemma store_stays_consistent_witness :
  consistent (snd (scanAllAccounts Fixtures.quiet (fun _ => Fixtures.healthy_world)
                     Fixtures.db_two_accounts))
  /\ consistent (snd (deleteAccount (Fixtures.failing_at 2) 1 Fixtures.db_two_accounts)).
Proof.
  assert (Hdb : consistent Fixtures.db_two_accounts).
  { split; [|discriminate].
    apply well_formed_intro; cbn; try lia; try split;
      repeat (constructor; cbn; try lia; try (intuition discriminate)). }
  destruct (store_stays_consistent Fixtures.quiet) as (_ & _ & _ & _ & _ & _ & _ & _ & Hall).
  destruct (store_stays_consistent (Fixtures.failing_at 2)) as (_ & _ & Hdel & _).
  split; [apply Hall | apply Hdel]; exact Hdb.
Defined.

Lemma no_transaction_left_open_witness :
  txn (snd (deleteAccount (Fixtures.failing_at 3) 1 Fixtures.db_two_accounts)) = None
  /\ txn (snd (deleteAccount Fixtures.quiet 1 Fixtures.db_two_accounts)) = None.
Proof.
  split.
  - apply (proj1 (no_transaction_left_open (Fixtures.failing_at 3))). reflexivity.
  - apply (proj1 (no_transaction_left_open Fixtures.quiet)). reflexivity.
Defined.

(** *** Accounts *)

Section Accounts.

Variable env : Env.

(** In well-formed tables the row found for an id is the row with that id. *)
Lemma find_by_id {A} (key : A -> Z) (rows : list A) (row : A) :
  NoDup (map key rows) ->
  In row rows ->
  find (fun r => Z.eqb (key r) (key row)) rows = Some row.
Proof.
  induction rows as [|r rows IH]; intros Hnd Hin; [destruct Hin|].
  cbn in *. inversion Hnd as [|? ? Hnotin Hnd']; subst.
  destruct Hin as [->|Hin]; [now rewrite Z.eqb_refl|].
  destruct (Z.eqb_spec (key r) (key row)) as [E|_]; [|now apply IH].
  exfalso. apply Hnotin. rewrite E. now apply in_map.
Qed.

Lemma find_by_id_none {A} (key : A -> Z) (rows : list A) (id : Z) :
  find (fun r => Z.eqb (key r) id) rows = None <-> ~ In id (map key rows).
Proof.
  split.
  - intros Hnone Hin. apply in_map_iff in Hin as (r & Hk & Hin).
    apply (find_none _ _ Hnone) in Hin. cbn in Hin. rewrite Hk, Z.eqb_refl in Hin. discriminate.
  - intros Hnotin. destruct (find _ rows) as [r|] eqn:E; [|reflexivity].
    apply find_some in E as [Hin Hk]. apply Z.eqb_eq in Hk.
    exfalso. apply Hnotin. rewrite <- Hk. now apply in_map.
Qed.

End Accounts.

(** X3.  In well-formed tables [getAccount] is an exact lookup: it returns
    an account if and only if that account is stored under the id asked for,
    and returns nothing if and only if no stored account has that id. *)
Theorem getAccount_is_exact (env : Env) (id : Z) (d : Database) :
  opened d = true ->
  fault env (List.length (log d)) = false ->
  well_formed (tables d) ->
  (forall account,
      fst (getAccount env id d) = Ok (Some account)
      <-> In account (aws_accounts (tables d)) /\ a_id account = id)
  /\ (fst (getAccount env id d) = Ok None
      <-> forall account, In account (aws_accounts (tables d)) -> a_id account <> id).
Proof.
  intros Hopen Hfault (_ & _ & _ & [Hnd _] & _).
  rewrite getAccount_runs by assumption. cbn [fst]. split.
  - intros account. split.
    + intros [= Hfind]. apply find_some in Hfind as [Hin Hk]. now apply Z.eqb_eq in Hk.
    + intros [Hin <-]. f_equal. now apply find_by_id.
  - split.
    + intros [= Hnone] account Hin Hk.
      apply (proj1 (find_by_id_none a_id _ id) Hnone). rewrite <- Hk. now apply in_map.
    + intros Hnone. f_equal. apply find_by_id_none. intros Hin.
      apply in_map_iff in Hin as (r & Hk & Hin). now apply (Hnone r).
Qed.

Lemma getAccount_is_exact_witness :
  fst (getAccount Fixtures.quiet 2 Fixtures.db_two_accounts) = Ok (Some Fixtures.dev_account).
Proof.
  destruct (getAccount_is_exact Fixtures.quiet 2 Fixtures.db_two_accounts) as [Hsome _].
  - reflexivity.
  - reflexivity.
  - apply well_formed_intro; cbn; try lia; try split;
      repeat (constructor; cbn; try lia; try (intuition discriminate)).
  - apply Hsome. split; [right; left; reflexivity | reflexivity].
Defined.

(** X4.  [addAccount] on well-formed tables: an external account id that is
    already stored is refused and the tables stay as they are; a new one gets
    the next id of the sequence, the account is then the last of
    [getAccounts], and [getAccount] of the returned id gives back exactly the
    fields that were added. *)
Theorem addAccount_round_trip
        (env : Env) (accountId accountName accessKeyId secretAccessKey : string)
        (sessionToken : option string) (d : Database) :
  opened d = true ->
  well_formed (tables d) ->
  fault env (List.length (log d)) = false ->
  fault env (S (List.length (log d))) = false ->
  let run := addAccount env accountId accountName accessKeyId secretAccessKey sessionToken d in
  let added :=
    {| a_id := seq_accounts (tables d) + 1; a_accountId := accountId;
       a_accountName := accountName; a_accessKeyId := accessKeyId;
       a_secretAccessKey := secretAccessKey; a_sessionToken := sessionToken;
       a_createdAt := now env (List.length (log d));
       a_updatedAt := now env (List.length (log d)) |} in
  (In accountId (map a_accountId (aws_accounts (tables d))) ->
     fst run = Throw (constraint_error "aws_accounts.account_id")
     /\ tables (snd run) = tables d)
  /\ (~ In accountId (map a_accountId (aws_accounts (tables d))) ->
        fst run = Ok (a_id added)
        /\ fst (getAccount env (a_id added) (snd run)) = Ok (Some added)
        /\ fst (getAccounts env (snd run)) = Ok (aws_accounts (tables d) ++ [added])).
Proof.
  intros Hopen Hwf Hf0 Hf1 run added. subst run.
  unfold addAccount, Sqlite.bind.
  rewrite ensureInitialized_opened, on_tables_runs by assumption.
  destruct (existsb (fun a => String.eqb (a_accountId a) accountId) (aws_accounts (tables d)))
    eqn:Hex.
  - split; [intros _; split; reflexivity|].
    intros Hnotin. exfalso. apply Hnotin.
    apply existsb_exists in Hex as (a & Hin & Hk). apply String.eqb_eq in Hk.
    rewrite <- Hk. now apply in_map.
  - split.
    { intros Hin. exfalso. revert Hin. now apply existsb_eqb_false_not_in. }
    intros _. cbn [fst snd]. split; [reflexivity|].
    destruct Hwf as (Hseq & _ & _ & [Hnd Hall] & _).
    split.
    + rewrite getAccount_runs; cbn [opened with_tables with_log log tables aws_accounts fst];
        try assumption.
      2:{ rewrite length_app. cbn. now rewrite Nat.add_1_r. }
      f_equal.
      change (seq_accounts (tables d) + 1) with (a_id added).
      apply find_by_id; [|apply in_or_app; right; now left].
      rewrite map_app. cbn. apply NoDup_app; [exact Hnd | repeat constructor; intros [] |].
      intros k Hin [<-|[]]. apply in_map_iff in Hin as (r & Hr & Hin).
      rewrite Forall_forall in Hall. specialize (Hall r Hin). lia.
    + rewrite getAccounts_runs; cbn [opened with_tables with_log log tables aws_accounts fst];
        try assumption; [reflexivity|].
      rewrite length_app. cbn. now rewrite Nat.add_1_r.
Qed.

Lemma addAccount_round_trip_witness :
  fst (addAccount Fixtures.quiet "777788889999" "staging" "AKIAEXAMPLE3" "secret3" None
         Fixtures.db_two_accounts) = Ok 3
  /\ fst (addAccount Fixtures.quiet "111122223333" "again" "AKIAEXAMPLE3" "secret3" None
            Fixtures.db_two_accounts)
     = Throw (constraint_error "aws_accounts.account_id").
Proof.
  assert (Hwf : well_formed (tables Fixtures.db_two_accounts)).
  { apply well_formed_intro; cbn; try lia; try split;
      repeat (constructor; cbn; try lia; try (intuition discriminate)). }
  split.
  - apply (addAccount_round_trip Fixtures.quiet "777788889999" "staging" "AKIAEXAMPLE3"
             "secret3" None Fixtures.db_two_accounts eq_refl Hwf eq_refl eq_refl).
    cbn. intuition discriminate.
  - apply (addAccount_round_trip Fixtures.quiet "111122223333" "again" "AKIAEXAMPLE3"
             "secret3" None Fixtures.db_two_accounts eq_refl Hwf eq_refl eq_refl).
    cbn. now left.
Defined.

(** *** Findings: queries *)

Lemma insert_desc_perm (x : AssetFinding) (l : list AssetFinding) :
  Permutation (insert_desc x l) (x :: l).
Proof.
  induction l as [|y l IH]; cbn; [reflexivity|].
  destruct (Z.leb (f_createdAt y) (f_createdAt x)); [reflexivity|].
  rewrite IH. apply perm_swap.
Qed.

Lemma order_by_created_at_desc_perm (l : list AssetFinding) :
  Permutation (order_by_created_at_desc l) l.
Proof.
  induction l as [|x l IH]; cbn; [reflexivity|].
  change (fold_right insert_desc [] l) with (order_by_created_at_desc l).
  rewrite insert_desc_perm. now constructor.
Qed.

Lemma insert_desc_sorted (x : AssetFinding) (l : list AssetFinding) :
  StronglySorted not_older l -> StronglySorted not_older (insert_desc x l).
Proof.
  induction l as [|y l IH]; intros Hs; cbn.
  - repeat constructor.
  - inversion Hs as [|? ? Hs' Hall]; subst.
    destruct (Z.leb_spec (f_createdAt y) (f_createdAt x)) as [Hle|Hlt].
    + constructor; [exact Hs|]. constructor; [exact Hle|].
      eapply Forall_impl; [|exact Hall]. unfold not_older. intros z Hz. lia.
    + constructor; [now apply IH|].
      apply (Permutation_Forall (Permutation_sym (insert_desc_perm x l))).
      constructor; [unfold not_older; lia | exact Hall].
Qed.

Lemma order_by_created_at_desc_sorted (l : list AssetFinding) :
  StronglySorted not_older (order_by_created_at_desc l).
Proof.
  induction l as [|x l IH]; cbn; [constructor|]. now apply insert_desc_sorted.
Qed.

(** The WHERE clause [getFindings] builds selects what the filter object says. *)
Lemma where_clause_selects (f : Filters) (row : AssetFinding) :
  let acc :=
    push_string Col_severity (flt_severity f)
      (push_string Col_service (flt_service f)
         (push_string Col_region (flt_region f)
            (push_number Col_account_id (flt_accountId f) ([], [])))) in
  where_clause (fst acc) (snd acc) row = selected_by f row.
Proof.
  destruct f as [[a|] [r|] [s|] [v|]];
    unfold selected_by, push_string, push_number, where_clause; cbn;
    repeat match goal with
           | |- context [truthy_number ?z] => destruct (truthy_number z); cbn
           | |- context [truthy_string ?z] => destruct (truthy_string z); cbn
           end;
    rewrite ?andb_true_r, ?andb_assoc; reflexivity.
Qed.

(** X5.  [getFindings] returns exactly the stored rows that agree with every
    filter field that is present and truthy, each once, newest first, and
    leaves the tables as they are. *)
Theorem getFindings_selects_newest_first (env : Env) (f : Filters) (d : Database) :
  opened d = true ->
  fault env (List.length (log d)) = false ->
  exists rows,
    fst (getFindings env f d) = Ok rows
    /\ Permutation rows (filter (selected_by f) (asset_findings (tables d)))
    /\ StronglySorted not_older rows
    /\ tables (snd (getFindings env f d)) = tables d.
Proof.
  intros Hopen Hfault.
  unfold getFindings, Sqlite.bind.
  rewrite ensureInitialized_opened, on_tables_runs by assumption.
  cbn [fst snd ret]. rewrite map_id.
  eexists. split; [reflexivity|]. split; [|split].
  - rewrite order_by_created_at_desc_perm.
    erewrite filter_ext; [reflexivity|]. intros row. apply where_clause_selects.
  - apply order_by_created_at_desc_sorted.
  - reflexivity.
Qed.

Lemma getFindings_selects_newest_first_witness :
  exists rows,
    fst (getFindings Fixtures.quiet
           {| flt_accountId := Some 2; flt_region := Some "us-east-1";
              flt_service := Some ""; flt_severity := None |}
           Fixtures.db_two_accounts) = Ok rows
    /\ Permutation rows [Fixtures.stored 2 2 "us-east-1" (Fixtures.sample "KMS" "old")]
    /\ StronglySorted not_older rows
    /\ tables (snd (getFindings Fixtures.quiet
                      {| flt_accountId := Some 2; flt_region := Some "us-east-1";
                         flt_service := Some ""; flt_severity := None |}
                      Fixtures.db_two_accounts))
       = tables Fixtures.db_two_accounts.
Proof.
  exact (getFindings_selects_newest_first Fixtures.quiet
           {| flt_accountId := Some 2; flt_region := Some "us-east-1";
              flt_service := Some ""; flt_severity := None |}
           Fixtures.db_two_accounts eq_refl eq_refl).
Defined.

(** *** Findings: statistics *)

Section Grouping.

Import OrderedTypeEx.

Lemma sum_from (groups : list (string * Z)) (a : Z) :
  fold_left (fun sum curr => sum + snd curr) groups a = a + sum_of_counts groups.
Proof.
  unfold sum_of_counts. revert a. induction groups as [|g groups IH]; intros a; cbn.
  - lia.
  - rewrite IH, (IH (snd g)). lia.
Qed.

Lemma sum_of_counts_cons (g : string * Z) (groups : list (string * Z)) :
  sum_of_counts (g :: groups) = snd g + sum_of_counts groups.
Proof.
  unfold sum_of_counts at 1. cbn. now rewrite sum_from.
Qed.

Lemma bump_sum (k : string) (groups : list (string * Z)) :
  sum_of_counts (bump k groups) = sum_of_counts groups + 1.
Proof.
  induction groups as [|[k' c] groups IH]; cbn [bump].
  - reflexivity.
  - destruct (String.compare k k').
    + rewrite !sum_of_counts_cons. cbn [snd]. lia.
    + rewrite !sum_of_counts_cons. cbn [snd]. lia.
    + rewrite !sum_of_counts_cons, IH. cbn [snd]. lia.
Qed.

Lemma bump_keys (k : string) (groups : list (string * Z)) (g : string * Z) :
  In g (bump k groups) -> fst g = k \/ In (fst g) (map fst groups).
Proof.
  induction groups as [|[k' c] groups IH]; cbn.
  - intros [<-|[]]. now left.
  - destruct (String.compare k k') eqn:E; cbn.
    + intros [<-|Hin]; [right; now left|]. right. right. now apply in_map.
    + intros [<-|[<-|Hin]]; [now left | right; now left |]. right. right. now apply in_map.
    + intros [<-|Hin]; [right; now left|]. destruct (IH Hin); [now left | right; now right].
Qed.

Lemma bump_sorted (k : string) (groups : list (string * Z)) :
  keys_increase groups -> keys_increase (bump k groups).
Proof.
  unfold keys_increase. induction groups as [|[k' c] groups IH]; intros Hs; cbn.
  - repeat constructor.
  - inversion Hs as [|? ? Hs' Hall]; subst.
    destruct (String.compare k k') eqn:E.
    + apply String_as_OT.cmp_eq in E. subst k'. constructor; assumption.
    + apply String_as_OT.cmp_lt in E. constructor; [exact Hs|].
      constructor; [exact E|]. eapply Forall_impl; [|exact Hall].
      cbn. intros g Hg. eapply String_as_OT.lt_trans; eassumption.
    + constructor; [now apply IH|].
      assert (Hlt : String_as_OT.lt k' k).
      { apply String_as_OT.cmp_lt. rewrite String_as_OT.cmp_antisym.
        unfold String_as_OT.cmp. now rewrite E. }
      rewrite Forall_forall in *. intros g Hin. cbn.
      destruct (bump_keys k groups g Hin) as [->|Hk]; [exact Hlt|].
      apply in_map_iff in Hk as (g' & Hfst & Hin'). rewrite <- Hfst. now apply Hall.
Qed.

Lemma count_for_absent (k : string) (groups : list (string * Z)) :
  ~ In k (map fst groups) -> count_for k groups = 0.
Proof.
  induction groups as [|[k' c] groups IH]; cbn; [reflexivity|].
  intros Hnotin. destruct (String.eqb_spec k k') as [->|_]; [|apply IH; tauto].
  exfalso. apply Hnotin. now left.
Qed.

Lemma keys_above (k : string) (g : string * Z) (groups : list (string * Z)) :
  String_as_OT.lt k (fst g) ->
  Forall (fun b => String_as_OT.lt (fst g) (fst b)) groups ->
  ~ In k (map fst (g :: groups)).
Proof.
  intros Hlt Hall [Hk|Hin].
  - symmetry in Hk. now apply String_as_OT.lt_not_eq in Hlt.
  - apply in_map_iff in Hin as (g' & Hfst & Hin).
    rewrite Forall_forall in Hall. specialize (Hall g' Hin). rewrite Hfst in Hall.
    apply (String_as_OT.lt_not_eq k k); [|reflexivity].
    eapply String_as_OT.lt_trans; eassumption.
Qed.

Lemma bump_count_same (k : string) (groups : list (string * Z)) :
  keys_increase groups ->
  count_for k (bump k groups) = count_for k groups + 1.
Proof.
  unfold keys_increase. induction groups as [|[k' c] groups IH]; intros Hs; cbn.
  - now rewrite String.eqb_refl.
  - inversion Hs as [|? ? Hs' Hall]; subst.
    destruct (String.compare k k') eqn:E.
    + apply String_as_OT.cmp_eq in E. subst k'. cbn. now rewrite String.eqb_refl.
    + apply String_as_OT.cmp_lt in E. cbn. rewrite String.eqb_refl.
      change (if String.eqb k k' then c else count_for k groups)
        with (count_for k ((k', c) :: groups)).
      rewrite count_for_absent; [reflexivity|]. now apply keys_above.
    + cbn. destruct (String.eqb_spec k k') as [->|_]; [|now apply IH].
      assert (String.compare k' k' = Eq) as Hrefl by now apply String_as_OT.cmp_eq.
      congruence.
Qed.

Lemma bump_count_other (k k' : string) (groups : list (string * Z)) :
  k' <> k ->
  count_for k' (bump k groups) = count_for k' groups.
Proof.
  intros Hne. induction groups as [|[k'' c] groups IH]; cbn.
  - destruct (String.eqb_spec k' k); [contradiction | reflexivity].
  - destruct (String.compare k k'') eqn:E; cbn.
    + apply String_as_OT.cmp_eq in E. subst k''.
      destruct (String.eqb_spec k' k); [contradiction | reflexivity].
    + destruct (String.eqb_spec k' k); [contradiction | reflexivity].
    + now rewrite IH.
Qed.

Lemma bump_positive (k : string) (groups : list (string * Z)) :
  Forall (fun g => 0 < snd g) groups -> Forall (fun g => 0 < snd g) (bump k groups).
Proof.
  induction groups as [|[k' c] groups IH]; intros Hall; cbn.
  - repeat constructor.
  - inversion Hall as [|? ? Hc Hall']; subst. cbn in Hc.
    destruct (String.compare k k'); constructor; cbn; try lia; auto.
Qed.

(** What grouping and counting gives, from any sorted intermediate result *)
Lemma group_count_from (key : AssetFinding -> string) (rows : list AssetFinding) :
  forall groups,
    keys_increase groups ->
    Forall (fun g => 0 < snd g) groups ->
    let result := fold_left (fun groups row => bump (key row) groups) rows groups in
    keys_increase result
    /\ Forall (fun g => 0 < snd g) result
    /\ sum_of_counts result = sum_of_counts groups + Z.of_nat (List.length rows)
    /\ forall k, count_for k result = count_for k groups + rows_with key k rows.
Proof.
  unfold rows_with.
  induction rows as [|row rows IH]; intros groups Hs Hpos; cbn [fold_left].
  - split; [exact Hs|]. split; [exact Hpos|]. split; [cbn [List.length]; lia|].
    intros k. cbn [filter List.length]. lia.
  - destruct (IH (bump (key row) groups)) as (Hs' & Hpos' & Hsum & Hcount).
    { now apply bump_sorted. }
    { now apply bump_positive. }
    split; [exact Hs'|]. split; [exact Hpos'|]. split.
    + rewrite Hsum, bump_sum. cbn [List.length]. lia.
    + intros k. rewrite Hcount. cbn [filter].
      destruct (String.eqb_spec (key row) k) as [<-|Hne].
      * rewrite bump_count_same by assumption. cbn [List.length]. lia.
      * rewrite bump_count_other by congruence. lia.
Qed.

Lemma group_count_spec (key : AssetFinding -> string) (rows : list AssetFinding) :
  keys_increase (group_count key rows)
  /\ Forall (fun g => 0 < snd g) (group_count key rows)
  /\ sum_of_counts (group_count key rows) = Z.of_nat (List.length rows)
  /\ forall k, count_for k (group_count key rows) = rows_with key k rows.
Proof.
  destruct (group_count_from key rows []) as (Hs & Hpos & Hsum & Hcount);
    [constructor | constructor |].
  split; [exact Hs|]. split; [exact Hpos|]. split; [exact Hsum|]. exact Hcount.
Qed.

End Grouping.

(** X6.  [getFindingStats] counts the findings of the account asked for, or
    all findings when no account id, or 0, is given: [totalFindings] is their
    number and also the sum of the per-service counts; the count listed for a
    severity or a service is the number of those findings that have it (a key
    that is not listed has none); each key is listed once, keys in increasing
    order, and no listed count is zero. *)
Theorem getFindingStats_counts (env : Env) (accountId : option Z) (d : Database) :
  opened d = true ->
  fault env (List.length (log d)) = false ->
  fault env (S (List.length (log d))) = false ->
  let rows := rows_counted accountId (tables d) in
  exists stats,
    fst (getFindingStats env accountId d) = Ok stats
    /\ totalFindings stats = Z.of_nat (List.length rows)
    /\ sum_of_counts (byService stats) = totalFindings stats
    /\ (forall k, count_for k (bySeverity stats)
                  = rows_with (fun row => severity_text (severity (f_fields row))) k rows)
    /\ (forall k, count_for k (byService stats)
                  = rows_with (fun row => service (f_fields row)) k rows)
    /\ keys_increase (bySeverity stats) /\ keys_increase (byService stats)
    /\ Forall (fun g => 0 < snd g) (bySeverity stats)
    /\ Forall (fun g => 0 < snd g) (byService stats).
Proof.
  intros Hopen Hf0 Hf1 rows.
  unfold getFindingStats, Sqlite.bind at 1.
  rewrite ensureInitialized_opened by assumption.
  unfold Sqlite.bind, both.
  rewrite on_tables_runs by assumption.
  rewrite on_tables_runs.
  2:{ cbn. rewrite length_app. cbn. now rewrite Nat.add_1_r. }
  cbn [fst snd ret schema tables with_tables with_log].
  assert (Hrows : stats_rows
                    match accountId with
                    | Some z => if truthy_number z then [VInt z] else []
                    | None => []
                    end (tables d) = rows).
  { unfold rows, rows_counted, stats_rows.
    destruct accountId as [z|]; [|reflexivity]. now destruct (truthy_number z). }
  rewrite Hrows.
  destruct (group_count_spec (fun row => severity_text (severity (f_fields row))) rows)
    as (Hs1 & Hp1 & Hsum1 & Hc1).
  destruct (group_count_spec (fun row => service (f_fields row)) rows)
    as (Hs2 & Hp2 & Hsum2 & Hc2).
  eexists. split; [reflexivity|]. cbn [totalFindings bySeverity byService].
  fold (sum_of_counts (group_count (fun row => severity_text (severity (f_fields row))) rows)).
  rewrite Hsum1, Hsum2. repeat split; assumption.
Qed.

Lemma getFindingStats_counts_witness :
  exists stats,
    fst (getFindingStats Fixtures.quiet (Some 0) Fixtures.db_two_accounts) = Ok stats
    /\ totalFindings stats = 2
    /\ sum_of_counts (byService stats) = totalFindings stats
    /\ count_for "HIGH" (bySeverity stats) = 2
    /\ count_for "LOW" (bySeverity stats) = 0
    /\ count_for "KMS" (byService stats) = 1.
Proof.
  destruct (getFindingStats_counts Fixtures.quiet (Some 0) Fixtures.db_two_accounts
              eq_refl eq_refl eq_refl)
    as (stats & Hrun & Htotal & Hsum & Hsev & Hsvc & _).
  exists stats. split; [exact Hrun|]. split; [exact Htotal|]. split; [exact Hsum|].
  split; [apply Hsev|]. split; [apply Hsev | apply Hsvc].
Defined.

(** *** What an operation leaves of the connection *)

Section Extending.

Variable env : Env.

Lemma extends_ret {A} (a : A) : extends (ret a).
Proof. intros d. split; [reflexivity|]. exists []. now rewrite app_nil_r. Qed.

Lemma extends_throw {A} (e : Thrown) : extends (@throw A e).
Proof. intros d. split; [reflexivity|]. exists []. now rewrite app_nil_r. Qed.

Lemma extends_lift {A} (o : Outcome A) : extends (lift o).
Proof. intros d. split; [reflexivity|]. exists []. now rewrite app_nil_r. Qed.

Lemma extends_then {A B} (m : M A) (k : A -> M B) (d : Database) (r : Outcome A) (d1 : Database) :
  m d = (r, d1) ->
  extends m ->
  (forall a, extends (k a)) ->
  forall a, opened (snd (k a d1)) = opened d /\ exists l, log (snd (k a d1)) = log d ++ l.
Proof.
  intros Hrun Hm Hk a. destruct (Hm d) as (Ho & l & Hl). rewrite Hrun in Ho, Hl. cbn in Ho, Hl.
  destruct (Hk a d1) as (Ho' & l' & Hl'). split; [congruence|].
  exists (l ++ l'). now rewrite Hl', Hl, app_assoc.
Qed.

Lemma extends_bind {A B} (m : M A) (k : A -> M B) :
  extends m -> (forall a, extends (k a)) -> extends (Sqlite.bind m k).
Proof.
  intros Hm Hk d. unfold Sqlite.bind.
  destruct (m d) as [[a|e] d1] eqn:Hrun.
  - now apply (extends_then m k d (Ok a) d1).
  - specialize (Hm d). now rewrite Hrun in Hm.
Qed.

Lemma extends_try_catch {A} (m : M A) (h : Thrown -> M A) :
  extends m -> (forall e, extends (h e)) -> extends (try_catch m h).
Proof.
  intros Hm Hh d. unfold try_catch.
  destruct (m d) as [[a|e] d1] eqn:Hrun.
  - specialize (Hm d). now rewrite Hrun in Hm.
  - destruct (Hm d) as (Ho & l & Hl). rewrite Hrun in Ho, Hl. cbn in Ho, Hl.
    destruct (Hh e d1) as (Ho' & l' & Hl'). split; [congruence|].
    exists (l ++ l'). now rewrite Hl', Hl, app_assoc.
Qed.

Lemma extends_both {A B} (p : M A) (q : M B) : extends p -> extends q -> extends (both p q).
Proof.
  intros Hp Hq d. unfold both.
  destruct (Hp d) as (Ho & l & Hl). destruct (p d) as [ra d1]. cbn in Ho, Hl.
  destruct (Hq d1) as (Ho' & l' & Hl'). destruct (q d1) as [rb d2]. cbn in *.
  split; [congruence|]. exists (l ++ l'). now rewrite Hl', Hl, app_assoc.
Qed.

Lemma extends_ensureInitialized : extends ensureInitialized.
Proof.
  intros d. unfold ensureInitialized.
  destruct (opened d) eqn:E; cbn; (split; [exact E|]); exists []; now rewrite app_nil_r.
Qed.

Lemma extends_on_tables {A} (s : Stmt) (body : nat -> Schema -> Tables -> Outcome (A * Tables)) :
  extends (on_tables env s body).
Proof.
  intros d. destruct (on_tables_frame env s body d) as (Ho & _ & _ & Hl).
  split; [exact Ho|]. now exists [s].
Qed.

Lemma extends_begin : extends (sql_begin env).
Proof.
  intros d. unfold sql_begin, issue.
  destruct (fault env _); cbn; [split; [reflexivity|]; now eexists|].
  destruct (txn d); cbn; (split; [reflexivity|]); now eexists.
Qed.

Lemma extends_commit : extends (sql_commit env).
Proof.
  intros d. unfold sql_commit, issue.
  destruct (fault env _); cbn; [split; [reflexivity|]; now eexists|].
  destruct (txn d); cbn; (split; [reflexivity|]); now eexists.
Qed.

Lemma extends_rollback : extends sql_rollback.
Proof.
  intros d. unfold sql_rollback. cbn.
  destruct (txn d); cbn; (split; [reflexivity|]); now eexists.
Qed.

Lemma extends_storeFindingsForAccount (accountId : Z) (findings : list RegionFinding) :
  extends (storeFindingsForAccount env accountId findings).
Proof.
  unfold storeFindingsForAccount, prepare_insert_finding, stmt_finalize.
  apply extends_bind; [apply extends_ensureInitialized|]. intros _.
  apply extends_bind; [apply extends_on_tables|]. intros _.
  apply extends_bind; [|intros _; apply extends_on_tables].
  induction findings as [|f rest IH]; cbn [run_each]; [apply extends_ret|].
  apply extends_bind; [apply extends_on_tables | intros _; exact IH].
Qed.

Lemma extends_deleteAccount (id : Z) : extends (deleteAccount env id).
Proof.
  unfold deleteAccount, delete_findings_of, delete_regions_of, delete_account_row.
  apply extends_bind; [apply extends_ensureInitialized|]. intros _.
  apply extends_bind; [apply extends_begin|]. intros _.
  apply extends_try_catch.
  - repeat (apply extends_bind; [apply extends_on_tables | intros _]). apply extends_commit.
  - intros e. apply extends_bind; [apply extends_rollback | intros _; apply extends_throw].
Qed.

Lemma extends_getAccount (id : Z) : extends (getAccount env id).
Proof.
  unfold getAccount. apply extends_bind; [apply extends_ensureInitialized|]. intros _.
  apply extends_bind; [apply extends_on_tables|]. intros [row|]; apply extends_ret.
Qed.

Lemma extends_scanAccount (world : World) (id : Z) : extends (scanAccount env world id).
Proof.
  unfold scanAccount. apply extends_bind; [apply extends_getAccount|].
  intros [account|]; [|apply extends_throw].
  apply extends_bind.
  { unfold getEnabledRegions.
    apply extends_bind; [apply extends_ensureInitialized | intros _; apply extends_on_tables]. }
  intros regions.
  apply extends_bind; [apply extends_lift|]. intros allFindings.
  apply extends_bind; [|intros _; apply extends_ret].
  apply extends_try_catch; [apply extends_storeFindingsForAccount | intros e; apply extends_throw].
Qed.

Lemma quiet_from_extended (d d' : Database) (l : list Stmt) :
  quiet_from env (List.length (log d)) ->
  log d' = log d ++ l ->
  quiet_from env (List.length (log d')).
Proof.
  intros Hq Hl m Hm. apply Hq. rewrite Hl, length_app in Hm. lia.
Qed.

End Extending.

(** *** Findings: the bulk insert when nothing fails *)

Section BulkInsertSucceeds.

Variable env : Env.

Lemma rows_for_as_written (accountId : Z) (findings : list RegionFinding) :
  forall n seq,
    map as_written (rows_for env accountId n seq findings)
    = map (fun f => (accountId, f)) findings.
Proof.
  induction findings as [|[region f] rest IH]; intros n seq; cbn; [reflexivity|].
  now rewrite IH.
Qed.

Lemma rows_for_length (accountId : Z) (findings : list RegionFinding) :
  forall n seq,
    List.length (rows_for env accountId n seq findings) = List.length findings.
Proof.
  induction findings as [|f rest IH]; intros n seq; cbn; [reflexivity|]. now rewrite IH.
Qed.

(** The insert loop touches no table but [asset_findings]. *)
Lemma run_each_other_tables (accountId : Z) (findings : list RegionFinding) :
  forall d,
    aws_accounts (tables (snd (run_each env accountId findings d))) = aws_accounts (tables d)
    /\ aws_regions (tables (snd (run_each env accountId findings d))) = aws_regions (tables d).
Proof.
  induction findings as [|f rest IH]; intros d; cbn [run_each]; [now split|].
  unfold Sqlite.bind, stmt_run, on_tables, issue.
  destruct (fault env _); cbn; [now split|].
  match goal with |- context [run_each env accountId rest ?d1] => destruct (IH d1) as [Ha Hr] end.
  now rewrite Ha, Hr.
Qed.

Lemma storeFindingsForAccount_succeeds (accountId : Z) (findings : list RegionFinding)
      (d : Database) :
  opened d = true ->
  quiet_from env (List.length (log d)) ->
  let d' := snd (storeFindingsForAccount env accountId findings d) in
  fst (storeFindingsForAccount env accountId findings d) = Ok tt
  /\ asset_findings (tables d')
     = asset_findings (tables d)
       ++ rows_for env accountId (S (List.length (log d))) (seq_findings (tables d)) findings
  /\ aws_accounts (tables d') = aws_accounts (tables d)
  /\ aws_regions (tables d') = aws_regions (tables d).
Proof.
  intros Hopen Hq d'. subst d'.
  rewrite storeFindingsForAccount_after_prepare by (try assumption; apply Hq; lia).
  set (d1 := with_log d (log d ++ [PREPARE_insert_finding])).
  destruct (run_each_all env accountId findings d1) as (Hok & Hrows).
  { intros n Hn. apply Hq. unfold d1 in Hn. cbn in Hn. rewrite length_app in Hn. lia. }
  destruct (run_each_other_tables accountId findings d1) as (Hacc & Hreg).
  destruct (run_each_log env accountId findings d1) as (l & Hl).
  destruct (run_each env accountId findings d1) as [[u|e] d2]; cbn [fst snd] in *;
    [|discriminate].
  unfold stmt_finalize. rewrite on_tables_runs.
  2:{ apply Hq. rewrite Hl. unfold d1. cbn. rewrite !length_app. lia. }
  cbn [fst snd tables with_tables with_log].
  split; [reflexivity|]. rewrite Hrows, Hacc, Hreg. unfold d1. cbn.
  rewrite length_app. cbn. rewrite Nat.add_1_r. repeat split.
Qed.

Lemma rows_for_own_account (accountId : Z) (findings : list RegionFinding) :
  forall n seq,
    filter (fun row => Z.eqb (f_accountId row) accountId)
           (rows_for env accountId n seq findings)
    = rows_for env accountId n seq findings.
Proof.
  induction findings as [|f rest IH]; intros n seq; cbn [rows_for filter]; [reflexivity|].
  cbn [f_accountId]. rewrite Z.eqb_refl. now rewrite IH.
Qed.

(** What [getFindings] returns when its statement goes through *)
Lemma getFindings_runs (f : Filters) (d : Database) :
  opened d = true ->
  fault env (List.length (log d)) = false ->
  fst (getFindings env f d)
  = Ok (order_by_created_at_desc (filter (selected_by f) (asset_findings (tables d)))).
Proof.
  intros Hopen Hfault.
  unfold getFindings, Sqlite.bind.
  rewrite ensureInitialized_opened, on_tables_runs by assumption.
  cbn [fst snd ret]. rewrite map_id. do 2 f_equal.
  apply filter_ext. intros row. apply where_clause_selects.
Qed.

End BulkInsertSucceeds.

(** X7.  When no statement fails, [storeFindingsForAccount] appends one row
    per finding, in the order of the list, each under the account id given and
    with the region and fields of its finding, and touches no other table.
    A query of the findings of that account then returns every finding of the
    list, and as many rows as it returned before plus the length of the list:
    nothing is merged or replaced. *)
Theorem stored_findings_are_retrieved
        (env : Env) (accountId : Z) (findings : list RegionFinding) (d : Database) :
  opened d = true ->
  quiet_from env (List.length (log d)) ->
  accountId <> 0 ->
  let of_account := {| flt_accountId := Some accountId; flt_region := None;
                       flt_service := None; flt_severity := None |} in
  let d' := snd (storeFindingsForAccount env accountId findings d) in
  fst (storeFindingsForAccount env accountId findings d) = Ok tt
  /\ (exists rows,
        asset_findings (tables d') = asset_findings (tables d) ++ rows
        /\ map as_written rows = map (fun f => (accountId, f)) findings)
  /\ aws_accounts (tables d') = aws_accounts (tables d)
  /\ aws_regions (tables d') = aws_regions (tables d)
  /\ exists before after,
       fst (getFindings env of_account d) = Ok before
       /\ fst (getFindings env of_account d') = Ok after
       /\ (forall f, In f findings -> In (accountId, f) (map as_written after))
       /\ List.length after = (List.length before + List.length findings)%nat.
Proof.
  intros Hopen Hq Hid of_account d'.
  destruct (storeFindingsForAccount_succeeds env accountId findings d Hopen Hq)
    as (Hok & Hrows & Hacc & Hreg).
  fold d' in Hrows, Hacc, Hreg.
  destruct (extends_storeFindingsForAccount env accountId findings d) as (Hopen' & l & Hl).
  fold d' in Hopen', Hl.
  split; [exact Hok|]. split.
  { eexists. split; [exact Hrows|]. apply rows_for_as_written. }
  split; [exact Hacc|]. split; [exact Hreg|].
  do 2 eexists.
  split; [apply getFindings_runs; [assumption | apply Hq; lia]|].
  split.
  { apply getFindings_runs; [congruence|].
    apply (quiet_from_extended env d d' l Hq Hl). lia. }
  assert (Hsel : forall row, selected_by of_account row = Z.eqb (f_accountId row) accountId).
  { intros row. unfold selected_by, of_account, truthy_number. cbn.
    destruct (Z.eqb_spec accountId 0); [contradiction|]. cbn. now rewrite !andb_true_r. }
  assert (Hnew : filter (selected_by of_account)
                   (rows_for env accountId (S (List.length (log d)))
                      (seq_findings (tables d)) findings)
                 = rows_for env accountId (S (List.length (log d)))
                     (seq_findings (tables d)) findings).
  { erewrite filter_ext; [apply rows_for_own_account | exact Hsel]. }
  split.
  - intros f Hin.
    eapply Permutation_in; [apply Permutation_map, Permutation_sym,
                               order_by_created_at_desc_perm|].
    rewrite Hrows, filter_app, Hnew, map_app, rows_for_as_written.
    apply in_or_app. right. now apply (in_map (fun f => (accountId, f))).
  - rewrite !(Permutation_length (order_by_created_at_desc_perm _)).
    now rewrite Hrows, filter_app, Hnew, length_app, rows_for_length.
Qed.

Lemma stored_findings_are_retrieved_witness :
  exists before after,
    fst (getFindings Fixtures.quiet
           {| flt_accountId := Some 1; flt_region := None;
              flt_service := None; flt_severity := None |}
           Fixtures.db_two_accounts) = Ok before
    /\ fst (getFindings Fixtures.quiet
              {| flt_accountId := Some 1; flt_region := None;
                 flt_service := None; flt_severity := None |}
              (snd (storeFindingsForAccount Fixtures.quiet 1
                      [stamp "us-east-1" (Fixtures.sample "IAM" "old");
                       stamp "us-east-1" (Fixtures.sample "IAM" "old")]
                      Fixtures.db_two_accounts))) = Ok after
    /\ List.length after = (List.length before + 2)%nat.
Proof.
  destruct (stored_findings_are_retrieved Fixtures.quiet 1
              [stamp "us-east-1" (Fixtures.sample "IAM" "old");
               stamp "us-east-1" (Fixtures.sample "IAM" "old")]
              Fixtures.db_two_accounts eq_refl)
    as (_ & _ & _ & _ & before & after & Hb & Ha & _ & Hlen).
  - intros m _. reflexivity.
  - discriminate.
  - exists before, after. repeat split; assumption.
Defined.

(** *** Regions: enabling and disabling *)

Section RegionStatus.

Variable env : Env.

Lemma updateRegionStatus_runs (id : Z) (enabled : option bool) (d : Database) :
  opened d = true ->
  fault env (List.length (log d)) = false ->
  fst (updateRegionStatus env id enabled d) = Ok tt
  /\ opened (snd (updateRegionStatus env id enabled d)) = true
  /\ log (snd (updateRegionStatus env id enabled d))
     = log d ++ [UPDATE_region_status id enabled]
  /\ aws_regions (tables (snd (updateRegionStatus env id enabled d)))
     = map (fun r =>
              if Z.eqb (r_id r) id
              then {| r_id := r_id r; r_accountId := r_accountId r; r_region := r_region r;
                      r_enabled := enabled;
                      r_createdAt := r_createdAt r;
                      r_updatedAt := now env (List.length (log d)) |}
              else r)
           (aws_regions (tables d)).
Proof.
  intros Hopen Hfault. unfold updateRegionStatus, Sqlite.bind.
  rewrite ensureInitialized_opened, on_tables_runs by assumption.
  cbn. repeat split. exact Hopen.
Qed.

End RegionStatus.

(** X8.  [updateRegionStatus] sets the flag of the region with the id given
    and of no other: it adds and removes no row and changes no row's id,
    account or region code; rows with another id are untouched, so an id that
    no region has changes nothing.  After disabling, no list of enabled
    regions contains that id; after enabling, the region is in the list of
    enabled regions of its account. *)
Theorem updateRegionStatus_toggles_one_region
        (env : Env) (id : Z) (enabled : option bool) (d : Database) :
  opened d = true ->
  fault env (List.length (log d)) = false ->
  fault env (S (List.length (log d))) = false ->
  let d' := snd (updateRegionStatus env id enabled d) in
  fst (updateRegionStatus env id enabled d) = Ok tt
  /\ map (fun r => (r_id r, r_accountId r, r_region r)) (aws_regions (tables d'))
     = map (fun r => (r_id r, r_accountId r, r_region r)) (aws_regions (tables d))
  /\ (forall r, In r (aws_regions (tables d')) -> r_id r = id -> r_enabled r = enabled)
  /\ (forall r, r_id r <> id ->
        (In r (aws_regions (tables d')) <-> In r (aws_regions (tables d))))
  /\ ((forall r, In r (aws_regions (tables d)) -> r_id r <> id) ->
        aws_regions (tables d') = aws_regions (tables d))
  /\ (enabled <> Some true ->
        forall accountId, exists regions,
          fst (getEnabledRegions env accountId d') = Ok regions
          /\ forall r, In r regions -> r_id r <> id)
  /\ (enabled = Some true ->
        forall r, In r (aws_regions (tables d)) -> r_id r = id ->
          exists regions r',
            fst (getEnabledRegions env (r_accountId r) d') = Ok regions
            /\ In r' regions /\ r_id r' = id /\ r_region r' = r_region r).
Proof.
  intros Hopen Hf0 Hf1 d'.
  destruct (updateRegionStatus_runs env id enabled d Hopen Hf0) as (Hok & Hopen' & Hlog & Hregs).
  fold d' in Hopen', Hlog, Hregs.
  assert (Hnext : fault env (List.length (log d')) = false).
  { rewrite Hlog, length_app. cbn. now rewrite Nat.add_1_r. }
  split; [exact Hok|]. rewrite Hregs. split; [|split; [|split; [|split; [|split]]]].
  - rewrite map_map. apply map_ext. intros r. now destruct (Z.eqb (r_id r) id).
  - intros r Hin Hid. apply in_map_iff in Hin as (r0 & Hr0 & Hin).
    destruct (Z.eqb_spec (r_id r0) id) as [E|E]; subst r; [reflexivity|contradiction].
  - intros r Hne. rewrite in_map_iff. split.
    + intros (r0 & Hr0 & Hin).
      destruct (Z.eqb_spec (r_id r0) id) as [E|E]; subst r; [now cbn in Hne | exact Hin].
    + intros Hin. exists r. split; [|exact Hin].
      destruct (Z.eqb_spec (r_id r) id); [contradiction | reflexivity].
  - intros Hnone. rewrite <- (map_id (aws_regions (tables d))) at 2.
    apply map_ext_in. intros r Hin.
    destruct (Z.eqb_spec (r_id r) id) as [E|E]; [now apply Hnone in Hin | reflexivity].
  - intros Hoff accountId. eexists. split.
    { rewrite getEnabledRegions_runs by assumption. reflexivity. }
    rewrite Hregs. intros r Hin Hid. apply filter_In in Hin as [Hin Hen].
    apply andb_true_iff in Hen as [_ Hen].
    apply in_map_iff in Hin as (r0 & Hr0 & Hin).
    destruct (Z.eqb_spec (r_id r0) id) as [E|E]; subst r; [|contradiction].
    unfold is_enabled in Hen. cbn in Hen. destruct enabled as [[|]|]; congruence.
  - intros -> r Hin Hid.
    exists (filter (fun x => Z.eqb (r_accountId x) (r_accountId r) && is_enabled x)
                   (aws_regions (tables d'))),
           {| r_id := r_id r; r_accountId := r_accountId r; r_region := r_region r;
              r_enabled := Some true; r_createdAt := r_createdAt r;
              r_updatedAt := now env (List.length (log d)) |}.
    split; [now rewrite getEnabledRegions_runs by assumption|].
    split; [|split; [exact Hid | reflexivity]].
    apply filter_In. split.
    + rewrite Hregs. apply in_map_iff. exists r. split; [|exact Hin].
      now rewrite Hid, Z.eqb_refl.
    + cbn. now rewrite Z.eqb_refl.
Qed.

Lemma updateRegionStatus_toggles_one_region_witness :
  exists regions,
    fst (getEnabledRegions Fixtures.quiet 1
           (snd (updateRegionStatus Fixtures.quiet 2 (Some false) Fixtures.db_two_accounts)))
    = Ok regions
    /\ forall r, In r regions -> r_id r <> 2.
Proof.
  destruct (updateRegionStatus_toggles_one_region Fixtures.quiet 2 (Some false)
              Fixtures.db_two_accounts eq_refl eq_refl eq_refl)
    as (_ & _ & _ & _ & _ & Hoff & _).
  apply Hoff. discriminate.
Defined.

(** *** Findings: one at a time, and by asset *)

(** X9.  [addFinding] returns the next id of the sequence and appends one
    row; [getFindingsByAsset] for the resource id of that finding then
    returns what it returned before followed by the new row, and for any
    other resource id exactly what it returned before. *)
Theorem addFinding_then_getFindingsByAsset
        (env : Env) (accountId : Z) (f : RegionFinding) (d : Database) :
  opened d = true ->
  fault env (List.length (log d)) = false ->
  fault env (S (List.length (log d))) = false ->
  let d' := snd (addFinding env accountId f d) in
  let row := {| f_id := seq_findings (tables d) + 1; f_accountId := accountId;
                f_region := rf_region f; f_fields := rf_finding f;
                f_createdAt := now env (List.length (log d));
                f_updatedAt := now env (List.length (log d)) |} in
  let of_asset := fun rid (t : Tables) =>
    filter (fun r => String.eqb (resourceId (f_fields r)) rid) (asset_findings t) in
  fst (addFinding env accountId f d) = Ok (f_id row)
  /\ fst (getFindingsByAsset env (resourceId (rf_finding f)) d)
     = Ok (of_asset (resourceId (rf_finding f)) (tables d))
  /\ fst (getFindingsByAsset env (resourceId (rf_finding f)) d')
     = Ok (of_asset (resourceId (rf_finding f)) (tables d) ++ [row])
  /\ forall rid, rid <> resourceId (rf_finding f) ->
       fst (getFindingsByAsset env rid d') = Ok (of_asset rid (tables d)).
Proof.
  intros Hopen Hf0 Hf1 d' row of_asset.
  assert (Hadd : addFinding env accountId f d
                 = (Ok (f_id row),
                    with_tables (with_log d (log d ++ [INSERT_finding accountId f]))
                      {| aws_accounts := aws_accounts (tables d);
                         aws_regions := aws_regions (tables d);
                         asset_findings := asset_findings (tables d) ++ [row];
                         seq_accounts := seq_accounts (tables d);
                         seq_regions := seq_regions (tables d);
                         seq_findings := f_id row |})).
  { unfold addFinding, Sqlite.bind.
    now rewrite ensureInitialized_opened, on_tables_runs by assumption. }
  assert (Hget : forall rid d0,
             opened d0 = true -> fault env (List.length (log d0)) = false ->
             fst (getFindingsByAsset env rid d0) = Ok (of_asset rid (tables d0))).
  { intros rid d0 Ho Hf. unfold getFindingsByAsset, Sqlite.bind.
    now rewrite ensureInitialized_opened, on_tables_runs by assumption. }
  subst d'. rewrite Hadd. cbn [fst snd].
  split; [reflexivity|]. split; [now apply Hget|].
  split.
  - rewrite Hget; cbn; try assumption.
    2:{ rewrite length_app. cbn. now rewrite Nat.add_1_r. }
    unfold of_asset. cbn. rewrite filter_app. cbn. now rewrite String.eqb_refl.
  - intros rid Hne. rewrite Hget; cbn; try assumption.
    2:{ rewrite length_app. cbn. now rewrite Nat.add_1_r. }
    unfold of_asset. cbn. rewrite filter_app. cbn.
    destruct (String.eqb_spec (resourceId (rf_finding f)) rid) as [E|_]; [congruence|].
    now rewrite app_nil_r.
Qed.

Lemma addFinding_then_getFindingsByAsset_witness :
  fst (addFinding Fixtures.quiet 2 (stamp "eu-west-1" (Fixtures.sample "KMS" "new"))
         Fixtures.db_two_accounts) = Ok 3
  /\ fst (getFindingsByAsset Fixtures.quiet "i-0123456789"
            (snd (addFinding Fixtures.quiet 2 (stamp "eu-west-1" (Fixtures.sample "KMS" "new"))
                    Fixtures.db_two_accounts))) = Ok [].
Proof.
  destruct (addFinding_then_getFindingsByAsset Fixtures.quiet 2
              (stamp "eu-west-1" (Fixtures.sample "KMS" "new"))
              Fixtures.db_two_accounts eq_refl eq_refl eq_refl) as (Hid & _ & _ & Hother).
  split; [exact Hid|]. apply Hother. discriminate.
Defined.

(* ================================================================== *)
(** ** Further properties: the orchestrator *)

Section ScanResults.

Variable world : World.
Variable account : AWSAccount.

(** When every credential check passes, the loop returns the findings of the
    regions, region after region. *)
Lemma scanRegions_all_pass (regions : list AWSRegion) :
  forall (i : nat) (allFindings : list RegionFinding),
    (forall j region, nth_error regions j = Some region ->
                      canary world account (i + j) region = Ok tt) ->
    scanRegions world account i regions allFindings
    = Ok (allFindings ++ findings_of_regions world account i regions).
Proof.
  induction regions as [|region rest IH]; intros i allFindings Hpass.
  - cbn. now rewrite app_nil_r.
  - rewrite scanRegions_step.
    2:{ specialize (Hpass 0%nat region eq_refl). now rewrite Nat.add_0_r in Hpass. }
    rewrite IH.
    + cbn [findings_of_regions]. now rewrite app_assoc.
    + intros j r Hnth. specialize (Hpass (S j) r Hnth).
      now rewrite <- Nat.add_succ_comm in Hpass.
Qed.

Lemma region_findings_stamped (s : Scanners) (region : AWSRegion) (f : RegionFinding) :
  In f (region_findings s account region) -> rf_region f = r_region region.
Proof.
  unfold region_findings. intros Hin. apply in_map_iff in Hin as (f0 & <- & _). reflexivity.
Qed.

(** Whatever the loop returns was found by the fan-out of one of its regions. *)
Lemma scanRegions_provenance (regions : list AWSRegion) :
  forall (i : nat) (allFindings fs : list RegionFinding),
    scanRegions world account i regions allFindings = Ok fs ->
    forall f, In f fs ->
      In f allFindings
      \/ exists j region,
           nth_error regions j = Some region
           /\ In f (region_findings (world (i + j)%nat FanOut) account region).
Proof.
  induction regions as [|region rest IH]; intros i allFindings fs Hrun f Hin.
  - cbn in Hrun. injection Hrun as <-. now left.
  - cbn [scanRegions] in Hrun.
    destruct (scanRegion_cases world account i region) as [H|H]; rewrite H in Hrun;
      cbn [and_then] in Hrun; [|discriminate].
    destruct (IH _ _ _ Hrun f Hin) as [Hacc|(j & r & Hnth & Hf)].
    + apply in_app_or in Hacc as [Hacc|Hnew]; [now left|].
      right. exists 0%nat, region. split; [reflexivity|]. now rewrite Nat.add_0_r.
    + right. exists (S j), r. split; [exact Hnth|]. now rewrite <- Nat.add_succ_comm.
Qed.

End ScanResults.

Section ScanInversion.

Variable env : Env.

Lemma getAccount_closed (id : Z) (d : Database) :
  opened d = false ->
  getAccount env id d
  = (Throw (new_Error "Database not initialized. Call initialize() first."), d).
Proof.
  intros Hopen. unfold getAccount, Sqlite.bind. now rewrite ensureInitialized_closed.
Qed.

Lemma getAccount_faults (id : Z) (d : Database) :
  opened d = true ->
  fault env (List.length (log d)) = true ->
  getAccount env id d = (Throw io_error, with_log d (log d ++ [SELECT_account id])).
Proof.
  intros Hopen Hfault. unfold getAccount, Sqlite.bind.
  now rewrite ensureInitialized_opened, on_tables_faults by assumption.
Qed.

Lemma getEnabledRegions_faults (id : Z) (d : Database) :
  opened d = true ->
  fault env (List.length (log d)) = true ->
  getEnabledRegions env id d
  = (Throw io_error, with_log d (log d ++ [SELECT_enabled_regions id])).
Proof.
  intros Hopen Hfault. unfold getEnabledRegions, Sqlite.bind.
  now rewrite ensureInitialized_opened, on_tables_faults by assumption.
Qed.

(** An id that no account has: the scan ends at once with "Account <id> not
    found", having sent one SELECT. *)
Lemma scanAccount_unknown_account (world : World) (id : Z) (d : Database) :
  opened d = true ->
  fault env (List.length (log d)) = false ->
  find (fun a => Z.eqb (a_id a) id) (aws_accounts (tables d)) = None ->
  scanAccount env world id d
  = (Throw (not_found id), with_log d (log d ++ [SELECT_account id])).
Proof.
  intros Hopen Hfault Hfind. unfold scanAccount, Sqlite.bind at 1.
  now rewrite getAccount_runs, Hfind by assumption.
Qed.

(** A scan that returns has read the account and its enabled regions, and
    its region loop has returned the same findings. *)
Lemma scanAccount_returned (world : World) (id : Z) (d d' : Database)
      (fs : list RegionFinding) :
  scanAccount env world id d = (Ok fs, d') ->
  opened d = true
  /\ exists account,
       find (fun a => Z.eqb (a_id a) id) (aws_accounts (tables d)) = Some account
       /\ scanRegions world account 0
            (filter (fun r => Z.eqb (r_accountId r) id && is_enabled r)
                    (aws_regions (tables d))) []
          = Ok fs.
Proof.
  intros Hrun.
  destruct (opened d) eqn:Hopen.
  2:{ unfold scanAccount, Sqlite.bind at 1 in Hrun.
      rewrite getAccount_closed in Hrun by assumption. discriminate. }
  split; [reflexivity|].
  destruct (fault env (List.length (log d))) eqn:Hf0.
  { unfold scanAccount, Sqlite.bind at 1 in Hrun.
    rewrite getAccount_faults in Hrun by assumption. discriminate. }
  destruct (find (fun a => Z.eqb (a_id a) id) (aws_accounts (tables d))) as [account|] eqn:Hfind.
  2:{ rewrite scanAccount_unknown_account in Hrun by assumption. discriminate. }
  exists account. split; [reflexivity|].
  destruct (fault env (S (List.length (log d)))) eqn:Hf1.
  { unfold scanAccount, Sqlite.bind at 1 in Hrun.
    rewrite getAccount_runs, Hfind in Hrun by assumption.
    unfold Sqlite.bind at 1 in Hrun.
    rewrite getEnabledRegions_faults in Hrun; [discriminate | assumption |].
    cbn. rewrite length_app. cbn. now rewrite Nat.add_1_r. }
  rewrite (scanAccount_after_reads env world id d account) in Hrun by assumption.
  destruct (scanRegions world account 0 _ []) as [allFindings|e]; [|discriminate].
  destruct (storeFindingsForAccount env id allFindings _) as [[u|e] d3]; [|discriminate].
  now injection Hrun as <- _.
Qed.

End ScanInversion.

(** X10.  On a database with the tables of service.ts, where [aws_regions]
    has no index and the enabled regions are read in the order of their ids:
    when the credential check of every enabled region passes and no statement
    fails, [scanAccount] returns the findings of the fan-outs of the enabled
    regions, region after region in that order, each finding under the code
    of its region; it appends one row per returned finding, in the same order
    and under the account id scanned, and leaves accounts and regions as they
    were: what is returned is what is stored. *)
Theorem scanAccount_returns_what_it_stores
        (env : Env) (world : World) (id : Z) (d : Database) (account : AWSAccount) :
  opened d = true ->
  regions_pair_unique (schema d) = false ->
  quiet_from env (List.length (log d)) ->
  find (fun a => Z.eqb (a_id a) id) (aws_accounts (tables d)) = Some account ->
  let enabledRegions :=
    filter (fun r => Z.eqb (r_accountId r) id && is_enabled r) (aws_regions (tables d)) in
  (forall i region, nth_error enabledRegions i = Some region ->
                    canary world account i region = Ok tt) ->
  let found := findings_of_regions world account 0 enabledRegions in
  let d' := snd (scanAccount env world id d) in
  fst (scanAccount env world id d) = Ok found
  /\ (exists rows,
        asset_findings (tables d') = asset_findings (tables d) ++ rows
        /\ map as_written rows = map (fun f => (id, f)) found)
  /\ aws_accounts (tables d') = aws_accounts (tables d)
  /\ aws_regions (tables d') = aws_regions (tables d).
Proof.
  intros Hopen _ Hq Hfind enabledRegions Hpass found d'. subst d'.
  rewrite (scanAccount_after_reads env world id d account); try assumption;
    try (apply Hq; lia).
  fold enabledRegions.
  rewrite (scanRegions_all_pass world account enabledRegions 0 []) by exact Hpass.
  cbn [app]. fold found.
  set (d2 := with_log d (log d ++ [SELECT_account id; SELECT_enabled_regions id])).
  destruct (storeFindingsForAccount_succeeds env id found d2) as (Hok & Hrows & Hacc & Hreg).
  { exact Hopen. }
  { intros m Hm. apply Hq. unfold d2 in Hm. cbn in Hm. rewrite length_app in Hm. lia. }
  destruct (storeFindingsForAccount env id found d2) as [[u|e] d3]; cbn [fst snd] in *;
    [|discriminate].
  split; [reflexivity|]. split; [|now split].
  eexists. split; [exact Hrows|]. apply rows_for_as_written.
Qed.

Lemma scanAccount_returns_what_it_stores_witness :
  fst (scanAccount Fixtures.quiet Fixtures.iam_down_in_first_region 1 Fixtures.db_two_accounts)
  = Ok (findings_of_regions Fixtures.iam_down_in_first_region Fixtures.prod_account 0
          [Fixtures.region_row 1 1 "us-east-1"; Fixtures.region_row 2 1 "eu-west-1"]).
Proof.
  apply (scanAccount_returns_what_it_stores Fixtures.quiet Fixtures.iam_down_in_first_region 1
           Fixtures.db_two_accounts Fixtures.prod_account eq_refl eq_refl).
  - intros m _. reflexivity.
  - reflexivity.
  - intros [|[|i]] region Hnth; cbn in Hnth; try discriminate; reflexivity.
Defined.

(** X11.  Whatever [scanAccount] returns, every finding in it was returned
    by a scanner of the fan-out of an enabled region of the scanned account
    and carries that region's code: nothing comes from a disabled region,
    from a region of another account, or from the GuardDuty call that only
    validates the credentials. *)
Theorem scanAccount_findings_come_from_enabled_regions
        (env : Env) (world : World) (id : Z) (d d' : Database) (fs : list RegionFinding) :
  scanAccount env world id d = (Ok fs, d') ->
  exists account,
    In account (aws_accounts (tables d)) /\ a_id account = id
    /\ forall f, In f fs ->
         exists i region,
           In region (aws_regions (tables d))
           /\ r_accountId region = id
           /\ r_enabled region = Some true
           /\ rf_region f = r_region region
           /\ In f (region_findings (world i FanOut) account region).
Proof.
  intros Hrun.
  destruct (scanAccount_returned env world id d d' fs Hrun) as (_ & account & Hfind & Hloop).
  exists account. apply find_some in Hfind as [Hin Hk]. apply Z.eqb_eq in Hk.
  split; [exact Hin|]. split; [exact Hk|].
  intros f Hf.
  destruct (scanRegions_provenance world account _ 0 [] fs Hloop f Hf)
    as [[]|(j & region & Hnth & Hfound)].
  exists j, region. apply nth_error_In in Hnth. apply filter_In in Hnth as [Hreg Hsel].
  apply andb_true_iff in Hsel as [Hacc Hen]. apply Z.eqb_eq in Hacc.
  split; [exact Hreg|]. split; [exact Hacc|]. split.
  { unfold is_enabled in Hen. destruct (r_enabled region) as [[|]|]; congruence. }
  split; [|exact Hfound].
  eapply region_findings_stamped. exact Hfound.
Qed.

Lemma scanAccount_findings_come_from_enabled_regions_witness :
  exists account,
    In account (aws_accounts (tables Fixtures.db_two_accounts)) /\ a_id account = 2
    /\ forall f,
         In f (map (stamp "us-east-1")
                   [Fixtures.sample "IAM" "i"; Fixtures.sample "CloudTrail" "t";
                    Fixtures.sample "CloudWatch" "w"; Fixtures.sample "KMS" "k";
                    Fixtures.sample "GuardDuty" "g"; Fixtures.sample "SecurityHub" "h"]) ->
         exists i region,
           In region (aws_regions (tables Fixtures.db_two_accounts))
           /\ r_accountId region = 2
           /\ r_enabled region = Some true
           /\ rf_region f = r_region region
           /\ In f (region_findings (Fixtures.healthy_world i FanOut) account region).
Proof.
  destruct (scanAccount Fixtures.quiet Fixtures.healthy_world 2 Fixtures.db_two_accounts)
    as [r d'] eqn:Hrun.
  assert (Hr : r = Ok (map (stamp "us-east-1")
                         [Fixtures.sample "IAM" "i"; Fixtures.sample "CloudTrail" "t";
                          Fixtures.sample "CloudWatch" "w"; Fixtures.sample "KMS" "k";
                          Fixtures.sample "GuardDuty" "g"; Fixtures.sample "SecurityHub" "h"])).
  { apply (f_equal fst) in Hrun. cbn [fst] in Hrun. rewrite <- Hrun. vm_compute. reflexivity. }
  subst r.
  exact (scanAccount_findings_come_from_enabled_regions Fixtures.quiet Fixtures.healthy_world 2
           Fixtures.db_two_accounts d' _ Hrun).
Defined.

(** *** The orchestrator over the probes of the repository *)

Section RealProbes.

Variable cloud : nat -> CallSite -> AWSAccount -> string -> Aws.

Lemma real_guardDuty (i : nat) (site : CallSite) (account : AWSAccount) (region : string) :
  guardDutyScanner (world_of cloud i site) account region
  = GuardDutyScanner.scan (guardDuty (cloud i site account region)) account region.
Proof. reflexivity. Qed.

(** The credential check over the real GuardDuty probe fails exactly when the
    account has both keys and the API call at which the probe stopped threw an
    error that line 52 classifies. *)
Lemma real_canary_refuses_iff (account : AWSAccount) (i : nat) (region : AWSRegion) :
  canary (world_of cloud) account i region = Throw (invalid_credentials account)
  <-> has_credentials account = true
      /\ exists fs e,
           GuardDutyScanner.try_body (guardDuty (cloud i Canary account (r_region region))) []
           = (fs, Throw e)
           /\ SecurityScanner.is_credential_error e = true.
Proof.
  unfold canary. rewrite real_guardDuty.
  destruct (has_credentials account) eqn:Hc.
  - rewrite guardDuty_scan_with_credentials by assumption.
    destruct (GuardDutyScanner.try_body _ []) as [fs [u|e]] eqn:Hbody; cbn.
    + split; [discriminate|]. intros (_ & fs' & e & Heq & _). discriminate.
    + rewrite rethrown_keeps_class.
      destruct (SecurityScanner.is_credential_error e) eqn:Hcls.
      * split; [|reflexivity]. intros _. split; [reflexivity|]. now exists fs, e.
      * split; [discriminate|]. intros (_ & fs' & e' & [= _ <-] & Hcls'). congruence.
  - rewrite guardDuty_scan_without_credentials by assumption. cbn.
    split; [discriminate|]. intros [? _]. discriminate.
Qed.

End RealProbes.

(** X12.  With the probes of the repository, an account whose access key id
    or secret access key is empty is never refused for its credentials: the
    GuardDuty probe throws "Missing AWS credentials", the check lets that
    pass, GuardDuty contributes nothing to the fan-out, and the region loop
    returns the findings of the other scanners for every region. *)
Theorem account_without_keys_is_not_refused
        (cloud : nat -> CallSite -> AWSAccount -> string -> Aws) (account : AWSAccount) :
  has_credentials account = false ->
  (forall i region,
      GuardDutyScanner.scan (guardDuty (cloud i Canary account (r_region region)))
        account (r_region region) = Throw (new_Error "Missing AWS credentials")
      /\ canary (world_of cloud) account i region = Ok tt
      /\ contribution (guardDutyScanner (world_of cloud i FanOut) account (r_region region)) = []
      /\ scanRegion (world_of cloud) account i region
         = Ok (region_findings (world_of cloud i FanOut) account region))
  /\ forall regions,
       scanRegions (world_of cloud) account 0 regions []
       = Ok (findings_of_regions (world_of cloud) account 0 regions).
Proof.
  intros Hc.
  assert (Hpass : forall i region, canary (world_of cloud) account i region = Ok tt).
  { intros i region.
    destruct (canary_cases (world_of cloud) account i region) as [H|H]; [exact H|].
    apply real_canary_refuses_iff in H as [H _]. congruence. }
  split.
  - intros i region. split; [now apply guardDuty_scan_without_credentials|].
    split; [apply Hpass|]. split.
    + rewrite real_guardDuty. now rewrite guardDuty_scan_without_credentials.
    + apply scanRegion_after_canary, Hpass.
  - intros regions.
    rewrite (scanRegions_all_pass (world_of cloud) account regions 0 []); [reflexivity|].
    intros j region _. apply Hpass.
Qed.

Lemma account_without_keys_is_not_refused_witness :
  scanRegions
    (world_of (fun _ _ _ _ =>
       {| iam := Fixtures.iam_users_unavailable;
          cloudTrail := {| CloudTrailScanner.describeTrails := Throw Fixtures.throttled;
                           CloudTrailScanner.getTrailStatus := fun _ _ => Throw Fixtures.throttled |};
          cloudWatch := {| CloudWatchScanner.describeAlarms := Throw Fixtures.throttled |};
          kms := {| KMSScanner.listKeys := Throw Fixtures.throttled;
                    KMSScanner.describeKey := fun _ _ => Throw Fixtures.throttled |};
          guardDuty := Fixtures.guardDuty_forbidden;
          securityHub := {| SecurityHubScanner.getEnabledStandards := Throw Fixtures.throttled;
                            SecurityHubScanner.getFindings := Throw Fixtures.throttled |} |}))
    {| a_id := 3; a_accountId := "000011112222"; a_accountName := "nokeys";
       a_accessKeyId := ""; a_secretAccessKey := "secret";
       a_sessionToken := None; a_createdAt := 0; a_updatedAt := 0 |}
    0 [Fixtures.region_row 4 3 "us-east-1"] []
  = Ok [stamp "us-east-1" IAMScanner.root_mfa].
Proof.
  apply (account_without_keys_is_not_refused
           (fun _ _ _ _ =>
              {| iam := Fixtures.iam_users_unavailable;
                 cloudTrail := {| CloudTrailScanner.describeTrails := Throw Fixtures.throttled;
                                  CloudTrailScanner.getTrailStatus :=
                                    fun _ _ => Throw Fixtures.throttled |};
                 cloudWatch := {| CloudWatchScanner.describeAlarms := Throw Fixtures.throttled |};
                 kms := {| KMSScanner.listKeys := Throw Fixtures.throttled;
                           KMSScanner.describeKey := fun _ _ => Throw Fixtures.throttled |};
                 guardDuty := Fixtures.guardDuty_forbidden;
                 securityHub :=
                   {| SecurityHubScanner.getEnabledStandards := Throw Fixtures.throttled;
                      SecurityHubScanner.getFindings := Throw Fixtures.throttled |} |})
           {| a_id := 3; a_accountId := "000011112222"; a_accountName := "nokeys";
              a_accessKeyId := ""; a_secretAccessKey := "secret";
              a_sessionToken := None; a_createdAt := 0; a_updatedAt := 0 |}).
  reflexivity.
Defined.

(** X13.  With the probes of the repository, a region ends the scan with
    "Invalid AWS credentials" if and only if the account has both keys and
    the GuardDuty API call at which the validating probe stopped threw an
    error named 'UnrecognizedClientException' or with HTTP status 403; in
    every other case the region succeeds with the findings of its fan-out.
    The probe's re-wrapping of messages containing "credentials" or
    "AccessDenied" never decides. *)
Theorem real_scan_is_refused_iff
        (cloud : nat -> CallSite -> AWSAccount -> string -> Aws)
        (account : AWSAccount) (i : nat) (region : AWSRegion) :
  let refused :=
    has_credentials account = true
    /\ exists fs e,
         GuardDutyScanner.try_body (guardDuty (cloud i Canary account (r_region region))) []
         = (fs, Throw e)
         /\ SecurityScanner.is_credential_error e = true in
  (scanRegion (world_of cloud) account i region = Throw (invalid_credentials account)
   <-> refused)
  /\ (scanRegion (world_of cloud) account i region
      = Ok (region_findings (world_of cloud i FanOut) account region)
      <-> ~ refused).
Proof.
  intros refused.
  pose proof (real_canary_refuses_iff cloud account i region) as Hiff. fold refused in Hiff.
  destruct (canary_cases (world_of cloud) account i region) as [Hc|Hc].
  - rewrite (scanRegion_after_canary _ _ _ _ Hc). split.
    + split; [discriminate|]. intros Hr. apply Hiff in Hr. congruence.
    + split; [|reflexivity]. intros _ Hr. apply Hiff in Hr. congruence.
  - rewrite (scanRegion_aborted _ _ _ _ Hc). split.
    + split; [|reflexivity]. intros _. now apply Hiff.
    + split; [discriminate|]. intros Hn. exfalso. apply Hn. now apply Hiff.
Qed.

Lemma real_scan_is_refused_iff_witness :
  scanRegion
    (world_of (fun _ _ _ _ =>
       {| iam := Fixtures.iam_users_unavailable;
          cloudTrail := {| CloudTrailScanner.describeTrails := Throw Fixtures.throttled;
                           CloudTrailScanner.getTrailStatus := fun _ _ => Throw Fixtures.throttled |};
          cloudWatch := {| CloudWatchScanner.describeAlarms := Throw Fixtures.throttled |};
          kms := {| KMSScanner.listKeys := Throw Fixtures.throttled;
                    KMSScanner.describeKey := fun _ _ => Throw Fixtures.throttled |};
          guardDuty := Fixtures.guardDuty_forbidden;
          securityHub := {| SecurityHubScanner.getEnabledStandards := Throw Fixtures.throttled;
                            SecurityHubScanner.getFindings := Throw Fixtures.throttled |} |}))
    Fixtures.prod_account 0 (Fixtures.region_row 1 1 "us-east-1")
  = Throw (invalid_credentials Fixtures.prod_account).
Proof.
  apply (real_scan_is_refused_iff
           (fun _ _ _ _ =>
              {| iam := Fixtures.iam_users_unavailable;
                 cloudTrail := {| CloudTrailScanner.describeTrails := Throw Fixtures.throttled;
                                  CloudTrailScanner.getTrailStatus :=
                                    fun _ _ => Throw Fixtures.throttled |};
                 cloudWatch := {| CloudWatchScanner.describeAlarms := Throw Fixtures.throttled |};
                 kms := {| KMSScanner.listKeys := Throw Fixtures.throttled;
                           KMSScanner.describeKey := fun _ _ => Throw Fixtures.throttled |};
                 guardDuty := Fixtures.guardDuty_forbidden;
                 securityHub :=
                   {| SecurityHubScanner.getEnabledStandards := Throw Fixtures.throttled;
                      SecurityHubScanner.getFindings := Throw Fixtures.throttled |} |})
           Fixtures.prod_account 0 (Fixtures.region_row 1 1 "us-east-1")).
  split; [reflexivity|]. exists [], Fixtures.forbidden. split; reflexivity.
Defined.

(* ================================================================== *)
(** ** Further properties: the probes *)

Section ProbeCombinators.

Context {A B : Type}.
Variable Q : Finding -> Prop.

Lemma pushes_only_ret (a : A) : pushes_only Q (Probe.ret a).
Proof. intros fs H. exact H. Qed.

Lemma pushes_only_send (r : Outcome A) : pushes_only Q (Probe.send r).
Proof. intros fs H. exact H. Qed.

Lemma pushes_only_throw (e : Thrown) : pushes_only Q (@Probe.throw A e).
Proof. intros fs H. exact H. Qed.

Lemma pushes_only_push (f : Finding) : Q f -> pushes_only Q (Probe.push f).
Proof.
  intros Hf fs H. cbn. apply Forall_app. split; [exact H|]. now constructor.
Qed.

Lemma pushes_only_bind (m : Probe.P A) (k : A -> Probe.P B) :
  pushes_only Q m -> (forall a, pushes_only Q (k a)) -> pushes_only Q (Probe.bind m k).
Proof.
  intros Hm Hk fs H. unfold Probe.bind.
  specialize (Hm fs H). destruct (m fs) as [fs1 [a|e]]; cbn [fst] in *.
  - now apply Hk.
  - exact Hm.
Qed.

Lemma pushes_at_most_ret (a : A) : pushes_at_most 0 (Probe.ret a).
Proof. intros fs. cbn. lia. Qed.

Lemma pushes_at_most_send (r : Outcome A) : pushes_at_most 0 (Probe.send r).
Proof. intros fs. cbn. lia. Qed.

Lemma pushes_at_most_throw (e : Thrown) : pushes_at_most 0 (@Probe.throw A e).
Proof. intros fs. cbn. lia. Qed.

Lemma pushes_at_most_bind (n n' : nat) (m : Probe.P A) (k : A -> Probe.P B) :
  pushes_at_most n m -> (forall a, pushes_at_most n' (k a)) ->
  pushes_at_most (n + n') (Probe.bind m k).
Proof.
  intros Hm Hk fs. unfold Probe.bind.
  specialize (Hm fs). destruct (m fs) as [fs1 [a|e]]; cbn [fst] in *.
  - specialize (Hk a fs1). lia.
  - lia.
Qed.

Lemma pushes_at_most_more (n n' : nat) (m : Probe.P A) :
  pushes_at_most n m -> (n <= n')%nat -> pushes_at_most n' m.
Proof.
  intros Hm Hle fs. specialize (Hm fs). lia.
Qed.

End ProbeCombinators.

Lemma pushes_only_when (Q : Finding -> Prop) (c : bool) (p : Probe.P unit) :
  pushes_only Q p -> pushes_only Q (Probe.when c p).
Proof.
  intros Hp. unfold Probe.when. destruct c; [exact Hp | apply pushes_only_ret].
Qed.

Lemma pushes_at_most_push (f : Finding) : pushes_at_most 1 (Probe.push f).
Proof. intros fs. cbn. rewrite length_app. cbn. lia. Qed.

Lemma pushes_at_most_when (c : bool) (f : Finding) :
  pushes_at_most (if c then 1 else 0) (Probe.when c (Probe.push f)).
Proof.
  unfold Probe.when. destruct c; [apply pushes_at_most_push | apply pushes_at_most_ret].
Qed.

Lemma pushes_at_most_when_1 (c : bool) (f : Finding) :
  pushes_at_most 1 (Probe.when c (Probe.push f)).
Proof.
  eapply pushes_at_most_more; [apply pushes_at_most_when|]. destruct c; lia.
Qed.

(** What a probe that swallows its errors returns *)
Lemma swallow_only {A} (Q : Finding -> Prop) (body : Probe.P A) (fs : list Finding) :
  pushes_only Q body -> Probe.swallow body = Ok fs -> Forall Q fs.
Proof.
  intros Hb [= <-]. now apply Hb.
Qed.

Lemma swallow_at_most {A} (n : nat) (body : Probe.P A) (fs : list Finding) :
  pushes_at_most n body -> Probe.swallow body = Ok fs -> (List.length fs <= n)%nat.
Proof.
  intros Hb [= <-]. specialize (Hb []). cbn in Hb. lia.
Qed.

(** *** Labels *)

Ltac pushes_only_steps :=
  repeat first
    [ apply pushes_only_ret
    | apply pushes_only_send
    | apply pushes_only_throw
    | apply pushes_only_push; reflexivity
    | apply pushes_only_when
    | apply pushes_only_bind; [|intros ?] ].

Section Labels.

Lemma iam_each_user_label (api : IAMScanner.Api) (users : list IAMScanner.User) :
  forall i, pushes_only (fun f => service f = "IAM") (IAMScanner.each_user api i users).
Proof.
  induction users as [|user rest IH]; intros i; cbn [IAMScanner.each_user].
  - apply pushes_only_ret.
  - pushes_only_steps. apply IH.
Qed.

Lemma iam_label (api : IAMScanner.Api) :
  pushes_only (fun f => service f = "IAM") (IAMScanner.try_body api).
Proof.
  unfold IAMScanner.try_body. pushes_only_steps. apply iam_each_user_label.
Qed.

Lemma cloudTrail_each_trail_label (api : CloudTrailScanner.Api)
      (trails : list CloudTrailScanner.Trail) :
  forall i,
    pushes_only (fun f => service f = "CloudTrail") (CloudTrailScanner.each_trail api i trails).
Proof.
  induction trails as [|trail rest IH]; intros i; cbn [CloudTrailScanner.each_trail].
  - apply pushes_only_ret.
  - destruct (CloudTrailScanner.Name trail) as [trailName|]; [|apply IH].
    destruct (truthy_string trailName); [|apply IH].
    unfold CloudTrailScanner.check_trail. pushes_only_steps. apply IH.
Qed.

Lemma cloudTrail_label (api : CloudTrailScanner.Api) :
  pushes_only (fun f => service f = "CloudTrail") (CloudTrailScanner.try_body api).
Proof.
  unfold CloudTrailScanner.try_body. pushes_only_steps.
  destruct (Probe.or_empty _) as [|trail rest].
  - pushes_only_steps.
  - apply cloudTrail_each_trail_label.
Qed.

Lemma cloudWatch_label (api : CloudWatchScanner.Api) :
  pushes_only (fun f => service f = "CloudWatch") (CloudWatchScanner.try_body api).
Proof.
  unfold CloudWatchScanner.try_body. pushes_only_steps.
  destruct (Probe.or_empty _) as [|alarm rest]; pushes_only_steps.
Qed.

Lemma kms_each_key_label (api : KMSScanner.Api) (keys : list KMSScanner.KeyListEntry) :
  forall i, pushes_only (fun f => service f = "KMS") (KMSScanner.each_key api i keys).
Proof.
  induction keys as [|key rest IH]; intros i; cbn [KMSScanner.each_key].
  - apply pushes_only_ret.
  - destruct (KMSScanner.KeyId key) as [keyId|]; [|apply IH].
    destruct (truthy_string keyId); [|apply IH].
    pushes_only_steps.
    destruct (KMSScanner.KeyMetadata_ _) as [metadata|]; [|apply IH].
    unfold KMSScanner.check_key. pushes_only_steps. apply IH.
Qed.

Lemma kms_label (api : KMSScanner.Api) :
  pushes_only (fun f => service f = "KMS") (KMSScanner.try_body api).
Proof.
  unfold KMSScanner.try_body. pushes_only_steps.
  destruct (Probe.or_empty _) as [|key rest].
  - pushes_only_steps.
  - apply kms_each_key_label.
Qed.

Lemma securityHub_each_finding_label (fs : list SecurityHubScanner.ShFinding) :
  pushes_only (fun f => service f = "SecurityHub") (SecurityHubScanner.each_finding fs).
Proof.
  induction fs as [|f rest IH]; cbn [SecurityHubScanner.each_finding].
  - apply pushes_only_ret.
  - destruct (Probe.or_empty _) as [|resource others]; [exact IH|].
    pushes_only_steps. exact IH.
Qed.

Lemma securityHub_label (api : SecurityHubScanner.Api) :
  pushes_only (fun f => service f = "SecurityHub") (SecurityHubScanner.try_body api).
Proof.
  unfold SecurityHubScanner.try_body.
  destruct (SecurityHubScanner.getEnabledStandards api) as [u|error].
  - pushes_only_steps. apply securityHub_each_finding_label.
  - destruct (SecurityHubScanner.reports_not_enabled error); pushes_only_steps.
Qed.

Lemma guardDuty_push_all_label (l : list Finding) :
  Forall (fun f => service f = "GuardDuty") l ->
  pushes_only (fun f => service f = "GuardDuty") (GuardDutyScanner.push_all l).
Proof.
  intros Hl fs H. rewrite guardDuty_push_all. cbn. apply Forall_app. now split.
Qed.

Lemma guardDuty_label (api : GuardDutyScanner.Api) :
  pushes_only (fun f => service f = "GuardDuty") (GuardDutyScanner.try_body api).
Proof.
  unfold GuardDutyScanner.try_body. pushes_only_steps.
  destruct (Probe.or_empty _) as [|detectorId more]; [pushes_only_steps|].
  pushes_only_steps.
  destruct (GuardDutyScanner.FindingIds _) as [[|id ids]|]; pushes_only_steps.
  apply guardDuty_push_all_label. apply Forall_map. apply Forall_forall. reflexivity.
Qed.

End Labels.

(** X14.  Every probe labels its findings with its own service: whatever
    AWS answers, the findings a probe returns all carry the probe's service
    name.  With the probes of the repository, the service of every finding of
    a region is therefore one of the six names. *)
Theorem probes_label_their_findings :
  (forall api account region fs,
      IAMScanner.scan api account region = Ok fs -> Forall (fun f => service f = "IAM") fs)
  /\ (forall api account region fs,
        CloudTrailScanner.scan api account region = Ok fs ->
        Forall (fun f => service f = "CloudTrail") fs)
  /\ (forall api account region fs,
        CloudWatchScanner.scan api account region = Ok fs ->
        Forall (fun f => service f = "CloudWatch") fs)
  /\ (forall api account region fs,
        KMSScanner.scan api account region = Ok fs -> Forall (fun f => service f = "KMS") fs)
  /\ (forall api account region fs,
        GuardDutyScanner.scan api account region = Ok fs ->
        Forall (fun f => service f = "GuardDuty") fs)
  /\ (forall api account region fs,
        SecurityHubScanner.scan api account region = Ok fs ->
        Forall (fun f => service f = "SecurityHub") fs)
  /\ (forall cloud account i region f,
        In f (region_findings (world_of cloud i FanOut) account region) ->
        In (service (rf_finding f)) service_names).
Proof.
  assert (Hiam : forall api account region fs,
             IAMScanner.scan api account region = Ok fs ->
             Forall (fun f => service f = "IAM") fs).
  { intros api account region fs. apply swallow_only, iam_label. }
  assert (Hct : forall api account region fs,
             CloudTrailScanner.scan api account region = Ok fs ->
             Forall (fun f => service f = "CloudTrail") fs).
  { intros api account region fs. apply swallow_only, cloudTrail_label. }
  assert (Hcw : forall api account region fs,
             CloudWatchScanner.scan api account region = Ok fs ->
             Forall (fun f => service f = "CloudWatch") fs).
  { intros api account region fs. apply swallow_only, cloudWatch_label. }
  assert (Hkms : forall api account region fs,
             KMSScanner.scan api account region = Ok fs ->
             Forall (fun f => service f = "KMS") fs).
  { intros api account region fs. apply swallow_only, kms_label. }
  assert (Hgd : forall api account region fs,
             GuardDutyScanner.scan api account region = Ok fs ->
             Forall (fun f => service f = "GuardDuty") fs).
  { intros api account region fs Hscan.
    destruct (has_credentials account) eqn:Hc.
    - rewrite guardDuty_scan_with_credentials in Hscan by assumption.
      pose proof (guardDuty_label api [] (Forall_nil _)) as Hl.
      destruct (GuardDutyScanner.try_body api []) as [findings [u|e]]; [|discriminate].
      now injection Hscan as <-.
    - rewrite guardDuty_scan_without_credentials in Hscan by assumption. discriminate. }
  assert (Hsh : forall api account region fs,
             SecurityHubScanner.scan api account region = Ok fs ->
             Forall (fun f => service f = "SecurityHub") fs).
  { intros api account region fs. apply swallow_only, securityHub_label. }
  repeat (split; [assumption|]).
  intros cloud account i region f Hin.
  unfold region_findings in Hin. apply in_map_iff in Hin as (f0 & <- & Hin). cbn [rf_finding stamp].
  assert (Hcontrib : forall (p : Outcome (list Finding)) (name : string),
             (forall fs, p = Ok fs -> Forall (fun f => service f = name) fs) ->
             In f0 (contribution p) -> service f0 = name).
  { intros p name Hp Hf0. destruct p as [fs|e]; [|destruct Hf0].
    specialize (Hp fs eq_refl). rewrite Forall_forall in Hp. now apply Hp. }
  unfold service_names.
  repeat (apply in_app_or in Hin as [Hin|Hin]).
  - apply (Hcontrib _ "IAM") in Hin; [rewrite Hin; cbn; tauto | intros fs; apply Hiam].
  - apply (Hcontrib _ "CloudTrail") in Hin; [rewrite Hin; cbn; tauto | intros fs; apply Hct].
  - apply (Hcontrib _ "CloudWatch") in Hin; [rewrite Hin; cbn; tauto | intros fs; apply Hcw].
  - apply (Hcontrib _ "KMS") in Hin; [rewrite Hin; cbn; tauto | intros fs; apply Hkms].
  - apply (Hcontrib _ "GuardDuty") in Hin; [rewrite Hin; cbn; tauto | intros fs; apply Hgd].
  - apply (Hcontrib _ "SecurityHub") in Hin; [rewrite Hin; cbn; tauto | intros fs; apply Hsh].
Qed.

Lemma probes_label_their_findings_witness :
  Forall (fun f => service f = "IAM") [IAMScanner.root_mfa].
Proof.
  apply (proj1 probes_label_their_findings Fixtures.iam_users_unavailable
           Fixtures.prod_account "us-east-1").
  reflexivity.
Defined.

(** *** GuardDuty *)

(** X15.  The GuardDuty probe reads the first detector only: two sets of
    answers that agree on the detector list and on the findings of the first
    detector give the same result, whatever they say of other detectors.
    Without any detector it returns the single HIGH finding
    "GuardDuty Not Enabled"; with a detector and no finding id it returns the
    empty list; otherwise it returns one finding per finding GuardDuty
    describes, in GuardDuty's order. *)
Theorem guardDuty_reads_the_first_detector :
  (forall api1 api2 account region,
      GuardDutyScanner.listDetectors api1 = GuardDutyScanner.listDetectors api2 ->
      (forall dets first more,
          GuardDutyScanner.listDetectors api1 = Ok dets ->
          Probe.or_empty (GuardDutyScanner.DetectorIds dets) = first :: more ->
          GuardDutyScanner.listFindings api1 first = GuardDutyScanner.listFindings api2 first
          /\ forall ids, GuardDutyScanner.getFindings api1 first ids
                         = GuardDutyScanner.getFindings api2 first ids) ->
      GuardDutyScanner.scan api1 account region = GuardDutyScanner.scan api2 account region)
  /\ (forall api account region dets,
        has_credentials account = true ->
        GuardDutyScanner.listDetectors api = Ok dets ->
        Probe.or_empty (GuardDutyScanner.DetectorIds dets) = [] ->
        GuardDutyScanner.scan api account region = Ok [GuardDutyScanner.not_enabled]
        /\ severity GuardDutyScanner.not_enabled = HIGH)
  /\ (forall api account region dets first more ids,
        has_credentials account = true ->
        GuardDutyScanner.listDetectors api = Ok dets ->
        Probe.or_empty (GuardDutyScanner.DetectorIds dets) = first :: more ->
        GuardDutyScanner.listFindings api first = Ok ids ->
        Probe.or_empty (GuardDutyScanner.FindingIds ids) = [] ->
        GuardDutyScanner.scan api account region = Ok [])
  /\ (forall api account region dets first more ids id rest details,
        has_credentials account = true ->
        GuardDutyScanner.listDetectors api = Ok dets ->
        Probe.or_empty (GuardDutyScanner.DetectorIds dets) = first :: more ->
        GuardDutyScanner.listFindings api first = Ok ids ->
        GuardDutyScanner.FindingIds ids = Some (id :: rest) ->
        GuardDutyScanner.getFindings api first (id :: rest) = Ok details ->
        GuardDutyScanner.scan api account region
        = Ok (map GuardDutyScanner.to_finding
                  (Probe.or_empty (GuardDutyScanner.Findings details)))).
Proof.
  split; [|split; [|split]].
  - intros api1 api2 account region Hdet Hfirst.
    unfold GuardDutyScanner.scan.
    destruct (_ || _); [reflexivity|].
    assert (Hbody : GuardDutyScanner.try_body api1 [] = GuardDutyScanner.try_body api2 []).
    { unfold GuardDutyScanner.try_body, Probe.bind, Probe.send. rewrite <- Hdet.
      destruct (GuardDutyScanner.listDetectors api1) as [dets|e] eqn:E; [|reflexivity].
      destruct (Probe.or_empty (GuardDutyScanner.DetectorIds dets)) as [|first more] eqn:Ed;
        [reflexivity|].
      destruct (Hfirst dets first more eq_refl Ed) as [Hlf Hgf]. rewrite <- Hlf.
      destruct (GuardDutyScanner.listFindings api1 first) as [ids|e]; [|reflexivity].
      destruct (GuardDutyScanner.FindingIds ids) as [[|id rest]|]; try reflexivity.
      now rewrite Hgf. }
    now rewrite Hbody.
  - intros api account region dets Hc Hd He.
    rewrite guardDuty_scan_with_credentials by assumption.
    unfold GuardDutyScanner.try_body, Probe.bind, Probe.send. rewrite Hd, He. now split.
  - intros api account region dets first more ids Hc Hd He Hl Hi.
    rewrite guardDuty_scan_with_credentials by assumption.
    unfold GuardDutyScanner.try_body, Probe.bind, Probe.send. rewrite Hd, He, Hl.
    destruct (GuardDutyScanner.FindingIds ids) as [[|id rest]|]; try reflexivity.
    discriminate.
  - intros api account region dets first more ids id rest details Hc Hd He Hl Hi Hg.
    rewrite guardDuty_scan_with_credentials by assumption.
    unfold GuardDutyScanner.try_body, Probe.bind, Probe.send. rewrite Hd, He, Hl, Hi, Hg.
    now rewrite guardDuty_push_all.
Qed.

Lemma guardDuty_reads_the_first_detector_witness :
  GuardDutyScanner.scan
    {| GuardDutyScanner.listDetectors := Ok {| GuardDutyScanner.DetectorIds := Some [] |};
       GuardDutyScanner.listFindings := fun _ => Throw Fixtures.throttled;
       GuardDutyScanner.getFindings := fun _ _ => Throw Fixtures.throttled |}
    Fixtures.prod_account "us-east-1"
  = Ok [GuardDutyScanner.not_enabled].
Proof.
  destruct guardDuty_reads_the_first_detector as (_ & Hnone & _).
  apply (Hnone _ Fixtures.prod_account "us-east-1" {| GuardDutyScanner.DetectorIds := Some [] |});
    reflexivity.
Defined.

(** *** IAM *)

Section IamFacts.

Variable api : IAMScanner.Api.

Lemma iam_each_user_at_most (users : list IAMScanner.User) :
  forall i, pushes_at_most (2 * List.length users) (IAMScanner.each_user api i users).
Proof.
  induction users as [|user rest IH]; intros i; cbn [IAMScanner.each_user].
  - apply pushes_at_most_ret.
  - replace (2 * List.length (user :: rest))%nat
      with (0 + (1 + (1 + 2 * List.length rest)))%nat by (cbn [List.length]; lia).
    apply pushes_at_most_bind; [apply pushes_at_most_send|]. intros accessKeys.
    apply pushes_at_most_bind; [apply pushes_at_most_when_1|]. intros _.
    apply pushes_at_most_bind; [apply pushes_at_most_when_1|]. intros _.
    apply IH.
Qed.

(** One iteration of the user loop *)
Lemma iam_each_user_cons (i : nat) (user : IAMScanner.User) (rest : list IAMScanner.User)
      (fs : list Finding) :
  IAMScanner.each_user api i (user :: rest) fs
  = match IAMScanner.listAccessKeys api i (IAMScanner.UserName user) with
    | Ok accessKeys =>
        IAMScanner.each_user api (S i) rest
          ((fs ++ if (1 <? List.length (Probe.or_empty (IAMScanner.AccessKeyMetadata accessKeys)))%nat
                  then [IAMScanner.multiple_keys user] else [])
           ++ match IAMScanner.PasswordLastUsed user with
              | None => [IAMScanner.inactive_user user]
              | Some _ => []
              end)
    | Throw e => (fs, Throw e)
    end.
Proof.
  cbn [IAMScanner.each_user]. unfold Probe.bind, Probe.send, Probe.when, Probe.push, Probe.ret.
  destruct (IAMScanner.listAccessKeys api i (IAMScanner.UserName user)) as [keys|e];
    [|reflexivity].
  destruct (1 <? _)%nat; destruct (IAMScanner.PasswordLastUsed user);
    rewrite ?app_nil_r; reflexivity.
Qed.

(** A failure at the [k]-th user leaves what the users before it gave. *)
Lemma iam_each_user_stops (users : list IAMScanner.User) :
  forall (i k : nat) (user : IAMScanner.User) (e : Thrown) (fs : list Finding),
    nth_error users k = Some user ->
    IAMScanner.listAccessKeys api (i + k) (IAMScanner.UserName user) = Throw e ->
    fst (IAMScanner.each_user api i users fs)
    = fst (IAMScanner.each_user api i (firstn k users) fs).
Proof.
  induction users as [|u rest IH]; intros i k user e fs Hnth Hfail.
  - destruct k; discriminate.
  - destruct k as [|k].
    + cbn in Hnth. injection Hnth as ->. rewrite Nat.add_0_r in Hfail.
      rewrite iam_each_user_cons, Hfail. reflexivity.
    + cbn in Hnth. cbn [firstn]. rewrite !iam_each_user_cons.
      destruct (IAMScanner.listAccessKeys api i (IAMScanner.UserName u)) as [keys|e0];
        [|reflexivity].
      apply (IH (S i) k user e); [exact Hnth|]. now rewrite Nat.add_succ_comm.
Qed.

End IamFacts.

(** The user loop asks IAM for access keys only. *)
Lemma iam_each_user_ext (api api' : IAMScanner.Api) (users : list IAMScanner.User) :
  (forall i name, IAMScanner.listAccessKeys api i name = IAMScanner.listAccessKeys api' i name) ->
  forall i fs, IAMScanner.each_user api i users fs = IAMScanner.each_user api' i users fs.
Proof.
  intros Hsame. induction users as [|u rest IH]; intros i fs; [reflexivity|].
  rewrite !iam_each_user_cons, <- Hsame.
  destruct (IAMScanner.listAccessKeys api i (IAMScanner.UserName u)); [apply IH | reflexivity].
Qed.

(** X16.  The IAM probe returns at most one finding for the account and two
    per user listed.  When listing the access keys of the [k]-th user fails,
    it returns exactly what it would return had IAM listed only the users
    before that one. *)
Theorem iam_keeps_what_it_found_before_a_failure
        (api : IAMScanner.Api) (account : AWSAccount) (region : string) :
  (forall fs,
      IAMScanner.scan api account region = Ok fs ->
      (List.length fs
       <= 1 + 2 * match IAMScanner.listUsers api with
                  | Ok users => List.length (Probe.or_empty (IAMScanner.Users users))
                  | Throw _ => 0
                  end)%nat)
  /\ (forall users k user e,
        IAMScanner.listUsers api = Ok users ->
        nth_error (Probe.or_empty (IAMScanner.Users users)) k = Some user ->
        IAMScanner.listAccessKeys api k (IAMScanner.UserName user) = Throw e ->
        IAMScanner.scan api account region
        = IAMScanner.scan
            {| IAMScanner.getAccountSummary := IAMScanner.getAccountSummary api;
               IAMScanner.listUsers :=
                 Ok {| IAMScanner.Users :=
                         Some (firstn k (Probe.or_empty (IAMScanner.Users users))) |};
               IAMScanner.listAccessKeys := IAMScanner.listAccessKeys api |}
            account region).
Proof.
  split.
  - intros fs. apply swallow_at_most.
    unfold IAMScanner.try_body.
    replace (1 + 2 * _)%nat
      with (0 + (1 + (0 + 2 * match IAMScanner.listUsers api with
                               | Ok users => List.length (Probe.or_empty (IAMScanner.Users users))
                               | Throw _ => 0
                               end)))%nat by lia.
    apply pushes_at_most_bind; [apply pushes_at_most_send|]. intros summary.
    apply pushes_at_most_bind; [apply pushes_at_most_when_1|]. intros _.
    intros fs0. unfold Probe.bind, Probe.send.
    destruct (IAMScanner.listUsers api) as [users|e]; cbn [fst]; [|lia].
    pose proof (iam_each_user_at_most api (Probe.or_empty (IAMScanner.Users users)) 0 fs0). lia.
  - intros users k user e Hlist Hnth Hfail.
    unfold IAMScanner.scan, Probe.swallow. f_equal.
    unfold IAMScanner.try_body, Probe.bind, Probe.send, Probe.when, Probe.push, Probe.ret.
    cbn [IAMScanner.getAccountSummary IAMScanner.listUsers IAMScanner.listAccessKeys].
    destruct (IAMScanner.getAccountSummary api) as [summary|e0]; [|reflexivity].
    rewrite Hlist. cbn [Probe.or_empty IAMScanner.Users].
    destruct (negb (IAMScanner.mfa_enabled summary));
      (erewrite (iam_each_user_ext _ api (firstn k _)); [|reflexivity]);
      apply (iam_each_user_stops _ _ 0 k user e); assumption.
Qed.

Lemma iam_keeps_what_it_found_before_a_failure_witness :
  (List.length [IAMScanner.root_mfa] <= 1)%nat.
Proof.
  apply (proj1 (iam_keeps_what_it_found_before_a_failure Fixtures.iam_users_unavailable
                  Fixtures.prod_account "us-east-1") [IAMScanner.root_mfa]).
  reflexivity.
Defined.

(** *** CloudTrail *)

Section CloudTrailFacts.

Variable api : CloudTrailScanner.Api.

Lemma cloudTrail_check_trail_at_most (i : nat) (trail : CloudTrailScanner.Trail)
      (trailName : string) :
  pushes_at_most 3 (CloudTrailScanner.check_trail api i trail trailName).
Proof.
  unfold CloudTrailScanner.check_trail.
  change 3%nat with (0 + (1 + (1 + 1)))%nat.
  apply pushes_at_most_bind; [apply pushes_at_most_send|]. intros status.
  apply pushes_at_most_bind; [apply pushes_at_most_when_1|]. intros _.
  apply pushes_at_most_bind; [apply pushes_at_most_when_1|]. intros _.
  apply pushes_at_most_when_1.
Qed.

Lemma cloudTrail_each_trail_at_most (trails : list CloudTrailScanner.Trail) :
  forall i, pushes_at_most (3 * List.length trails) (CloudTrailScanner.each_trail api i trails).
Proof.
  induction trails as [|trail rest IH]; intros i; cbn [CloudTrailScanner.each_trail].
  - apply pushes_at_most_ret.
  - assert (Hskip : pushes_at_most (3 * List.length (trail :: rest))
                      (CloudTrailScanner.each_trail api (S i) rest)).
    { eapply pushes_at_most_more; [apply IH|]. cbn [List.length]. lia. }
    destruct (CloudTrailScanner.Name trail) as [trailName|]; [|exact Hskip].
    destruct (truthy_string trailName); [|exact Hskip].
    replace (3 * List.length (trail :: rest))%nat with (3 + 3 * List.length rest)%nat
      by (cbn [List.length]; lia).
    apply pushes_at_most_bind; [apply cloudTrail_check_trail_at_most | intros _; apply IH].
Qed.

Lemma cloudTrail_each_trail_in_order (trails : list CloudTrailScanner.Trail) :
  forall i fs,
    (forall j trail, nth_error trails j = Some trail -> trail_in_order api (i + j) trail) ->
    CloudTrailScanner.each_trail api i trails fs = (fs, Ok tt).
Proof.
  induction trails as [|trail rest IH]; intros i fs Hall; cbn [CloudTrailScanner.each_trail].
  - reflexivity.
  - assert (Hrest : CloudTrailScanner.each_trail api (S i) rest fs = (fs, Ok tt)).
    { apply IH. intros j t Hnth. specialize (Hall (S j) t Hnth).
      now rewrite <- Nat.add_succ_comm in Hall. }
    specialize (Hall 0%nat trail eq_refl). rewrite Nat.add_0_r in Hall.
    unfold trail_in_order in Hall.
    destruct (CloudTrailScanner.Name trail) as [trailName|]; [|exact Hrest].
    destruct (truthy_string trailName); [|exact Hrest].
    destruct (Hall eq_refl) as (status & Hstatus & Hlog & Hmulti & Hval).
    unfold Probe.bind at 1, CloudTrailScanner.check_trail, Probe.bind, Probe.send.
    rewrite Hstatus, Hlog, Hmulti, Hval. cbn. exact Hrest.
Qed.

End CloudTrailFacts.

(** X17.  The CloudTrail probe: without any trail it returns the single HIGH
    finding "No CloudTrail Configured"; it returns nothing when listing the
    trails fails, and nothing when every named trail is logging, multi-region
    and validates its log files; it never returns more than three findings
    per trail listed. *)
Theorem cloudTrail_probe_outcomes
        (api : CloudTrailScanner.Api) (account : AWSAccount) (region : string) :
  (forall trails,
      CloudTrailScanner.describeTrails api = Ok trails ->
      Probe.or_empty (CloudTrailScanner.trailList trails) = [] ->
      CloudTrailScanner.scan api account region = Ok [CloudTrailScanner.no_trail]
      /\ severity CloudTrailScanner.no_trail = HIGH)
  /\ (forall e,
        CloudTrailScanner.describeTrails api = Throw e ->
        CloudTrailScanner.scan api account region = Ok [])
  /\ (forall trails,
        CloudTrailScanner.describeTrails api = Ok trails ->
        Probe.or_empty (CloudTrailScanner.trailList trails) <> [] ->
        (forall i trail,
            nth_error (Probe.or_empty (CloudTrailScanner.trailList trails)) i = Some trail ->
            trail_in_order api i trail) ->
        CloudTrailScanner.scan api account region = Ok [])
  /\ (forall trails fs,
        CloudTrailScanner.describeTrails api = Ok trails ->
        Probe.or_empty (CloudTrailScanner.trailList trails) <> [] ->
        CloudTrailScanner.scan api account region = Ok fs ->
        (List.length fs
         <= 3 * List.length (Probe.or_empty (CloudTrailScanner.trailList trails)))%nat).
Proof.
  unfold CloudTrailScanner.scan, Probe.swallow, CloudTrailScanner.try_body.
  split; [|split; [|split]].
  - intros trails Hd He. unfold Probe.bind, Probe.send. rewrite Hd, He. now split.
  - intros e Hd. unfold Probe.bind, Probe.send. now rewrite Hd.
  - intros trails Hd Hne Hall. unfold Probe.bind, Probe.send. rewrite Hd.
    destruct (Probe.or_empty (CloudTrailScanner.trailList trails)) as [|t rest] eqn:E;
      [contradiction|].
    now rewrite cloudTrail_each_trail_in_order.
  - intros trails fs Hd Hne. unfold Probe.bind, Probe.send. rewrite Hd.
    destruct (Probe.or_empty (CloudTrailScanner.trailList trails)) as [|t rest] eqn:E;
      [contradiction|].
    intros [= <-].
    pose proof (cloudTrail_each_trail_at_most api (t :: rest) 0 []) as Hb. cbn in Hb |- *. lia.
Qed.

Lemma cloudTrail_probe_outcomes_witness :
  CloudTrailScanner.scan
    {| CloudTrailScanner.describeTrails := Ok {| CloudTrailScanner.trailList := None |};
       CloudTrailScanner.getTrailStatus := fun _ _ => Throw Fixtures.throttled |}
    Fixtures.prod_account "us-east-1"
  = Ok [CloudTrailScanner.no_trail].
Proof.
  apply (proj1 (cloudTrail_probe_outcomes _ Fixtures.prod_account "us-east-1")
           {| CloudTrailScanner.trailList := None |}); reflexivity.
Defined.

(** *** CloudWatch *)

Lemma filter_none {A} (p : A -> bool) (l : list A) :
  forallb (fun a => negb (p a)) l = true -> filter p l = [].
Proof.
  induction l as [|a l IH]; cbn; [reflexivity|].
  intros H. apply andb_prop in H. destruct H as [Ha Hl].
  destruct (p a); [discriminate | now apply IH].
Qed.

Lemma cloudWatch_try_body_at_most (api : CloudWatchScanner.Api) :
  pushes_at_most 2 (CloudWatchScanner.try_body api).
Proof.
  unfold CloudWatchScanner.try_body.
  change 2%nat with (0 + 2)%nat.
  apply pushes_at_most_bind; [apply pushes_at_most_send|]. intros alarms.
  destruct (Probe.or_empty (CloudWatchScanner.MetricAlarms alarms)).
  - eapply pushes_at_most_more; [apply pushes_at_most_push | lia].
  - change 2%nat with (1 + 1)%nat.
    apply pushes_at_most_bind; [apply pushes_at_most_when_1|]. intros _.
    apply pushes_at_most_when_1.
Qed.

(** X18.  The CloudWatch probe returns at most two findings, however many
    alarms there are.  Without any alarm it returns one MEDIUM finding
    "No CloudWatch Alarms"; it returns nothing when the alarms cannot be
    listed, and nothing when there are alarms, none has its actions switched
    off and each has at least one action. *)
Theorem cloudWatch_probe_outcomes
        (api : CloudWatchScanner.Api) (account : AWSAccount) (region : string) :
  (forall fs,
      CloudWatchScanner.scan api account region = Ok fs -> (List.length fs <= 2)%nat)
  /\ (forall alarms,
        CloudWatchScanner.describeAlarms api = Ok alarms ->
        Probe.or_empty (CloudWatchScanner.MetricAlarms alarms) = [] ->
        exists f,
          CloudWatchScanner.scan api account region = Ok [f]
          /\ severity f = MEDIUM /\ finding f = "No CloudWatch Alarms")
  /\ (forall e,
        CloudWatchScanner.describeAlarms api = Throw e ->
        CloudWatchScanner.scan api account region = Ok [])
  /\ (forall alarms,
        CloudWatchScanner.describeAlarms api = Ok alarms ->
        Probe.or_empty (CloudWatchScanner.MetricAlarms alarms) <> [] ->
        forallb (fun alarm => negb (CloudWatchScanner.is_disabled alarm)
                              && negb (CloudWatchScanner.without_actions alarm))
                (Probe.or_empty (CloudWatchScanner.MetricAlarms alarms)) = true ->
        CloudWatchScanner.scan api account region = Ok []).
Proof.
  split; [|split; [|split]].
  - intros fs Hscan.
    exact (swallow_at_most 2 _ fs (cloudWatch_try_body_at_most api) Hscan).
  - intros alarms Hd He. eexists.
    unfold CloudWatchScanner.scan, Probe.swallow, CloudWatchScanner.try_body,
      Probe.bind, Probe.send.
    rewrite Hd, He. cbn. repeat split.
  - intros e Hd.
    unfold CloudWatchScanner.scan, Probe.swallow, CloudWatchScanner.try_body,
      Probe.bind, Probe.send.
    now rewrite Hd.
  - intros alarms Hd Hne Hall.
    unfold CloudWatchScanner.scan, Probe.swallow, CloudWatchScanner.try_body,
      Probe.bind, Probe.send.
    rewrite Hd.
    destruct (Probe.or_empty (CloudWatchScanner.MetricAlarms alarms)) as [|a rest] eqn:E;
      [contradiction|].
    assert (H1 : filter CloudWatchScanner.is_disabled (a :: rest) = []).
    { apply filter_none. rewrite forallb_forall in Hall |- *. intros x Hx.
      specialize (Hall x Hx). now apply andb_prop in Hall. }
    assert (H2 : filter CloudWatchScanner.without_actions (a :: rest) = []).
    { apply filter_none. rewrite forallb_forall in Hall |- *. intros x Hx.
      specialize (Hall x Hx). now apply andb_prop in Hall. }
    rewrite H1, H2. reflexivity.
Qed.

Lemma cloudWatch_probe_outcomes_witness :
  CloudWatchScanner.scan
    {| CloudWatchScanner.describeAlarms :=
         Ok {| CloudWatchScanner.MetricAlarms :=
                 Some [ {| CloudWatchScanner.ActionsEnabled := Some true;
                           CloudWatchScanner.AlarmActions := Some ["arn:aws:sns:pager"];
                           CloudWatchScanner.OKActions := None;
                           CloudWatchScanner.InsufficientDataActions := Some [] |} ] |} |}
    Fixtures.prod_account "us-east-1"
  = Ok [].
Proof.
  apply (proj2 (proj2 (proj2
           (cloudWatch_probe_outcomes _ Fixtures.prod_account "us-east-1")))
           {| CloudWatchScanner.MetricAlarms :=
                 Some [ {| CloudWatchScanner.ActionsEnabled := Some true;
                           CloudWatchScanner.AlarmActions := Some ["arn:aws:sns:pager"];
                           CloudWatchScanner.OKActions := None;
                           CloudWatchScanner.InsufficientDataActions := Some [] |} ] |});
    [reflexivity | discriminate | reflexivity].
Defined.

(** *** KMS *)

Section KmsFacts.

Variable api : KMSScanner.Api.

(** A key is in one state: "Disabled" and "PendingDeletion" are never
    reported together *)
Lemma kms_check_key_at_most (metadata : KMSScanner.KeyMetadata) :
  pushes_at_most 2 (KMSScanner.check_key metadata).
Proof.
  unfold KMSScanner.check_key.
  destruct (KMSScanner.is_ (KMSScanner.KeyState metadata) "Disabled") eqn:Hd.
  - assert (Hp : KMSScanner.is_ (KMSScanner.KeyState metadata) "PendingDeletion" = false).
    { unfold KMSScanner.is_ in *. destruct (KMSScanner.KeyState metadata) as [s|]; [|reflexivity].
      apply String.eqb_eq in Hd. now subst s. }
    rewrite Hp. change 2%nat with (1 + (0 + 1))%nat.
    apply pushes_at_most_bind; [apply pushes_at_most_when_1|]. intros _.
    apply pushes_at_most_bind; [apply pushes_at_most_ret|]. intros _.
    apply pushes_at_most_when_1.
  - change 2%nat with (0 + (1 + 1))%nat.
    apply pushes_at_most_bind; [apply pushes_at_most_ret|]. intros _.
    apply pushes_at_most_bind; [apply pushes_at_most_when_1|]. intros _.
    apply pushes_at_most_when_1.
Qed.

Lemma kms_each_key_at_most (keys : list KMSScanner.KeyListEntry) :
  forall i, pushes_at_most (2 * List.length keys) (KMSScanner.each_key api i keys).
Proof.
  induction keys as [|key rest IH]; intros i; cbn [KMSScanner.each_key].
  - apply pushes_at_most_ret.
  - assert (Hskip : pushes_at_most (2 * List.length (key :: rest))
                      (KMSScanner.each_key api (S i) rest)).
    { eapply pushes_at_most_more; [apply IH|]. cbn [List.length]. lia. }
    destruct (KMSScanner.KeyId key) as [keyId|]; [|exact Hskip].
    destruct (truthy_string keyId); [|exact Hskip].
    replace (2 * List.length (key :: rest))%nat with (0 + (2 + 2 * List.length rest))%nat
      by (cbn [List.length]; lia).
    apply pushes_at_most_bind; [apply pushes_at_most_send|]. intros keyDetails.
    destruct (KMSScanner.KeyMetadata_ keyDetails) as [metadata|].
    + apply pushes_at_most_bind; [apply kms_check_key_at_most | intros _; apply IH].
    + eapply pushes_at_most_more; [apply IH | lia].
Qed.

End KmsFacts.

(** X19.  The KMS probe: without any key it returns the single LOW finding
    "No KMS Keys"; it returns nothing when the keys cannot be listed; and
    for a non-empty key list it never returns more than two findings per
    key, since a key is not both disabled and pending deletion. *)
Theorem kms_probe_outcomes
        (api : KMSScanner.Api) (account : AWSAccount) (region : string) :
  (forall keys,
      KMSScanner.listKeys api = Ok keys ->
      Probe.or_empty (KMSScanner.Keys keys) = [] ->
      KMSScanner.scan api account region = Ok [KMSScanner.no_keys]
      /\ severity KMSScanner.no_keys = LOW)
  /\ (forall e,
        KMSScanner.listKeys api = Throw e ->
        KMSScanner.scan api account region = Ok [])
  /\ (forall keys fs,
        KMSScanner.listKeys api = Ok keys ->
        Probe.or_empty (KMSScanner.Keys keys) <> [] ->
        KMSScanner.scan api account region = Ok fs ->
        (List.length fs <= 2 * List.length (Probe.or_empty (KMSScanner.Keys keys)))%nat).
Proof.
  unfold KMSScanner.scan, Probe.swallow, KMSScanner.try_body.
  split; [|split].
  - intros keys Hl He. unfold Probe.bind, Probe.send. rewrite Hl, He. now split.
  - intros e Hl. unfold Probe.bind, Probe.send. now rewrite Hl.
  - intros keys fs Hl Hne. unfold Probe.bind, Probe.send. rewrite Hl.
    destruct (Probe.or_empty (KMSScanner.Keys keys)) as [|k rest] eqn:E; [contradiction|].
    intros [= <-].
    pose proof (kms_each_key_at_most api (k :: rest) 0 []) as Hb. cbn in Hb |- *. lia.
Qed.

Lemma kms_probe_outcomes_witness :
  KMSScanner.scan
    {| KMSScanner.listKeys := Ok {| KMSScanner.Keys := Some [] |};
       KMSScanner.describeKey := fun _ _ => Throw Fixtures.throttled |}
    Fixtures.prod_account "us-east-1"
  = Ok [KMSScanner.no_keys].
Proof.
  apply (proj1 (kms_probe_outcomes _ Fixtures.prod_account "us-east-1")
           {| KMSScanner.Keys := Some [] |}); reflexivity.
Defined.

(** *** SecurityHub *)

Lemma securityHub_each_finding_count (findings : list SecurityHubScanner.ShFinding) :
  forall fs,
    snd (SecurityHubScanner.each_finding findings fs) = Ok tt
    /\ List.length (fst (SecurityHubScanner.each_finding findings fs))
       = (List.length fs + List.length (filter names_a_resource findings))%nat.
Proof.
  induction findings as [|f rest IH]; intros fs; cbn [SecurityHubScanner.each_finding filter].
  - cbn. split; [reflexivity | lia].
  - unfold names_a_resource at 1.
    destruct (Probe.or_empty (SecurityHubScanner.Resources f)) as [|resource others].
    + apply IH.
    + unfold Probe.bind, Probe.push.
      destruct (IH (fs ++ [SecurityHubScanner.to_finding f resource])) as [Hok Hlen].
      split; [exact Hok|]. rewrite Hlen, length_app. cbn [List.length]. lia.
Qed.

(** X20.  The SecurityHub probe: when the check of the enabled standards
    fails with InvalidAccessException or ResourceNotFoundException it returns
    the single HIGH finding "SecurityHub Not Enabled" without looking at the
    findings; any other failure there, or a failure to read the findings,
    gives an empty result; otherwise it returns one finding for each
    SecurityHub finding that names a resource, and none for the others. *)
Theorem securityHub_probe_outcomes
        (api : SecurityHubScanner.Api) (account : AWSAccount) (region : string) :
  (forall e,
      SecurityHubScanner.getEnabledStandards api = Throw e ->
      name e = "InvalidAccessException" \/ name e = "ResourceNotFoundException" ->
      SecurityHubScanner.scan api account region = Ok [SecurityHubScanner.not_enabled]
      /\ severity SecurityHubScanner.not_enabled = HIGH)
  /\ (forall e,
        SecurityHubScanner.getEnabledStandards api = Throw e ->
        name e <> "InvalidAccessException" ->
        name e <> "ResourceNotFoundException" ->
        SecurityHubScanner.scan api account region = Ok [])
  /\ (forall e,
        SecurityHubScanner.getEnabledStandards api = Ok tt ->
        SecurityHubScanner.getFindings api = Throw e ->
        SecurityHubScanner.scan api account region = Ok [])
  /\ (forall out,
        SecurityHubScanner.getEnabledStandards api = Ok tt ->
        SecurityHubScanner.getFindings api = Ok out ->
        exists fs,
          SecurityHubScanner.scan api account region = Ok fs
          /\ List.length fs
             = List.length (filter names_a_resource
                              (Probe.or_empty (SecurityHubScanner.Findings out)))
          /\ (List.length fs
              <= List.length (Probe.or_empty (SecurityHubScanner.Findings out)))%nat).
Proof.
  unfold SecurityHubScanner.scan, Probe.swallow, SecurityHubScanner.try_body.
  split; [|split; [|split]].
  - intros e He Hname. rewrite He.
    assert (Hr : SecurityHubScanner.reports_not_enabled e = true).
    { unfold SecurityHubScanner.reports_not_enabled.
      destruct Hname as [-> | ->]; cbn; reflexivity. }
    rewrite Hr. now split.
  - intros e He H1 H2. rewrite He.
    assert (Hr : SecurityHubScanner.reports_not_enabled e = false).
    { unfold SecurityHubScanner.reports_not_enabled.
      apply String.eqb_neq in H1, H2. now rewrite H1, H2. }
    now rewrite Hr.
  - intros e He Hf. rewrite He. unfold Probe.bind, Probe.send. now rewrite Hf.
  - intros out He Hf. rewrite He. unfold Probe.bind, Probe.send. rewrite Hf.
    eexists. split; [reflexivity|].
    destruct (securityHub_each_finding_count
                (Probe.or_empty (SecurityHubScanner.Findings out)) []) as [_ Hlen].
    cbn [List.length Nat.add] in Hlen. split; [exact Hlen|].
    rewrite Hlen. apply filter_length_le.
Qed.

Lemma securityHub_probe_outcomes_witness :
  SecurityHubScanner.scan
    {| SecurityHubScanner.getEnabledStandards :=
         Throw {| is_Error := true; name := "InvalidAccessException";
                  httpStatusCode := None; message := "not subscribed" |};
       SecurityHubScanner.getFindings := Throw Fixtures.throttled |}
    Fixtures.prod_account "us-east-1"
  = Ok [SecurityHubScanner.not_enabled].
Proof.
  apply (proj1 (securityHub_probe_outcomes _ Fixtures.prod_account "us-east-1")
           {| is_Error := true; name := "InvalidAccessException";
              httpStatusCode := None; message := "not subscribed" |});
    [reflexivity | left; reflexivity].
Defined.

(* ================================================================== *)
(** ** Further properties: the HTTP handlers *)

Section HandlerFacts.

Variable codes : list Z.

Lemma replies_respond (v : Api.Json) : In 200 codes -> replies codes (Api.respond v).
Proof.
  intros Hin d r d' [= <- <-]. cbn. split; [exact Hin | discriminate].
Qed.

Lemma replies_respond_with (code : Z) (v : Api.Json) :
  In code codes -> code <> 500 -> replies codes (Api.respond_with code v).
Proof.
  intros Hin Hne d r d' [= <- <-]. cbn. split; [exact Hin | intros H; contradiction].
Qed.

Lemma replies_bind {A} (m : M A) (k : A -> M Api.Response) :
  (forall a, replies codes (k a)) -> replies codes (bind m k).
Proof.
  intros Hk d r d'. unfold bind. destruct (m d) as [[a|e] d1]; [apply Hk | discriminate].
Qed.

Lemma answers_try_catch (body : M Api.Response) :
  In 500 codes -> replies codes body -> answers codes (try_catch body Api.internal_error).
Proof.
  intros H500 Hbody d. unfold try_catch.
  destruct (body d) as [[r|e] d1] eqn:Hrun.
  - exists r, d1. split; [reflexivity|]. exact (Hbody d r d1 Hrun).
  - eexists _, _. split; [reflexivity|]. cbn. split; [exact H500|]. intros _. now eexists.
Qed.

End HandlerFacts.

Ltac handler_answers :=
  apply answers_try_catch; [cbn; tauto|];
  repeat (apply replies_bind; intros);
  first [ apply replies_respond; cbn; tauto
        | apply replies_respond_with; [cbn; tauto | discriminate] ].

(** X21.  No handler of the three routers lets an error escape: whatever the
    state of the store and whatever fails, each one answers.  The status is
    200 (201 for the two that create a row) or 500, and 404 only for
    POST /api/findings/scan/:accountId; a 500 always carries an error
    message. *)
Theorem handlers_always_answer (env : Env) :
  answers [200; 500] (Api.get_accounts env)
  /\ (forall accountId accountName accessKeyId secretAccessKey sessionToken,
        answers [201; 500]
          (Api.post_account env accountId accountName accessKeyId secretAccessKey sessionToken))
  /\ (forall accountId, answers [200; 500] (Api.get_regions env accountId))
  /\ (forall accountId region enabled,
        answers [201; 500] (Api.post_region env accountId region enabled))
  /\ (forall accountId regionId enabled,
        answers [200; 500] (Api.patch_region env accountId regionId enabled))
  /\ (forall accountId, answers [200; 500] (Api.delete_account env accountId))
  /\ (forall accountId region service_ severity_,
        answers [200; 500] (Api.get_findings env accountId region service_ severity_))
  /\ (forall accountId, answers [200; 500] (Api.get_stats env accountId))
  /\ (forall resourceId_, answers [200; 500] (Api.get_asset_findings env resourceId_))
  /\ (forall world accountId,
        answers [200; 404; 500] (Api.post_findings_scan env world accountId))
  /\ (forall worlds, answers [200; 500] (Api.post_findings_scan_all env worlds))
  /\ (forall world accountId, answers [200; 500] (Api.post_scanner_scan env world accountId))
  /\ (forall worlds, answers [200; 500] (Api.post_scanner_scan_all env worlds)).
Proof.
  repeat match goal with |- _ /\ _ => split end; intros;
    try (unfold Api.get_accounts, Api.post_account, Api.get_regions, Api.post_region,
           Api.patch_region, Api.delete_account, Api.get_findings, Api.get_stats,
           Api.get_asset_findings, Api.post_findings_scan_all, Api.post_scanner_scan,
           Api.post_scanner_scan_all; handler_answers).
  unfold Api.post_findings_scan.
  apply answers_try_catch; [cbn; tauto|].
  apply replies_bind. intros [account|].
  - apply replies_bind. intros results. apply replies_respond. cbn. tauto.
  - apply replies_respond_with; [cbn; tauto | discriminate].
Qed.

Section MissingAccount.

Variable env : Env.

(** X22.  The two routes that scan one account disagree on an account that
    does not exist: POST /api/findings/scan/:accountId answers 404
    "Account not found", POST /api/scanner/scan/:accountId answers 500
    "Account <id> not found", for an id that is a safe integer (of magnitude
    at most 2^53 - 1, which the message shows digit by digit).  Either way
    one SELECT is sent, no probe is run and the tables are untouched. *)
Theorem scan_routes_on_a_missing_account (world : World) (id : Z) (d : Database) :
  Z.abs id <= 9007199254740991 ->
  opened d = true ->
  fault env (List.length (log d)) = false ->
  (forall a, In a (aws_accounts (tables d)) -> a_id a <> id) ->
  Api.post_findings_scan env world id d
  = (Ok {| Api.status := 404; Api.json := Api.J_error "Account not found" |},
     with_log d (log d ++ [SELECT_account id]))
  /\ Api.post_scanner_scan env world id d
     = (Ok {| Api.status := 500;
              Api.json := Api.J_error ("Account " ++ string_of_Z id ++ " not found") |},
        with_log d (log d ++ [SELECT_account id]))
  /\ tables (with_log d (log d ++ [SELECT_account id])) = tables d.
Proof.
  intros _ Hopen Hfault Hnone.
  assert (Hfind : find (fun a => Z.eqb (a_id a) id) (aws_accounts (tables d)) = None).
  { destruct (find _ _) as [a|] eqn:E; [|reflexivity].
    apply find_some in E. destruct E as [Hin Heq]. apply Z.eqb_eq in Heq.
    now apply Hnone in Hin. }
  split; [|split].
  - unfold Api.post_findings_scan, try_catch, bind.
    rewrite (getAccount_runs env id d Hopen Hfault), Hfind. reflexivity.
  - unfold Api.post_scanner_scan, try_catch, bind.
    rewrite (scanAccount_unknown_account env world id d Hopen Hfault Hfind). reflexivity.
  - reflexivity.
Qed.

End MissingAccount.

Lemma scan_routes_on_a_missing_account_witness :
  fst (Api.post_findings_scan Fixtures.quiet Fixtures.healthy_world 7 Fixtures.db_two_accounts)
  = Ok {| Api.status := 404; Api.json := Api.J_error "Account not found" |}
  /\ fst (Api.post_scanner_scan Fixtures.quiet Fixtures.healthy_world 7
            Fixtures.db_two_accounts)
     = Ok {| Api.status := 500; Api.json := Api.J_error "Account 7 not found" |}.
Proof.
  destruct (scan_routes_on_a_missing_account Fixtures.quiet Fixtures.healthy_world 7
              Fixtures.db_two_accounts ltac:(cbn; lia) eq_refl eq_refl
              ltac:(intros a [<- | [<- | []]]; discriminate))
    as (Hfindings & Hscanner & _).
  rewrite Hfindings, Hscanner. split; reflexivity.
Defined.

Section ScanAllRoutes.

Variable env : Env.
Variable worlds : nat -> World.

(** X23.  The two routes that scan every account answer 200 as soon as the
    list of accounts can be read, with one entry per account in the order of
    the list, whatever happens to the single scans; when the list cannot be
    read they answer 500 with the message of that error. *)
Theorem scan_all_routes_report_every_account (d : Database) :
  (forall accounts d1,
      getAccounts env d = (Ok accounts, d1) ->
      exists entries d',
        Api.post_findings_scan_all env worlds d
        = (Ok {| Api.status := 200; Api.json := Api.J_scan_all entries |}, d')
        /\ Api.post_scanner_scan_all env worlds d
           = (Ok {| Api.status := 200; Api.json := Api.J_success_all entries |}, d')
        /\ map accountId entries = map a_id accounts)
  /\ (forall e d1,
        getAccounts env d = (Throw e, d1) ->
        Api.post_findings_scan_all env worlds d
        = (Ok {| Api.status := 500; Api.json := Api.J_error (error_text e) |}, d1)
        /\ Api.post_scanner_scan_all env worlds d
           = (Ok {| Api.status := 500; Api.json := Api.J_error (error_text e) |}, d1)).
Proof.
  split.
  - intros accounts d1 Hlist.
    destruct (scanEach_total env worlds accounts 0 [] d1) as (entries & d' & Hrun & _ & Hids).
    exists entries, d'.
    assert (Hall : scanAllAccounts env worlds d = (Ok entries, d')).
    { unfold scanAllAccounts, bind. rewrite Hlist. exact Hrun. }
    unfold Api.post_findings_scan_all, Api.post_scanner_scan_all, try_catch, bind.
    rewrite Hall. repeat split. exact Hids.
  - intros e d1 Hlist.
    pose proof (scanAllAccounts_without_account_list env worlds d d1 e Hlist) as Hall.
    unfold Api.post_findings_scan_all, Api.post_scanner_scan_all, try_catch, bind.
    rewrite Hall. split; reflexivity.
Qed.

End ScanAllRoutes.

Lemma scan_all_routes_report_every_account_witness :
  exists entries d',
    Api.post_findings_scan_all Fixtures.quiet (fun _ => Fixtures.forbidden_in_second_region)
      Fixtures.db_two_accounts
    = (Ok {| Api.status := 200; Api.json := Api.J_scan_all entries |}, d')
    /\ Api.post_scanner_scan_all Fixtures.quiet (fun _ => Fixtures.forbidden_in_second_region)
         Fixtures.db_two_accounts
       = (Ok {| Api.status := 200; Api.json := Api.J_success_all entries |}, d')
    /\ map accountId entries = [1; 2].
Proof.
  apply (proj1 (scan_all_routes_report_every_account Fixtures.quiet
                  (fun _ => Fixtures.forbidden_in_second_region) Fixtures.db_two_accounts)
           [Fixtures.prod_account; Fixtures.dev_account]
           (with_log Fixtures.db_two_accounts [SELECT_accounts])).
  reflexivity.
Defined.

(** *** Before [initialize] *)

Lemma refused_guarded {A} (k : M A) :
  refused_before_initialize (ensureInitialized ;; k).
Proof.
  intros d Hclosed. unfold bind. now rewrite ensureInitialized_closed.
Qed.

Lemma refused_bind {A B} (m : M A) (k : A -> M B) :
  refused_before_initialize m -> refused_before_initialize (bind m k).
Proof.
  intros Hm d Hclosed. unfold bind. now rewrite (Hm d Hclosed).
Qed.

Lemma refused_handler (body : M Api.Response) :
  refused_before_initialize body ->
  answers_not_initialized (try_catch body Api.internal_error).
Proof.
  intros Hbody d Hclosed. unfold try_catch. now rewrite (Hbody d Hclosed).
Qed.

Section BeforeInitialize.

Variable env : Env.

Lemma getFindings_refused (filters : Filters) :
  refused_before_initialize (getFindings env filters).
Proof. apply refused_guarded. Qed.

Lemma getFindingStats_refused (accountId : option Z) :
  refused_before_initialize (getFindingStats env accountId).
Proof. apply refused_guarded. Qed.

Lemma scanAccount_refused (world : World) (accountId : Z) :
  refused_before_initialize (scanAccount env world accountId).
Proof. apply refused_bind, refused_guarded. Qed.

Lemma scanAllAccounts_refused (worlds : nat -> World) :
  refused_before_initialize (scanAllAccounts env worlds).
Proof. apply refused_bind, refused_guarded. Qed.

End BeforeInitialize.

(** X24.  Until [initialize] has opened the database every method of the
    service is rejected with "Database not initialized. Call initialize()
    first." and sends no statement; so are both scans, before any probe is
    called; and every handler of the three routers then answers 500 with
    that message. *)
Theorem nothing_works_before_initialize (env : Env) :
  ((forall accountId accountName accessKeyId secretAccessKey sessionToken,
       refused_before_initialize
         (addAccount env accountId accountName accessKeyId secretAccessKey sessionToken))
   /\ refused_before_initialize (getAccounts env)
   /\ (forall id, refused_before_initialize (getAccount env id))
   /\ (forall id, refused_before_initialize (deleteAccount env id))
   /\ (forall accountId region enabled,
         refused_before_initialize (addRegion env accountId region enabled))
   /\ (forall accountId, refused_before_initialize (getRegions env accountId))
   /\ (forall accountId, refused_before_initialize (getEnabledRegions env accountId))
   /\ (forall id enabled, refused_before_initialize (updateRegionStatus env id enabled))
   /\ (forall accountId finding, refused_before_initialize (addFinding env accountId finding))
   /\ (forall accountId findings,
         refused_before_initialize (storeFindingsForAccount env accountId findings))
   /\ (forall filters, refused_before_initialize (getFindings env filters))
   /\ (forall accountId, refused_before_initialize (getFindingStats env accountId))
   /\ (forall resourceId_, refused_before_initialize (getFindingsByAsset env resourceId_)))
  /\ ((forall world accountId, refused_before_initialize (scanAccount env world accountId))
      /\ (forall worlds, refused_before_initialize (scanAllAccounts env worlds)))
  /\ (answers_not_initialized (Api.get_accounts env)
      /\ (forall accountId accountName accessKeyId secretAccessKey sessionToken,
            answers_not_initialized
              (Api.post_account env accountId accountName accessKeyId secretAccessKey
                 sessionToken))
      /\ (forall accountId, answers_not_initialized (Api.get_regions env accountId))
      /\ (forall accountId region enabled,
            answers_not_initialized (Api.post_region env accountId region enabled))
      /\ (forall accountId regionId enabled,
            answers_not_initialized (Api.patch_region env accountId regionId enabled))
      /\ (forall accountId, answers_not_initialized (Api.delete_account env accountId))
      /\ (forall accountId region service_ severity_,
            answers_not_initialized
              (Api.get_findings env accountId region service_ severity_))
      /\ (forall accountId, answers_not_initialized (Api.get_stats env accountId))
      /\ (forall resourceId_, answers_not_initialized (Api.get_asset_findings env resourceId_))
      /\ (forall world accountId,
            answers_not_initialized (Api.post_findings_scan env world accountId))
      /\ (forall worlds, answers_not_initialized (Api.post_findings_scan_all env worlds))
      /\ (forall world accountId,
            answers_not_initialized (Api.post_scanner_scan env world accountId))
      /\ (forall worlds, answers_not_initialized (Api.post_scanner_scan_all env worlds))).
Proof.
  split; [|split].
  - repeat match goal with |- _ /\ _ => split end; intros;
      first [ apply refused_guarded | apply getFindings_refused | apply getFindingStats_refused ].
  - split; intros; [apply scanAccount_refused | apply scanAllAccounts_refused].
  - repeat match goal with |- _ /\ _ => split end; intros;
      apply refused_handler;
      first [ apply refused_bind, scanAccount_refused
            | apply refused_bind, scanAllAccounts_refused
            | apply refused_bind, getFindings_refused
            | apply refused_bind, getFindingStats_refused
            | apply refused_bind, refused_guarded ].
Qed.

Lemma nothing_works_before_initialize_witness :
  scanAllAccounts Fixtures.quiet (fun _ => Fixtures.healthy_world)
    {| opened := false; schema := service_schema; tables := empty_tables;
       txn := None; log := [] |}
  = (Throw not_initialized,
     {| opened := false; schema := service_schema; tables := empty_tables;
        txn := None; log := [] |}).
Proof.
  apply (proj2 (proj1 (proj2 (nothing_works_before_initialize Fixtures.quiet)))).
  reflexivity.
Defined.

(** *** Ids that do not exist *)

Lemma filter_all {A} (p : A -> bool) (l : list A) :
  (forall a, In a l -> p a = true) -> filter p l = l.
Proof.
  induction l as [|a l IH]; intros H; cbn; [reflexivity|].
  rewrite (H a (or_introl eq_refl)). f_equal. apply IH. intros b Hb. apply H. now right.
Qed.

Lemma map_unchanged {A} (f : A -> A) (l : list A) :
  (forall a, In a l -> f a = a) -> map f l = l.
Proof.
  induction l as [|a l IH]; intros H; cbn; [reflexivity|].
  rewrite (H a (or_introl eq_refl)). f_equal. apply IH. intros b Hb. apply H. now right.
Qed.

(** X25.  The routes that delete an account or switch a region do not look
    whether the id exists.  For an account id without a row DELETE answers
    200 success and leaves the account rows as they are; for a region id
    without a row PATCH answers 200 success and changes no table, whatever
    account id its path carries. *)
Theorem routes_accept_ids_without_a_row (env : Env) (d : Database) :
  opened d = true ->
  txn d = None ->
  (forall n, (List.length (log d) <= n < List.length (log d) + 5)%nat -> fault env n = false) ->
  (forall accountId,
      (forall a, In a (aws_accounts (tables d)) -> a_id a <> accountId) ->
      exists d',
        Api.delete_account env accountId d
        = (Ok {| Api.status := 200; Api.json := Api.J_success |}, d')
        /\ aws_accounts (tables d') = aws_accounts (tables d))
  /\ (forall accountId regionId enabled,
        (forall r, In r (aws_regions (tables d)) -> r_id r <> regionId) ->
        exists d',
          Api.patch_region env accountId regionId enabled d
          = (Ok {| Api.status := 200; Api.json := Api.J_success |}, d')
          /\ tables d' = tables d).
Proof.
  intros Hopen Htxn Hquiet. split.
  - intros accountId Hnone.
    pose proof (deleteAccount_succeeds env accountId d Hopen Htxn Hquiet) as Hok.
    pose proof (deleteAccount_cases env accountId d) as Hcases.
    unfold Api.delete_account, try_catch, bind.
    destruct (deleteAccount env accountId d) as [[[]|e] d'] eqn:Hrun; cbn in Hok;
      [|discriminate].
    exists d'. split; [reflexivity|].
    destruct Hcases as (-> & _ & _). cbn.
    apply filter_all. intros a Hin. apply Hnone in Hin.
    apply Z.eqb_neq in Hin. now rewrite Hin.
  - intros accountId regionId enabled Hnone.
    assert (Hf : fault env (List.length (log d)) = false) by (apply Hquiet; lia).
    unfold Api.patch_region, updateRegionStatus, try_catch, bind.
    rewrite ensureInitialized_opened by exact Hopen.
    rewrite on_tables_runs by exact Hf.
    eexists. split; [reflexivity|]. cbn.
    rewrite map_unchanged.
    + now destruct (tables d).
    + intros r Hin. apply Hnone in Hin. apply Z.eqb_neq in Hin. now rewrite Hin.
Qed.

Lemma routes_accept_ids_without_a_row_witness :
  exists d',
    Api.delete_account Fixtures.quiet 7 Fixtures.db_two_accounts
    = (Ok {| Api.status := 200; Api.json := Api.J_success |}, d')
    /\ aws_accounts (tables d') = aws_accounts (tables Fixtures.db_two_accounts).
Proof.
  apply (proj1 (routes_accept_ids_without_a_row Fixtures.quiet Fixtures.db_two_accounts
                  eq_refl eq_refl (fun _ _ => eq_refl)) 7).
  intros a [<- | [<- | []]]; discriminate.
Defined.
